(** * simple-state-machine: a shallow embedding of the transition engine

    The Go package [ssm] (files [state_machine.go] and [state_config.go])
    is embedded as state-passing code over an explicit store.  A
    [*StateConfig] is a location in a heap of configuration records, the
    registry [stateToConfig] maps a [State] value to such a location, and
    [current] and [parent] are nil-able locations, exactly as the Go code
    keeps pointers.

    Caller-supplied closures (hooks and guard predicates) are embedded
    twice.  In the first embedding they act on a caller-owned world [W],
    as the closures of the package's tests do on the variables they close
    over: they are not nil and do not call back into the machine they are
    registered on.  A call of a hook is then the hook's effect on the
    world, and "these hooks were called, in this order" is the statement
    that the world is the result of applying them in that order.  In the
    second embedding ([Reentrant]) a closure may be nil and a call of one
    may do anything to the machine, such as firing a transition from
    inside a hook; the first embedding is proved to be the second one at
    closures of the first kind.

    The two loops that follow [parent] pointers have no bound in the
    source.  They are given a budget of iterations ([fuel]); running out
    of it is the outcome [Diverge], and a dereference of nil is the
    outcome [Panic]. *)

From stdpp Require Import gmap strings list fin_maps.

Set Default Proof Using "Type".

(** ** Identifier types ([state_machine.go], lines 8-18) *)

Record State := mkState { Name : string }.
Record Trigger := mkTrigger { Key : string }.

#[global] Instance State_eq_dec : EqDecision State.
Proof. solve_decision. Defined.
#[global] Instance Trigger_eq_dec : EqDecision Trigger.
Proof. solve_decision. Defined.
#[global] Instance State_countable : Countable State.
Proof. by apply (inj_countable' Name mkState); intros []. Defined.
#[global] Instance Trigger_countable : Countable Trigger.
Proof. by apply (inj_countable' Key mkTrigger); intros []. Defined.

(** A [*StateConfig] that is not nil. *)
Abbreviation loc := nat (only parsing).

(** The [error] returned by [Fire]: [None] is Go's nil error. *)
Definition error := option string.

(** [func() bool], [func()] and [func(interface{})] over the caller's
    world [W]; [Ctx] is the dynamic type of the argument of [Fire]. *)
Abbreviation pred W := (W -> bool * W) (only parsing).
Abbreviation hook W := (W -> W) (only parsing).
Abbreviation hookFrom W Ctx := (Ctx -> W -> W) (only parsing).

Section Model.
Variables (W Ctx : Type).

(** [type edge struct] ([state_config.go], lines 4-8).  The map
    [permitted] holds [*edge]; an edge is reachable only through the
    one map entry that holds it, so it is kept by value in the map and
    a write through the pointer is a write to that entry. *)
Record edge := mkEdge {
  edge_trigger : Trigger;
  edge_state : State;
  edge_preds : list (pred W)
}.

(** [type StateConfig struct] ([state_config.go], lines 11-19).  The
    field [owner] always points to the machine that created the record;
    the store below holds that one machine, so [c.owner] is the store's
    machine and the field is not repeated in the record. *)
Record StateConfig := mkStateConfig {
  onEnter : option (hook W);
  onEnterFrom : gmap Trigger (hookFrom W Ctx);
  onExit : option (hook W);
  state : State;
  parent : option loc;
  permitted : gmap string edge
}.

(** [type StateMachine struct] ([state_machine.go], lines 27-30). *)
Record StateMachine := mkStateMachine {
  current : option loc;
  stateToConfig : gmap State loc
}.

(** The machine together with the configuration records it points to.
    A new record is allocated at the end of [heap]. *)
Record Store := mkStore {
  heap : list StateConfig;
  machine : StateMachine
}.

(** Outcome of running a piece of the program: it returns, it panics on
    a nil pointer, or a loop has not finished within its budget. *)
Inductive result (A : Type) : Type :=
| Done (a : A) (st : Store) (w : W)
| Panic
| Diverge.
Arguments Done {A} a st w.
Arguments Panic {A}.
Arguments Diverge {A}.

Definition M (A : Type) : Type := Store -> W -> result A.

Definition ret {A} (a : A) : M A := fun st w => Done a st w.

Definition bind {A B} (m : M A) (k : A -> M B) : M B :=
  fun st w =>
    match m st w with
    | Done a st' w' => k a st' w'
    | Panic => Panic
    | Diverge => Diverge
    end.

Notation "'let*' x ':=' m 'in' k" := (bind m (fun x => k))
  (at level 10, x name, m at level 100, k at level 200).
Notation "m ';;' k" := (bind m (fun _ => k))
  (at level 100, k at level 200, right associativity).

Definition panic {A} : M A := fun _ _ => Panic.
Definition diverge {A} : M A := fun _ _ => Diverge.

Definition getSM : M StateMachine := fun st w => Done (machine st) st w.

(** [*p] for a nil-able pointer [p]. *)
Definition deref (p : option loc) : M StateConfig :=
  fun st w =>
    match p with
    | None => Panic
    | Some l =>
        match heap st !! l with
        | Some c => Done c st w
        | None => Panic
        end
    end.

(** Use of a [*edge] read from a map: nil when the key is missing. *)
Definition derefEdge (p : option edge) : M edge :=
  match p with
  | Some e => ret e
  | None => panic
  end.

(** [&StateConfig{...}] *)
Definition alloc (c : StateConfig) : M loc :=
  fun st w => Done (length (heap st)) (mkStore (heap st ++ [c]) (machine st)) w.

(** A field assignment through the pointer [l]. *)
Definition modifyCfg (l : loc) (f : StateConfig -> StateConfig) : M unit :=
  fun st w =>
    match heap st !! l with
    | Some c => Done tt (mkStore (<[l := f c]> (heap st)) (machine st)) w
    | None => Panic
    end.

Definition setCurrent (p : option loc) : M unit :=
  fun st w =>
    Done tt (mkStore (heap st) (mkStateMachine p (stateToConfig (machine st)))) w.

Definition setStateToConfig (s : State) (l : loc) : M unit :=
  fun st w =>
    Done tt (mkStore (heap st)
               (mkStateMachine (current (machine st))
                  (<[s := l]> (stateToConfig (machine st))))) w.

(** Calls of caller closures. *)
Definition callHook (f : hook W) : M unit := fun st w => Done tt st (f w).
Definition callPred (p : pred W) : M bool :=
  fun st w => Done (fst (p w)) st (snd (p w)).

(** Field setters of [StateConfig]. *)
Definition set_onEnter (f : option (hook W)) (c : StateConfig) : StateConfig :=
  mkStateConfig f (onEnterFrom c) (onExit c) (state c) (parent c) (permitted c).
Definition set_onEnterFrom (m : gmap Trigger (hookFrom W Ctx)) (c : StateConfig) : StateConfig :=
  mkStateConfig (onEnter c) m (onExit c) (state c) (parent c) (permitted c).
Definition set_onExit (f : option (hook W)) (c : StateConfig) : StateConfig :=
  mkStateConfig (onEnter c) (onEnterFrom c) f (state c) (parent c) (permitted c).
Definition set_parent (p : option loc) (c : StateConfig) : StateConfig :=
  mkStateConfig (onEnter c) (onEnterFrom c) (onExit c) (state c) p (permitted c).
Definition set_permitted (m : gmap string edge) (c : StateConfig) : StateConfig :=
  mkStateConfig (onEnter c) (onEnterFrom c) (onExit c) (state c) (parent c) m.

(** ** [state_config.go] *)

(** [NewStateConfig] (lines 22-29). *)
Definition NewStateConfig (s : State) : StateConfig :=
  mkStateConfig None ∅ None s None ∅.

(** [registerStateConfig] ([state_machine.go], lines 127-134). *)
Definition registerStateConfig (s : State) : M loc :=
  let* sm := getSM in
  match stateToConfig sm !! s with
  | Some cfg => ret cfg
  | None =>
      let* cfg := alloc (NewStateConfig s) in
      setStateToConfig s cfg;;
      ret cfg
  end.

(** [Permit] (lines 33-37). *)
Definition Permit (c : loc) (t : Trigger) (s : State) : M loc :=
  registerStateConfig s;;
  modifyCfg c (fun cfg =>
    set_permitted (<[Key t := mkEdge t s []]> (permitted cfg)) cfg);;
  ret c.

(** [PermitIf] (lines 42-53). *)
Definition PermitIf (c : loc) (t : Trigger) (s : State) (p : pred W) : M loc :=
  registerStateConfig s;;
  let* cfg := deref (Some c) in
  let* val :=
    match permitted cfg !! Key t with
    | Some val => ret val
    | None =>
        let val := mkEdge t s [] in
        modifyCfg c (fun cfg => set_permitted (<[Key t := val]> (permitted cfg)) cfg);;
        ret val
    end in
  modifyCfg c (fun cfg =>
    set_permitted
      (<[Key t := mkEdge (edge_trigger val) (edge_state val) (edge_preds val ++ [p])]>
         (permitted cfg)) cfg);;
  ret c.

(** [OnEnter] (lines 59-62). *)
Definition OnEnter (c : loc) (f : hook W) : M loc :=
  modifyCfg c (set_onEnter (Some f));;
  ret c.

(** [OnEnterFrom] (lines 65-68). *)
Definition OnEnterFrom (c : loc) (t : Trigger) (f : hookFrom W Ctx) : M loc :=
  modifyCfg c (fun cfg => set_onEnterFrom (<[t := f]> (onEnterFrom cfg)) cfg);;
  ret c.

(** [OnExit] (lines 72-75). *)
Definition OnExit (c : loc) (f : hook W) : M loc :=
  modifyCfg c (set_onExit (Some f));;
  ret c.

(** [SubstateOf] (lines 80-84). *)
Definition SubstateOf (c : loc) (s : State) : M loc :=
  let* cfg := registerStateConfig s in
  modifyCfg c (set_parent (Some cfg));;
  ret c.

(** ** [state_machine.go] *)

(** [NewStateMachine] (lines 33-40), run on the empty store. *)
Definition emptyStore : Store := mkStore [] (mkStateMachine None ∅).

Definition NewStateMachine (initial : State) : M unit :=
  let* cfg := registerStateConfig initial in
  setCurrent (Some cfg).

(** [Configure] (lines 44-46). *)
Definition Configure (s : State) : M loc := registerStateConfig s.

(** [State()] (lines 49-51). *)
Definition SM_State : M State :=
  let* sm := getSM in
  let* cur := deref (current sm) in
  ret (state cur).

(** The [for _, pred := range next.preds] loop of [CanFire] (lines
    99-105); [found] is the loop's variable, and the result is its value
    when the loop is left. *)
Fixpoint predLoop (ps : list (pred W)) (found : bool) : M bool :=
  match ps with
  | [] => ret found
  | p :: ps' =>
      let* found := callPred p in
      if found then ret found else predLoop ps' found
  end.

(** [CanFire] (lines 90-111). *)
Definition CanFire (triggerKey : string) : M bool :=
  let* sm := getSM in
  let* cur := deref (current sm) in
  match permitted cur !! triggerKey with
  | None => ret false
  | Some next =>
      if bool_decide (0 < length (edge_preds next)) then
        let* found := predLoop (edge_preds next) false in
        if negb found then ret false else ret true
      else ret true
  end.

(** The [for current != nil] loop of [Fire] (lines 67-72).  Each
    iteration costs one unit of [fuel]. *)
Fixpoint exitLoop (fuel : nat) (cur : option loc) : M unit :=
  match cur with
  | None => ret tt
  | Some _ =>
      match fuel with
      | 0 => diverge
      | S fuel' =>
          let* cfg := deref cur in
          match onExit cfg with
          | Some f => callHook f
          | None => ret tt
          end;;
          exitLoop fuel' (parent cfg)
      end
  end.

Definition errUnsupported : error := Some "unsupported trigger"%string.

(** [Fire] (lines 55-86). *)
Definition Fire (fuel : nat) (triggerKey : string) (ctx : Ctx) : M error :=
  let* ok := CanFire triggerKey in
  if negb ok then ret errUnsupported else
  let* sm := getSM in
  let* cur := deref (current sm) in
  let* edge := derefEdge (permitted cur !! triggerKey) in
  let* target := deref (stateToConfig sm !! edge_state edge) in
  let targetParent := parent target in
  let* walk :=
    match targetParent with
    | None => ret true
    | Some _ =>
        let* tp := deref targetParent in
        ret (bool_decide (state tp ≠ state cur))
    end in
  (if walk : bool then exitLoop fuel (current sm) else ret tt);;
  setCurrent (stateToConfig sm !! edge_state edge);;
  let* sm := getSM in
  let* cur := deref (current sm) in
  match onEnterFrom cur !! edge_trigger edge with
  | Some enterFrom => callHook (enterFrom ctx)
  | None => ret tt
  end;;
  match onEnter cur with
  | Some f => callHook f
  | None => ret tt
  end;;
  ret None.

(** The loop of [IsInState] (lines 117-122). *)
Fixpoint isInLoop (fuel : nat) (s : State) (cur : option loc) : M bool :=
  match cur with
  | None => ret false
  | Some _ =>
      match fuel with
      | 0 => diverge
      | S fuel' =>
          let* cfg := deref cur in
          if bool_decide (state cfg = s) then ret true
          else isInLoop fuel' s (parent cfg)
      end
  end.

(** [IsInState] (lines 115-124). *)
Definition IsInState (fuel : nat) (s : State) : M bool :=
  let* sm := getSM in
  isInLoop fuel s (current sm).

(** ** Every public operation, as one instruction *)

Inductive op : Type :=
| OpConfigure (s : State)
| OpPermit (c : loc) (t : Trigger) (s : State)
| OpPermitIf (c : loc) (t : Trigger) (s : State) (p : pred W)
| OpOnEnter (c : loc) (f : hook W)
| OpOnEnterFrom (c : loc) (t : Trigger) (f : hookFrom W Ctx)
| OpOnExit (c : loc) (f : hook W)
| OpSubstateOf (c : loc) (s : State)
| OpFire (fuel : nat) (triggerKey : string) (ctx : Ctx)
| OpCanFire (triggerKey : string)
| OpIsInState (fuel : nat) (s : State)
| OpState.

Definition void {A} (m : M A) : M unit := m;; ret tt.

Definition exec (o : op) : M unit :=
  match o with
  | OpConfigure s => void (Configure s)
  | OpPermit c t s => void (Permit c t s)
  | OpPermitIf c t s p => void (PermitIf c t s p)
  | OpOnEnter c f => void (OnEnter c f)
  | OpOnEnterFrom c t f => void (OnEnterFrom c t f)
  | OpOnExit c f => void (OnExit c f)
  | OpSubstateOf c s => void (SubstateOf c s)
  | OpFire fuel k ctx => void (Fire fuel k ctx)
  | OpCanFire k => void (CanFire k)
  | OpIsInState fuel s => void (IsInState fuel s)
  | OpState => void SM_State
  end.

(** The stores a caller can produce: [NewStateMachine], then any
    sequence of calls that return.  A handle is any location; a call
    through a location that holds no record panics and is no step. *)
Inductive reachable (initial : State) : Store -> Prop :=
| reach_new st w w' :
    NewStateMachine initial emptyStore w = Done tt st w' ->
    reachable initial st
| reach_step o st w st' w' :
    reachable initial st ->
    exec o st w = Done tt st' w' ->
    reachable initial st'.

(** A caller's straight-line program. *)
Fixpoint runOps (os : list op) : M unit :=
  match os with
  | [] => ret tt
  | o :: os' => exec o;; runOps os'
  end.

(** A caller that declares [s] a substate of itself and permits the
    trigger [t] from [s] to [s']. *)
Definition selfParent (s : State) (t : Trigger) (s' : State) : M unit :=
  NewStateMachine s;;
  let* cfg := Configure s in
  SubstateOf cfg s;;
  Permit cfg t s';;
  ret tt.

(** ** Vocabulary of the specification *)

(** [chain h p cs]: following [parent] from the pointer [p] visits the
    records [cs], in that order, and then reaches nil. *)
Inductive chain (h : list StateConfig) : option loc -> list StateConfig -> Prop :=
| chain_nil : chain h None []
| chain_cons l c cs :
    h !! l = Some c -> chain h (parent c) cs -> chain h (Some l) (c :: cs).

(** [ancestor h p k c]: the record [c] is reached from the pointer [p]
    by [k] parent steps ([k = 0]: it is the record at [p]). *)
Inductive ancestor (h : list StateConfig) : option loc -> nat -> StateConfig -> Prop :=
| anc_here l c : h !! l = Some c -> ancestor h (Some l) 0 c
| anc_up l c k c' :
    h !! l = Some c -> ancestor h (parent c) k c' ->
    ancestor h (Some l) (S k) c'.

(** The exit hooks that are set on the records [cs], in order. *)
Definition exitHooks (cs : list StateConfig) : list (hook W) := omap onExit cs.

(** Replacing the machine's [current] pointer. *)
Definition withCurrent (st : Store) (p : option loc) : Store :=
  mkStore (heap st) (mkStateMachine p (stateToConfig (machine st))).

(** Calling hooks one after the other. *)
Definition runHooks (fs : list (hook W)) (w : W) : W :=
  foldl (fun w f => f w) w fs.

(** The hooks of the entry steps of a transition into [c] by the
    trigger [t]: the enter-from hook of [t] if registered, then the
    enter hook if set. *)
Definition entryHooks (c : StateConfig) (t : Trigger) (ctx : Ctx) : list (hook W) :=
  match onEnterFrom c !! t with
  | Some f => [f ctx]
  | None => []
  end ++
  match onEnter c with
  | Some f => [f]
  | None => []
  end.

(** Evaluating every predicate of [ps] in order, without stopping. *)
Fixpoint evalSeq (ps : list (pred W)) (w : W) : list bool * W :=
  match ps with
  | [] => ([], w)
  | p :: ps' =>
      let r := p w in
      let rs := evalSeq ps' (snd r) in
      (fst r :: fst rs, snd rs)
  end.

(** [target] is a direct substate of the record [cur]: its parent
    pointer is set and names a record whose state is [cur]'s. *)
Definition directSubstate (h : list StateConfig) (target cur : StateConfig) : bool :=
  match parent target with
  | None => false
  | Some p =>
      match h !! p with
      | Some tp => bool_decide (state tp = state cur)
      | None => false
      end
  end.

(** Registry and heap describe each other: one record per registered
    state, every record registered under its own state, parents and
    edge targets exist, and an edge is filed under its trigger's key. *)
Record consistent (st : Store) : Prop := mkConsistent {
  cons_registry : ∀ s l,
    stateToConfig (machine st) !! s = Some l ->
    ∃ c, heap st !! l = Some c ∧ state c = s;
  cons_heap : ∀ l c,
    heap st !! l = Some c -> stateToConfig (machine st) !! state c = Some l;
  cons_parent : ∀ l c p,
    heap st !! l = Some c -> parent c = Some p -> is_Some (heap st !! p);
  cons_edge : ∀ l c k e,
    heap st !! l = Some c -> permitted c !! k = Some e ->
    Key (edge_trigger e) = k ∧ is_Some (stateToConfig (machine st) !! edge_state e)
}.

Definition wf (st : Store) : Prop :=
  consistent st ∧ ∃ l, current (machine st) = Some l ∧ is_Some (heap st !! l).

(** [extends st st']: nothing registered in [st] is lost or moved in
    [st'], and every record of [st] is still there for the same state. *)
Definition extends (st st' : Store) : Prop :=
  (∀ s l, stateToConfig (machine st) !! s = Some l ->
          stateToConfig (machine st') !! s = Some l) ∧
  (∀ l cfg, heap st !! l = Some cfg ->
            ∃ cfg', heap st' !! l = Some cfg' ∧ state cfg' = state cfg).

(** The edge [PermitIf] leaves under the trigger's key: the old edge
    with one more guard, or a new edge with that guard alone. *)
Definition guardedEdge (old : option edge) (t : Trigger) (s : State)
    (p : pred W) : edge :=
  match old with
  | Some val => mkEdge (edge_trigger val) (edge_state val) (edge_preds val ++ [p])
  | None => mkEdge t s [p]
  end.

(** Storing the record [x] through the handle [c]. *)
Definition update (st : Store) (c : loc) (x : StateConfig) : Store :=
  mkStore (<[c := x]> (heap st)) (machine st).

(** The handle a configuration call goes through, if it has one. *)
Definition handleOf (o : op) : option loc :=
  match o with
  | OpPermit c _ _ | OpPermitIf c _ _ _ | OpOnEnter c _
  | OpOnEnterFrom c _ _ | OpOnExit c _ | OpSubstateOf c _ => Some c
  | _ => None
  end.

(** The calls that configure: [Configure] and the methods of
    [StateConfig]. *)
Definition isConfigCall (o : op) : bool :=
  match o with
  | OpConfigure _ | OpPermit _ _ _ | OpPermitIf _ _ _ _ | OpOnEnter _ _
  | OpOnEnterFrom _ _ _ | OpOnExit _ _ | OpSubstateOf _ _ => true
  | _ => false
  end.

End Model.

Arguments mkEdge {W}.
Arguments edge_trigger {W}.
Arguments edge_state {W}.
Arguments edge_preds {W}.
Arguments mkStateConfig {W Ctx}.
Arguments onEnter {W Ctx}.
Arguments onEnterFrom {W Ctx}.
Arguments onExit {W Ctx}.
Arguments state {W Ctx}.
Arguments parent {W Ctx}.
Arguments permitted {W Ctx}.
Arguments mkStateMachine _ _ : clear implicits.
Arguments mkStore {W Ctx}.
Arguments heap {W Ctx}.
Arguments machine {W Ctx}.
Arguments Done {W Ctx A}.
Arguments Panic {W Ctx A}.
Arguments Diverge {W Ctx A}.
Arguments ret {W Ctx A}.
Arguments bind {W Ctx A B}.
Arguments panic {W Ctx A}.
Arguments diverge {W Ctx A}.
Arguments getSM {W Ctx}.
Arguments deref {W Ctx}.
Arguments derefEdge {W Ctx}.
Arguments alloc {W Ctx}.
Arguments modifyCfg {W Ctx}.
Arguments setCurrent {W Ctx}.
Arguments setStateToConfig {W Ctx}.
Arguments callHook {W Ctx}.
Arguments callPred {W Ctx}.
Arguments set_onEnter {W Ctx}.
Arguments set_onEnterFrom {W Ctx}.
Arguments set_onExit {W Ctx}.
Arguments set_parent {W Ctx}.
Arguments set_permitted {W Ctx}.
Arguments NewStateConfig {W Ctx}.
Arguments registerStateConfig {W Ctx}.
Arguments Permit {W Ctx}.
Arguments PermitIf {W Ctx}.
Arguments OnEnter {W Ctx}.
Arguments OnEnterFrom {W Ctx}.
Arguments OnExit {W Ctx}.
Arguments SubstateOf {W Ctx}.
Arguments emptyStore {W Ctx}.
Arguments NewStateMachine {W Ctx}.
Arguments Configure {W Ctx}.
Arguments SM_State {W Ctx}.
Arguments predLoop {W Ctx}.
Arguments CanFire {W Ctx}.
Arguments exitLoop {W Ctx}.
Arguments Fire {W Ctx}.
Arguments isInLoop {W Ctx}.
Arguments IsInState {W Ctx}.
Arguments OpConfigure {W Ctx}.
Arguments OpPermit {W Ctx}.
Arguments OpPermitIf {W Ctx}.
Arguments OpOnEnter {W Ctx}.
Arguments OpOnEnterFrom {W Ctx}.
Arguments OpOnExit {W Ctx}.
Arguments OpSubstateOf {W Ctx}.
Arguments OpFire {W Ctx}.
Arguments OpCanFire {W Ctx}.
Arguments OpIsInState {W Ctx}.
Arguments OpState {W Ctx}.
Arguments void {W Ctx A}.
Arguments exec {W Ctx}.
Arguments reachable {W Ctx}.
Arguments runOps {W Ctx}.
Arguments selfParent {W Ctx}.
Arguments chain {W Ctx}.
Arguments chain_nil {W Ctx}.
Arguments chain_cons {W Ctx}.
Arguments ancestor {W Ctx}.
Arguments exitHooks {W Ctx}.
Arguments withCurrent {W Ctx}.
Arguments anc_here {W Ctx}.
Arguments anc_up {W Ctx}.
Arguments runHooks {W}.
Arguments entryHooks {W Ctx}.
Arguments evalSeq {W}.
Arguments directSubstate {W Ctx}.
Arguments consistent {W Ctx}.
Arguments wf {W Ctx}.
Arguments guardedEdge {W}.
Arguments extends {W Ctx}.
Arguments handleOf {W Ctx}.
Arguments update {W Ctx}.
Arguments isConfigCall {W Ctx}.

Notation "'let*' x ':=' m 'in' k" := (bind m (fun x => k))
(at level 10, x name, m at level 100, k at level 200).
Notation "m ';;' k" := (bind m (fun _ => k))
(at level 100, k at level 200, right associativity).

(** ** The scenarios of [state_machine_test.go]

  The caller's world holds the variables the tests' closures close
  over: the boolean a guard reads and the slice the hooks append to. *)
Module Scenario.

Record World := mkWorld { allow : bool; calls : list string }.

Definition Prog := M World nat.

(** [func() { calls = append(calls, name) }] *)
Definition record (name : string) : hook World :=
  fun w => mkWorld (allow w) (calls w ++ [name]).

(** [func(ctx interface{}) { calls = append(calls, name) }] *)
Definition recordFrom (name : string) : hookFrom World nat :=
  fun _ w => mkWorld (allow w) (calls w ++ [name]).

(** [func() bool { return allow }] *)
Definition guardAllow : pred World := fun w => (allow w, w).

(** A guard that appends its name to [calls] and answers [b]. *)
Definition guardSays (name : string) (b : bool) : pred World :=
  fun w => (b, mkWorld (allow w) (calls w ++ [name])).

Definition w0 : World := mkWorld false [].

Definition s1 := mkState "s1".
Definition s2 := mkState "s2".
Definition s3 := mkState "s3".
Definition s4 := mkState "s4".
Definition tr1 := mkTrigger "tr1".
Definition tr2 := mkTrigger "tr2".
Definition tr3 := mkTrigger "tr3".

(** The store and world a program leaves behind, if it returns. *)
Definition run {A} (m : Prog A) (w : World) : option (A * Store World nat * World) :=
  match m emptyStore w with
  | Done a st w' => Some (a, st, w')
  | _ => None
  end.

Definition storeOf (m : Prog unit) : Store World nat :=
  match m emptyStore w0 with
  | Done _ st _ => st
  | _ => emptyStore
  end.

(** [TestOnEnterOnExitSubstates], up to the first [Fire]. *)
Definition substates : Prog unit :=
  NewStateMachine s1;;
  let* cfg := Configure s1 in
  Permit cfg tr1 s2;;
  OnEnter cfg (record "s1enter");;
  OnExit cfg (record "s1exit");;
  let* cfg := Configure s2 in
  Permit cfg tr2 s3;;
  OnEnter cfg (record "s2enter");;
  OnExit cfg (record "s2exit");;
  let* cfg := Configure s3 in
  SubstateOf cfg s2;;
  Permit cfg tr3 s4;;
  OnEnter cfg (record "s3enter");;
  OnExit cfg (record "s3exit");;
  let* cfg := Configure s4 in
  OnEnter cfg (record "s4enter");;
  OnExit cfg (record "s4exit");;
  ret tt.

(** [TestReentry], up to [Fire]. *)
Definition reentry : Prog unit :=
  NewStateMachine s1;;
  let* cfg := Configure s1 in
  Permit cfg (mkTrigger "tr") s1;;
  OnExit cfg (record "exit");;
  OnEnter cfg (record "enter");;
  ret tt.

(** [TestIsInState], up to the first [Fire], with exit hooks added. *)
Definition nested : Prog unit :=
  NewStateMachine s1;;
  let* cfg := Configure s1 in
  Permit cfg tr1 s2;;
  Permit cfg tr3 s3;;
  OnExit cfg (record "s1exit");;
  let* cfg := Configure s2 in
  SubstateOf cfg s1;;
  Permit cfg tr2 s3;;
  OnExit cfg (record "s2exit");;
  let* cfg := Configure s3 in
  SubstateOf cfg s2;;
  Permit cfg tr3 s4;;
  OnEnter cfg (record "s3enter");;
  OnExit cfg (record "s3exit");;
  ret tt.

(** [TestGuardedPermits], up to the first [CanFire]. *)
Definition guarded : Prog unit :=
  NewStateMachine s1;;
  let* cfg := Configure s1 in
  PermitIf cfg tr1 s2 guardAllow;;
  OnExit cfg (record "s1exit");;
  ret tt.

(** Three guards on one edge; the second one answers true. *)
Definition threeGuards : Prog unit :=
  NewStateMachine s1;;
  let* cfg := Configure s1 in
  PermitIf cfg tr1 s2 (guardSays "g1" false);;
  PermitIf cfg tr1 s3 (guardSays "g2" true);;
  PermitIf cfg tr1 s4 (guardSays "g3" true);;
  ret tt.

(** [TestOnEnterFrom]: [s3] has an enter-from hook for [tr1] and an
    enter hook; [s1] reaches it by [tr1] and by [tr2]. *)
Definition enterFrom : Prog unit :=
  NewStateMachine s1;;
  let* cfg := Configure s3 in
  OnEnterFrom cfg tr1 (recordFrom "s3enterFromTr1");;
  OnEnter cfg (record "s3enter");;
  let* cfg := Configure s1 in
  Permit cfg tr1 s3;;
  Permit cfg tr2 s3;;
  ret tt.


(** The record at a handle and the edge under a key, for stores whose
    contents are known. *)
Definition cfgAt (st : Store World nat) (l : loc) : StateConfig World nat :=
  default (NewStateConfig (mkState "")) (heap st !! l).

Definition edgeAt (c : StateConfig World nat) (k : string) : edge World :=
  default (mkEdge (mkTrigger "") (mkState "") []) (permitted c !! k).

(** [reentry] and [enterFrom] once more, as lists of calls on handles. *)
Definition reentryOps : list (op World nat) :=
  [OpConfigure s1; OpPermit 0 (mkTrigger "tr") s1;
   OpOnExit 0 (record "exit"); OpOnEnter 0 (record "enter")].

Definition enterFromOps : list (op World nat) :=
  [OpConfigure s3; OpOnEnterFrom 1 tr1 (recordFrom "s3enterFromTr1");
   OpOnEnter 1 (record "s3enter"); OpConfigure s1;
   OpPermit 0 tr1 s3; OpPermit 0 tr2 s3].

(** The log a program leaves in [calls], if it returns. *)
Definition callsOf {A} (m : Prog A) (w : World) : option (list string) :=
  match m emptyStore w with
  | Done _ _ w' => Some (calls w')
  | _ => None
  end.

(** The state a program ends in, if it returns. *)
Definition stateOf {A} (m : Prog A) (w : World) : option State :=
  match (m;; SM_State) emptyStore w with
  | Done s _ _ => Some s
  | _ => None
  end.

(** [substates] followed by the first [Fire] of the test, as a list of
    calls on handles: the machine is then in [s2]. *)
Definition substatesOps : list (op World nat) :=
  [OpConfigure s1; OpPermit 0 tr1 s2;
   OpOnEnter 0 (record "s1enter"); OpOnExit 0 (record "s1exit");
   OpConfigure s2; OpPermit 1 tr2 s3;
   OpOnEnter 1 (record "s2enter"); OpOnExit 1 (record "s2exit");
   OpConfigure s3; OpSubstateOf 2 s2; OpPermit 2 tr3 s4;
   OpOnEnter 2 (record "s3enter"); OpOnExit 2 (record "s3exit");
   OpConfigure s4;
   OpOnEnter 3 (record "s4enter"); OpOnExit 3 (record "s4exit");
   OpFire 5 "tr1" 0].

Definition inS2 : Store World nat := storeOf (substates;; Fire 5 "tr1" 0;; ret tt).

End Scenario.

(** ** The example program ([examples/main.go])

    [fmt.Println] and [fmt.Printf] append to the standard output; the
    output is kept as the list of the chunks written, one per call. *)
(** The one-character string that ends a line. *)
Definition newline : string := String (Ascii.ascii_of_nat 10) EmptyString.

Module OnOff.

(** The caller's world is the standard output; [Fire] is always called
    with a nil [ctx]. *)
Definition World := list string.
Definition Prog := M World unit.

Definition off := mkState "off".
Definition on := mkState "on".
Definition space := mkTrigger " ".

(** [fmt.Print(s)] and [fmt.Println(s)]. *)
Definition print (s : string) : hook World := fun out => out ++ [s].
Definition println (s : string) : hook World := fun out => out ++ [s ++ newline]%string.

Definition prompt : string :=
  "Enter text (a single space toggles the state, other strings do nothing): ".

(** [OnOffExample] (lines 31-45), up to the loop. *)
Definition setup : Prog unit :=
  NewStateMachine off;;
  let* cfg := Configure off in
  Permit cfg space on;;
  OnEnter cfg (println "entering off ");;
  OnExit cfg (println "exiting off ");;
  let* cfg := Configure on in
  Permit cfg space off;;
  OnEnter cfg (println "entering on ");;
  OnExit cfg (println "exiting on ");;
  ret tt.

(** One turn of the loop (lines 49-57); [text] is the line read, with
    its newline removed.  [Println] puts a space between its operands. *)
Definition iteration (fuel : nat) (text : string) : Prog unit :=
  let* s := SM_State in
  callHook (println ("current state: " ++ " " ++ Name s));;
  callHook (print prompt);;
  let* err := Fire fuel text tt in
  match err with
  | Some msg => callHook (println msg)
  | None => ret tt
  end.

(** The loop, for the lines read so far. *)
Fixpoint loop (fuel : nat) (texts : list string) : Prog unit :=
  match texts with
  | [] => ret tt
  | text :: texts' => iteration fuel text;; loop fuel texts'
  end.

(** A switch with two positions, written directly. *)
Definition switchName (isOn : bool) : string := if isOn then "on" else "off".

Definition switchStep (st : bool * World) (text : string) : bool * World :=
  let '(isOn, out) := st in
  let out := print prompt (println ("current state: " ++ " " ++ switchName isOn) out) in
  if String.eqb text " " then
    (negb isOn,
     println ("entering " ++ switchName (negb isOn) ++ " ")
       (println ("exiting " ++ switchName isOn ++ " ") out))
  else (isOn, println "unsupported trigger" out).

(** The store [setup] leaves, with [current] at [off] or at [on]. *)
Definition storeAt (isOn : bool) : Store World unit :=
  mkStore
    [mkStateConfig (Some (println "entering off ")) ∅
       (Some (println "exiting off ")) off None {[" "%string := mkEdge space on []]};
     mkStateConfig (Some (println "entering on ")) ∅
       (Some (println "exiting on ")) on None {[" "%string := mkEdge space off []]}]
    (mkStateMachine (Some (if isOn then 1 else 0)) (<[on := 1]> {[off := 0]})).

End OnOff.

Module BugTracker.

(** The fields of [Bug] other than [sm], the standard output, and
    whether the type assertion [ctx.(string)] has failed. *)
Record World := mkWorld {
  Title : string;
  Assignee : string;
  stdout : list string;
  assertionFailed : bool
}.

(** [ctx] is nil or holds a string. *)
Definition Ctx := option string.
Definition Prog := M World Ctx.

Definition Open := mkState "Open".
Definition Assigned := mkState "Assigned".
Definition Closed := mkState "Closed".
Definition Assign := mkTrigger "assign".
Definition Close := mkTrigger "close".

Definition println (s : string) : hook World :=
  fun b => mkWorld (Title b) (Assignee b) (stdout b ++ [s ++ newline]%string) (assertionFailed b).

(** [SendEmail] (lines 129-131). *)
Definition SendEmail (msg : string) : hook World :=
  fun b => mkWorld (Title b) (Assignee b)
             (stdout b ++ ["Sending Email => " ++ Assignee b ++ " - " ++ msg ++ newline]%string)
             (assertionFailed b).

(** [Deassigned] (lines 118-120). *)
Definition Deassigned : hook World :=
  fun b => SendEmail (Title b ++ " has been unassigned from you") b.

(** The enter-from hook of [NewBug] (lines 96-99). *)
Definition onAssign : hookFrom World Ctx :=
  fun ctx b =>
    match ctx with
    | Some assignee =>
        let b := mkWorld (Title b) assignee (stdout b) (assertionFailed b) in
        SendEmail (Title b ++ " assigned to you") b
    | None => mkWorld (Title b) (Assignee b) (stdout b) true
    end.

(** The enter hook of [Closed] (lines 103-105). *)
Definition onClosed : hook World :=
  fun b => SendEmail (Title b ++ " has been closed") b.

(** [NewBug] (lines 85-109). *)
Definition NewBug (title : string) : Prog unit :=
  callHook (fun b => mkWorld title "" (stdout b) (assertionFailed b));;
  NewStateMachine Open;;
  let* cfg := Configure Open in
  Permit cfg Assign Assigned;;
  let* cfg := Configure Assigned in
  SubstateOf cfg Open;;
  Permit cfg Close Closed;;
  Permit cfg Assign Assigned;;
  OnEnterFrom cfg Assign onAssign;;
  OnExit cfg Deassigned;;
  let* cfg := Configure Closed in
  OnEnter cfg onClosed;;
  ret tt.

(** [Bug.Assign] (lines 111-116). *)
Definition doAssign (fuel : nat) (assignee : string) : Prog unit :=
  let* err := Fire fuel (Key Assign) (Some assignee) in
  match err with
  | Some msg => callHook (println ("assign failed" ++ " " ++ msg))
  | None => ret tt
  end.

(** [Bug.Close] (lines 122-127). *)
Definition doClose (fuel : nat) : Prog unit :=
  let* err := Fire fuel (Key Close) None in
  match err with
  | Some msg => callHook (println ("close failed" ++ " " ++ msg))
  | None => ret tt
  end.

(** [BugExample] (lines 61-66). *)
Definition BugExample (fuel : nat) : Prog unit :=
  NewBug "bad bug";;
  doAssign fuel "frank";;
  doAssign fuel "joe";;
  doClose fuel.

(** What a user of [Bug] can do, and a bug tracker written directly. *)
Inductive action := DoAssign (assignee : string) | DoClose.

Inductive phase := IsOpen | IsAssigned | IsClosed.

Definition perform (fuel : nat) (a : action) : Prog unit :=
  match a with
  | DoAssign assignee => doAssign fuel assignee
  | DoClose => doClose fuel
  end.

Fixpoint performAll (fuel : nat) (acts : list action) : Prog unit :=
  match acts with
  | [] => ret tt
  | a :: acts' => perform fuel a;; performAll fuel acts'
  end.

Definition trackerStep (st : phase * World) (a : action) : phase * World :=
  let '(ph, b) := st in
  match ph, a with
  | IsOpen, DoAssign assignee =>
      (IsAssigned, onAssign (Some assignee) b)
  | IsAssigned, DoAssign assignee =>
      (IsAssigned, onAssign (Some assignee) (Deassigned b))
  | IsAssigned, DoClose =>
      (IsClosed, onClosed (Deassigned b))
  | IsClosed, DoAssign _ =>
      (IsClosed, println "assign failed unsupported trigger" b)
  | IsOpen, DoClose | IsClosed, DoClose =>
      (ph, println "close failed unsupported trigger" b)
  end.

Definition phaseLoc (ph : phase) : loc :=
  match ph with
  | IsOpen => 0
  | IsAssigned => 1
  | IsClosed => 2
  end.

Definition phaseState (ph : phase) : State :=
  match ph with
  | IsOpen => Open
  | IsAssigned => Assigned
  | IsClosed => Closed
  end.

(** The store [NewBug] leaves, with [current] at the record of [ph]. *)
Definition storeAt (ph : phase) : Store World Ctx :=
  mkStore
    [mkStateConfig None ∅ None Open None
       {["assign"%string := mkEdge Assign Assigned []]};
     mkStateConfig None {[Assign := onAssign]} (Some Deassigned) Assigned (Some 0)
       (<["assign"%string := mkEdge Assign Assigned []]>
          {["close"%string := mkEdge Close Closed []]});
     mkStateConfig (Some onClosed) ∅ None Closed None ∅]
    (mkStateMachine (Some (phaseLoc ph))
       (<[Closed := 2]> (<[Assigned := 1]> {[Open := 0]}))).

End BugTracker.

(** ** The engine, with closures that can reach the machine

    A Go closure can capture [sm] or a [*StateConfig] and call the
    package from inside a hook or a guard, and a [func] value can be nil.
    In this second embedding of the same source a closure is kept in
    the store by its identity ([Hook], [HookFrom], [Pred]), a nil [func]
    value is [None], and what a call of a closure does, to the store as
    well as to the caller's world, is given by an environment [Env].
    Every read of [sm.current] and of a field behind a pointer is a read
    of the store as it is at that point of the source. *)
Module Reentrant.
Section Model.
Variables (W Ctx Hook HookFrom Pred : Type).

(** [type edge struct] ([state_config.go], lines 4-8). *)
Record edge := mkEdge {
  edge_trigger : Trigger;
  edge_state : State;
  edge_preds : list (option Pred)
}.

(** [type StateConfig struct] ([state_config.go], lines 11-19). *)
Record StateConfig := mkStateConfig {
  onEnter : option Hook;
  onEnterFrom : gmap Trigger (option HookFrom);
  onExit : option Hook;
  state : State;
  parent : option loc;
  permitted : gmap string edge
}.

Record Store := mkStore {
  heap : list StateConfig;
  machine : StateMachine
}.

Inductive result (A : Type) : Type :=
| Done (a : A) (st : Store) (w : W)
| Panic
| Diverge.
Arguments Done {A} a st w.
Arguments Panic {A}.
Arguments Diverge {A}.

Definition M (A : Type) : Type := Store -> W -> result A.

Definition ret {A} (a : A) : M A := fun st w => Done a st w.

Definition bind {A B} (m : M A) (k : A -> M B) : M B :=
  fun st w =>
    match m st w with
    | Done a st' w' => k a st' w'
    | Panic => Panic
    | Diverge => Diverge
    end.

Notation "'let!' x ':=' m 'in' k" := (bind m (fun x => k))
  (at level 10, x name, m at level 100, k at level 200).
Notation "m ';!' k" := (bind m (fun _ => k))
  (at level 100, k at level 200, right associativity).

Definition panic {A} : M A := fun _ _ => Panic.
Definition diverge {A} : M A := fun _ _ => Diverge.

Definition getSM : M StateMachine := fun st w => Done (machine st) st w.

Definition deref (p : option loc) : M StateConfig :=
  fun st w =>
    match p with
    | None => Panic
    | Some l =>
        match heap st !! l with
        | Some c => Done c st w
        | None => Panic
        end
    end.

Definition derefEdge (p : option edge) : M edge :=
  match p with
  | Some e => ret e
  | None => panic
  end.

Definition alloc (c : StateConfig) : M loc :=
  fun st w => Done (length (heap st)) (mkStore (heap st ++ [c]) (machine st)) w.

Definition modifyCfg (l : loc) (f : StateConfig -> StateConfig) : M unit :=
  fun st w =>
    match heap st !! l with
    | Some c => Done tt (mkStore (<[l := f c]> (heap st)) (machine st)) w
    | None => Panic
    end.

Definition setCurrent (p : option loc) : M unit :=
  fun st w =>
    Done tt (mkStore (heap st) (mkStateMachine p (stateToConfig (machine st)))) w.

Definition setStateToConfig (s : State) (l : loc) : M unit :=
  fun st w =>
    Done tt (mkStore (heap st)
               (mkStateMachine (current (machine st))
                  (<[s := l]> (stateToConfig (machine st))))) w.

(** What the closures do when called: any effect on the store and on
    the world, a panic, or no return. *)
Record Env := mkEnv {
  runHook : Hook -> M unit;
  runHookFrom : HookFrom -> Ctx -> M unit;
  runPred : Pred -> M bool
}.

(** Calls of [func] values.  [onEnter] and [onExit] are called behind a
    nil test; an enter-from hook and a guard are called as they are
    stored, and calling nil panics. *)
Definition callHook (E : Env) (f : Hook) : M unit := runHook E f.

Definition callHookFrom (E : Env) (f : option HookFrom) (ctx : Ctx) : M unit :=
  match f with
  | Some f => runHookFrom E f ctx
  | None => panic
  end.

Definition callPred (E : Env) (p : option Pred) : M bool :=
  match p with
  | Some p => runPred E p
  | None => panic
  end.

Definition set_onEnter (f : option Hook) (c : StateConfig) : StateConfig :=
  mkStateConfig f (onEnterFrom c) (onExit c) (state c) (parent c) (permitted c).
Definition set_onEnterFrom (m : gmap Trigger (option HookFrom)) (c : StateConfig) : StateConfig :=
  mkStateConfig (onEnter c) m (onExit c) (state c) (parent c) (permitted c).
Definition set_onExit (f : option Hook) (c : StateConfig) : StateConfig :=
  mkStateConfig (onEnter c) (onEnterFrom c) f (state c) (parent c) (permitted c).
Definition set_parent (p : option loc) (c : StateConfig) : StateConfig :=
  mkStateConfig (onEnter c) (onEnterFrom c) (onExit c) (state c) p (permitted c).
Definition set_permitted (m : gmap string edge) (c : StateConfig) : StateConfig :=
  mkStateConfig (onEnter c) (onEnterFrom c) (onExit c) (state c) (parent c) m.

(** [NewStateConfig] ([state_config.go], lines 22-29). *)
Definition NewStateConfig (s : State) : StateConfig :=
  mkStateConfig None ∅ None s None ∅.

(** [registerStateConfig] ([state_machine.go], lines 127-134). *)
Definition registerStateConfig (s : State) : M loc :=
  let! sm := getSM in
  match stateToConfig sm !! s with
  | Some cfg => ret cfg
  | None =>
      let! cfg := alloc (NewStateConfig s) in
      setStateToConfig s cfg;!
      ret cfg
  end.

(** [Permit] ([state_config.go], lines 33-37). *)
Definition Permit (c : loc) (t : Trigger) (s : State) : M loc :=
  registerStateConfig s;!
  modifyCfg c (fun cfg =>
    set_permitted (<[Key t := mkEdge t s []]> (permitted cfg)) cfg);!
  ret c.

(** [PermitIf] (lines 42-53); [pred] is stored as given, nil or not. *)
Definition PermitIf (c : loc) (t : Trigger) (s : State) (p : option Pred) : M loc :=
  registerStateConfig s;!
  let! cfg := deref (Some c) in
  let! val :=
    match permitted cfg !! Key t with
    | Some val => ret val
    | None =>
        let val := mkEdge t s [] in
        modifyCfg c (fun cfg => set_permitted (<[Key t := val]> (permitted cfg)) cfg);!
        ret val
    end in
  modifyCfg c (fun cfg =>
    set_permitted
      (<[Key t := mkEdge (edge_trigger val) (edge_state val) (edge_preds val ++ [p])]>
         (permitted cfg)) cfg);!
  ret c.

(** [OnEnter] (lines 59-62). *)
Definition OnEnter (c : loc) (f : option Hook) : M loc :=
  modifyCfg c (set_onEnter f);!
  ret c.

(** [OnEnterFrom] (lines 65-68): the map entry is written, nil or not. *)
Definition OnEnterFrom (c : loc) (t : Trigger) (f : option HookFrom) : M loc :=
  modifyCfg c (fun cfg => set_onEnterFrom (<[t := f]> (onEnterFrom cfg)) cfg);!
  ret c.

(** [OnExit] (lines 72-75). *)
Definition OnExit (c : loc) (f : option Hook) : M loc :=
  modifyCfg c (set_onExit f);!
  ret c.

(** [SubstateOf] (lines 80-84). *)
Definition SubstateOf (c : loc) (s : State) : M loc :=
  let! cfg := registerStateConfig s in
  modifyCfg c (set_parent (Some cfg));!
  ret c.

Definition emptyStore : Store := mkStore [] (mkStateMachine None ∅).

(** [NewStateMachine] ([state_machine.go], lines 33-40). *)
Definition NewStateMachine (initial : State) : M unit :=
  let! cfg := registerStateConfig initial in
  setCurrent (Some cfg).

(** [Configure] (lines 44-46). *)
Definition Configure (s : State) : M loc := registerStateConfig s.

(** [State()] (lines 49-51). *)
Definition SM_State : M State :=
  let! sm := getSM in
  let! cur := deref (current sm) in
  ret (state cur).

(** The guard loop of [CanFire] (lines 99-105), over the slice
    [next.preds] as it is when the loop starts. *)
Fixpoint predLoop (E : Env) (ps : list (option Pred)) (found : bool) : M bool :=
  match ps with
  | [] => ret found
  | p :: ps' =>
      let! found := callPred E p in
      if found then ret found else predLoop E ps' found
  end.

(** [CanFire] (lines 90-111). *)
Definition CanFire (E : Env) (triggerKey : string) : M bool :=
  let! sm := getSM in
  let! cur := deref (current sm) in
  match permitted cur !! triggerKey with
  | None => ret false
  | Some next =>
      if bool_decide (0 < length (edge_preds next)) then
        let! found := predLoop E (edge_preds next) false in
        if negb found then ret false else ret true
      else ret true
  end.

(** The exit walk of [Fire] (lines 67-72).  [current.onExit] is read
    before the hook is called and [current.parent] after it returned. *)
Fixpoint exitLoop (E : Env) (fuel : nat) (cur : option loc) : M unit :=
  match cur with
  | None => ret tt
  | Some _ =>
      match fuel with
      | 0 => diverge
      | S fuel' =>
          let! cfg := deref cur in
          match onExit cfg with
          | Some f => callHook E f
          | None => ret tt
          end;!
          let! cfg := deref cur in
          exitLoop E fuel' (parent cfg)
      end
  end.

(** [Fire] (lines 55-86).  The edge is read once (line 60) and its
    fields [state] and [trigger] never change; the registry is read at
    line 64 and again at line 75; [sm.current] is read again at line 77
    and, after the enter-from hook returned, at lines 82 and 83. *)
Definition Fire (E : Env) (fuel : nat) (triggerKey : string) (ctx : Ctx) : M error :=
  let! ok := CanFire E triggerKey in
  if negb ok then ret errUnsupported else
  let! sm := getSM in
  let! cur := deref (current sm) in
  let! edge := derefEdge (permitted cur !! triggerKey) in
  let! target := deref (stateToConfig sm !! edge_state edge) in
  let targetParent := parent target in
  let! walk :=
    match targetParent with
    | None => ret true
    | Some _ =>
        let! tp := deref targetParent in
        ret (bool_decide (state tp ≠ state cur))
    end in
  (if walk : bool then exitLoop E fuel (current sm) else ret tt);!
  let! sm := getSM in
  setCurrent (stateToConfig sm !! edge_state edge);!
  let! sm := getSM in
  let! cur := deref (current sm) in
  match onEnterFrom cur !! edge_trigger edge with
  | Some enterFrom => callHookFrom E enterFrom ctx
  | None => ret tt
  end;!
  let! sm := getSM in
  let! cur := deref (current sm) in
  match onEnter cur with
  | Some f => callHook E f
  | None => ret tt
  end;!
  ret None.

(** The loop of [IsInState] (lines 117-122). *)
Fixpoint isInLoop (fuel : nat) (s : State) (cur : option loc) : M bool :=
  match cur with
  | None => ret false
  | Some _ =>
      match fuel with
      | 0 => diverge
      | S fuel' =>
          let! cfg := deref cur in
          if bool_decide (state cfg = s) then ret true
          else isInLoop fuel' s (parent cfg)
      end
  end.

(** [IsInState] (lines 115-124). *)
Definition IsInState (fuel : nat) (s : State) : M bool :=
  let! sm := getSM in
  isInLoop fuel s (current sm).

Definition void {A} (m : M A) : M unit := m;! ret tt.

(** Replacing the machine's [current] pointer. *)
Definition withCurrent (st : Store) (p : option loc) : Store :=
  mkStore (heap st) (mkStateMachine p (stateToConfig (machine st))).

(** The test of line 65: is the exit walk run for a transition from
    the record [cur] to the record [target]?  No answer when the
    target's parent pointer dangles. *)
Definition walks (h : list StateConfig) (target cur : StateConfig) : option bool :=
  match parent target with
  | None => Some true
  | Some p =>
      match h !! p with
      | Some tp => Some (bool_decide (state tp ≠ state cur))
      | None => None
      end
  end.

(** Lines 65-73: the exit walk from the location [l], or nothing. *)
Definition exitPhase (E : Env) (fuel : nat) (walk : bool) (l : loc) : M unit :=
  if walk then exitLoop E fuel (Some l) else ret tt.

(** Lines 77-80: the enter-from hook of the record [target] for the
    trigger [t], if the map has an entry for it. *)
Definition enterFromStep (E : Env) (target : StateConfig) (t : Trigger) (ctx : Ctx) : M unit :=
  match onEnterFrom target !! t with
  | Some enterFrom => callHookFrom E enterFrom ctx
  | None => ret tt
  end.

(** Lines 82-84: the enter hook of the record that is current. *)
Definition enterStep (E : Env) : M unit :=
  let! sm := getSM in
  let! cur := deref (current sm) in
  match onEnter cur with
  | Some f => callHook E f
  | None => ret tt
  end.

(** No closure changes the machine: whenever a call of one returns,
    the store is as it was.  A closure may still read the machine,
    change the caller's world, panic, or not return. *)
Definition quiet (E : Env) : Prop :=
  (∀ f st w a st' w', runHook E f st w = Done a st' w' -> st' = st) ∧
  (∀ f ctx st w a st' w', runHookFrom E f ctx st w = Done a st' w' -> st' = st) ∧
  (∀ p st w b st' w', runPred E p st w = Done b st' w' -> st' = st).

End Model.

Arguments mkEdge {Pred}.
Arguments edge_trigger {Pred}.
Arguments edge_state {Pred}.
Arguments edge_preds {Pred}.
Arguments mkStateConfig {Hook HookFrom Pred}.
Arguments onEnter {Hook HookFrom Pred}.
Arguments onEnterFrom {Hook HookFrom Pred}.
Arguments onExit {Hook HookFrom Pred}.
Arguments state {Hook HookFrom Pred}.
Arguments parent {Hook HookFrom Pred}.
Arguments permitted {Hook HookFrom Pred}.
Arguments mkStore {Hook HookFrom Pred}.
Arguments heap {Hook HookFrom Pred}.
Arguments machine {Hook HookFrom Pred}.
Arguments Done {W Hook HookFrom Pred A}.
Arguments Panic {W Hook HookFrom Pred A}.
Arguments Diverge {W Hook HookFrom Pred A}.
Arguments ret {W Hook HookFrom Pred A}.
Arguments bind {W Hook HookFrom Pred A B}.
Arguments panic {W Hook HookFrom Pred A}.
Arguments diverge {W Hook HookFrom Pred A}.
Arguments getSM {W Hook HookFrom Pred}.
Arguments deref {W Hook HookFrom Pred}.
Arguments derefEdge {W Hook HookFrom Pred}.
Arguments alloc {W Hook HookFrom Pred}.
Arguments modifyCfg {W Hook HookFrom Pred}.
Arguments setCurrent {W Hook HookFrom Pred}.
Arguments setStateToConfig {W Hook HookFrom Pred}.
Arguments mkEnv {W Ctx Hook HookFrom Pred}.
Arguments runHook {W Ctx Hook HookFrom Pred}.
Arguments runHookFrom {W Ctx Hook HookFrom Pred}.
Arguments runPred {W Ctx Hook HookFrom Pred}.
Arguments callHook {W Ctx Hook HookFrom Pred}.
Arguments callHookFrom {W Ctx Hook HookFrom Pred}.
Arguments callPred {W Ctx Hook HookFrom Pred}.
Arguments set_onEnter {Hook HookFrom Pred}.
Arguments set_onEnterFrom {Hook HookFrom Pred}.
Arguments set_onExit {Hook HookFrom Pred}.
Arguments set_parent {Hook HookFrom Pred}.
Arguments set_permitted {Hook HookFrom Pred}.
Arguments NewStateConfig {Hook HookFrom Pred}.
Arguments registerStateConfig {W Hook HookFrom Pred}.
Arguments Permit {W Hook HookFrom Pred}.
Arguments PermitIf {W Hook HookFrom Pred}.
Arguments OnEnter {W Hook HookFrom Pred}.
Arguments OnEnterFrom {W Hook HookFrom Pred}.
Arguments OnExit {W Hook HookFrom Pred}.
Arguments SubstateOf {W Hook HookFrom Pred}.
Arguments emptyStore {Hook HookFrom Pred}.
Arguments NewStateMachine {W Hook HookFrom Pred}.
Arguments Configure {W Hook HookFrom Pred}.
Arguments SM_State {W Hook HookFrom Pred}.
Arguments predLoop {W Ctx Hook HookFrom Pred}.
Arguments CanFire {W Ctx Hook HookFrom Pred}.
Arguments exitLoop {W Ctx Hook HookFrom Pred}.
Arguments Fire {W Ctx Hook HookFrom Pred}.
Arguments isInLoop {W Hook HookFrom Pred}.
Arguments IsInState {W Hook HookFrom Pred}.
Arguments void {W Hook HookFrom Pred A}.
Arguments withCurrent {Hook HookFrom Pred}.
Arguments walks {Hook HookFrom Pred}.
Arguments exitPhase {W Ctx Hook HookFrom Pred}.
Arguments enterFromStep {W Ctx Hook HookFrom Pred}.
Arguments enterStep {W Ctx Hook HookFrom Pred}.
Arguments quiet {W Ctx Hook HookFrom Pred}.

End Reentrant.

Notation "'let!' x ':=' m 'in' k" := (Reentrant.bind m (fun x => k))
(at level 10, x name, m at level 100, k at level 200).
Notation "m ';!' k" := (Reentrant.bind m (fun _ => k))
(at level 100, k at level 200, right associativity).

(** ** Closures that are functions of the caller's world

    The first embedding is the second one at closures that are not nil
    and have no effect but on the caller's world: a closure is then its
    own identity, and calling it applies it. *)
Section Pure.
Variables (W Ctx : Type).

Definition pureEnv : Reentrant.Env W Ctx (hook W) (hookFrom W Ctx) (pred W) :=
  Reentrant.mkEnv
    (fun f st w => Reentrant.Done tt st (f w))
    (fun f ctx st w => Reentrant.Done tt st (f ctx w))
    (fun p st w => Reentrant.Done (fst (p w)) st (snd (p w))).

Definition embedEdge (e : edge W) : Reentrant.edge (pred W) :=
  Reentrant.mkEdge (edge_trigger e) (edge_state e) (Some <$> edge_preds e).

Definition embedConfig (c : StateConfig W Ctx)
    : Reentrant.StateConfig (hook W) (hookFrom W Ctx) (pred W) :=
  Reentrant.mkStateConfig (onEnter c) (Some <$> onEnterFrom c) (onExit c)
    (state c) (parent c) (embedEdge <$> permitted c).

Definition embed (st : Store W Ctx)
    : Reentrant.Store (hook W) (hookFrom W Ctx) (pred W) :=
  Reentrant.mkStore (embedConfig <$> heap st) (machine st).

Definition embedResult {A} (r : result W Ctx A)
    : Reentrant.result W (hook W) (hookFrom W Ctx) (pred W) A :=
  match r with
  | Done a st w => Reentrant.Done a (embed st) w
  | Panic => Reentrant.Panic
  | Diverge => Reentrant.Diverge
  end.

End Pure.

Arguments pureEnv {W Ctx}.
Arguments embedEdge {W}.
Arguments embedConfig {W Ctx}.
Arguments embed {W Ctx}.
Arguments embedResult {W Ctx A}.

(** ** A hook that fires a transition

    Three states in a row, from [s1] to [s2] by [tr1] and from [s2] to
    [s3] by [tr2], with hooks as in [TestOnEnterOnExitSubstates], where
    the enter-from hook of [s2] for [tr1] calls [sm.Fire("tr2", ctx)].
    The caller's world is the slice [calls]. *)
Module HookFires.

Definition World := list string.

(** [func() { calls = append(calls, name) }] *)
Inductive hookId := Append (name : string).

(** [func(ctx interface{}) { sm.Fire(triggerKey, ctx) }] *)
Inductive hookFromId := FireAgain (triggerKey : string).

Definition Store := Reentrant.Store hookId hookFromId Empty_set.
Definition Prog := Reentrant.M World hookId hookFromId Empty_set.
Definition Env := Reentrant.Env World nat hookId hookFromId Empty_set.

Definition append (h : hookId) : Prog unit :=
  fun st w => match h with Append name => Reentrant.Done tt st (w ++ [name]) end.

(** The closures, with [depth] calls of the machine nested inside one
    another at most: below that the run has not finished. *)
Fixpoint envAt (fuel depth : nat) : Env :=
  match depth with
  | 0 => Reentrant.mkEnv append (fun _ _ => Reentrant.diverge) (fun p => match p with end)
  | S depth' =>
      Reentrant.mkEnv append
        (fun f ctx =>
           match f with
           | FireAgain triggerKey =>
               Reentrant.void (Reentrant.Fire (envAt fuel depth') fuel triggerKey ctx)
           end)
        (fun p => match p with end)
  end.

Definition s1 := mkState "s1".
Definition s2 := mkState "s2".
Definition s3 := mkState "s3".
Definition tr1 := mkTrigger "tr1".
Definition tr2 := mkTrigger "tr2".

Definition setup : Prog unit :=
  Reentrant.NewStateMachine s1;!
  let! cfg := Reentrant.Configure s1 in
  Reentrant.Permit cfg tr1 s2;!
  Reentrant.OnExit cfg (Some (Append "s1exit"));!
  let! cfg := Reentrant.Configure s2 in
  Reentrant.Permit cfg tr2 s3;!
  Reentrant.OnEnterFrom cfg tr1 (Some (FireAgain "tr2"));!
  Reentrant.OnEnter cfg (Some (Append "s2enter"));!
  Reentrant.OnExit cfg (Some (Append "s2exit"));!
  let! cfg := Reentrant.Configure s3 in
  Reentrant.OnEnter cfg (Some (Append "s3enter"));!
  Reentrant.ret tt.

Definition store : Store :=
  match setup Reentrant.emptyStore [] with
  | Reentrant.Done _ st _ => st
  | _ => Reentrant.emptyStore
  end.

(** The record a store holds for a state, if any. *)
Definition configOf (st : Store) (s : State)
    : option (Reentrant.StateConfig hookId hookFromId Empty_set) :=
  match stateToConfig (Reentrant.machine st) !! s with
  | Some l => Reentrant.heap st !! l
  | None => None
  end.

(** The record at a handle and the edge under a key, for stores whose
    contents are known. *)
Definition cfgAt (st : Store) (l : loc)
    : Reentrant.StateConfig hookId hookFromId Empty_set :=
  default (Reentrant.NewStateConfig (mkState "")) (Reentrant.heap st !! l).

Definition edgeAt (c : Reentrant.StateConfig hookId hookFromId Empty_set)
    (k : string) : Reentrant.edge Empty_set :=
  default (Reentrant.mkEdge (mkTrigger "") (mkState "") []) (Reentrant.permitted c !! k).

End HookFires.

(** * Properties *)

Section Proofs.
Variables (W Ctx : Type).
Implicit Types (st : Store W Ctx) (w : W) (h : list (StateConfig W Ctx)).
Implicit Types (cfg cur target : StateConfig W Ctx) (e : edge W).
Implicit Types (ps : list (pred W)) (l : loc) (s : State).

(** ** Running the monad *)

Lemma bind_Done {A B} (m : M W Ctx A) (k : A -> M W Ctx B) st w a st' w' :
  m st w = Done a st' w' -> bind m k st w = k a st' w'.
Proof. intros H. unfold bind. by rewrite H. Qed.

Lemma deref_Some st w l cfg :
  heap st !! l = Some cfg -> deref (Some l) st w = Done cfg st w.
Proof. intros H. unfold deref. by rewrite H. Qed.

(** ** The guard loop *)

Lemma evalSeq_app ps qs w :
  evalSeq (ps ++ qs) w =
    (fst (evalSeq ps w) ++ fst (evalSeq qs (snd (evalSeq ps w))),
     snd (evalSeq qs (snd (evalSeq ps w)))).
Proof.
  revert w; induction ps as [|p ps IH]; intros w; simpl.
  - by destruct (evalSeq qs w).
  - by rewrite IH.
Qed.

Lemma evalSeq_length ps w : length (fst (evalSeq ps w)) = length ps.
Proof. revert w; induction ps as [|p ps IH]; intros w; simpl; [done|]. by rewrite IH. Qed.

Lemma evalSeq_take k ps w :
  fst (evalSeq (take k ps) w) = take k (fst (evalSeq ps w)).
Proof.
  revert k w; induction ps as [|p ps IH]; intros [|k] w; simpl; try done.
  by rewrite IH.
Qed.

(** The loop leaves the store alone, and it either stops right after the
    first predicate that answers true or runs through all of them. *)
Lemma predLoop_run ps (found : bool) st w :
  ∃ b w', predLoop ps found st w = Done b st w' ∧
    ((b = true ∧ ∃ i, i < length ps ∧
        evalSeq (take (S i) ps) w = (replicate i false ++ [true], w'))
     ∨ (b = (if ps is [] then found else false) ∧
        evalSeq ps w = (replicate (length ps) false, w'))).
Proof.
  revert found w; induction ps as [|p ps IH]; intros found w.
  - exists found, w. split; [done|]. by right.
  - simpl. unfold bind, callPred.
    destruct (p w) as [[] w1] eqn:Hp; simpl.
    + exists true, w1. split; [done|]. left. split; [done|].
      exists 0. split; [lia|]. simpl. by rewrite ?Hp.
    + destruct (IH false w1) as (b & w' & Hrun & Hcase).
      exists b, w'. split; [done|].
      destruct Hcase as [(-> & i & Hi & Hev)|(-> & Hev)].
      * left. split; [done|]. exists (S i). split; [lia|].
        change (take (S (S i)) (p :: ps)) with (p :: take (S i) ps).
        simpl evalSeq. rewrite ?Hp. simpl. by rewrite Hev.
      * right. split; [by destruct ps|]. rewrite ?Hp. simpl. by rewrite Hev.
Qed.

(** [CanFire] on a store whose current record is [cur]. *)
Lemma CanFire_unfold st w l cur triggerKey :
  current (machine st) = Some l -> heap st !! l = Some cur ->
  CanFire triggerKey st w =
    match permitted cur !! triggerKey with
    | None => Done false st w
    | Some next =>
        if bool_decide (0 < length (edge_preds next)) then
          match predLoop (edge_preds next) false st w with
          | Done found st' w' => Done (if negb found then false else true) st' w'
          | Panic => Panic
          | Diverge => Diverge
          end
        else Done true st w
    end.
Proof.
  intros Hc Hl. unfold CanFire, bind, getSM, deref. rewrite Hc, Hl.
  destruct (permitted cur !! triggerKey) as [next|]; [|done].
  case_bool_decide; [|done].
  destruct (predLoop _ _ _ _) as [[] ? ?| |]; done.
Qed.

(** [CanFire] never writes to the store. *)
Lemma CanFire_frame triggerKey st w b st' w' :
  CanFire triggerKey st w = Done b st' w' -> st' = st.
Proof.
  unfold CanFire, bind, getSM, deref.
  destruct (current (machine st)) as [l|]; [|done].
  destruct (heap st !! l) as [cur|]; [|done].
  destruct (permitted cur !! triggerKey) as [next|]; [|by intros [= _ <- _]].
  case_bool_decide; [|by intros [= _ <- _]].
  destruct (predLoop_run (edge_preds next) false st w) as (b' & w1 & -> & _).
  by destruct b'; intros [= _ <- _].
Qed.

(** [CanFire] returns on every store that has a current record. *)
Lemma CanFire_total triggerKey st w l cur :
  current (machine st) = Some l -> heap st !! l = Some cur ->
  ∃ b w', CanFire triggerKey st w = Done b st w'.
Proof.
  intros Hc Hl. rewrite (CanFire_unfold _ _ _ _ _ Hc Hl).
  destruct (permitted cur !! triggerKey) as [next|]; [|by eauto].
  case_bool_decide; [|by eauto].
  destruct (predLoop_run (edge_preds next) false st w) as (b' & w1 & -> & _).
  destruct b'; simpl; eauto.
Qed.

(** ** The parent-following loops *)

Lemma chain_unique h p cs1 cs2 : chain h p cs1 -> chain h p cs2 -> cs1 = cs2.
Proof.
  intros H1; revert cs2; induction H1 as [|l c cs Hl _ IH]; intros cs2 H2.
  - by inversion H2.
  - inversion H2 as [|l' c' cs' Hl' Hch]; subst.
    rewrite Hl in Hl'; injection Hl' as <-. f_equal. by apply IH.
Qed.

Lemma exitLoop_run h p cs :
  chain h p cs ->
  ∀ fuel st w, heap st = h -> length cs ≤ fuel ->
    exitLoop fuel p st w = Done tt st (runHooks (exitHooks cs) w).
Proof.
  induction 1 as [|l c cs Hl _ IH]; intros fuel st w Hh Hfuel.
  - by destruct fuel.
  - destruct fuel as [|fuel]; [simpl in Hfuel; lia|].
    simpl in Hfuel. simpl. unfold bind, deref. rewrite Hh, Hl.
    unfold exitHooks. simpl omap.
    destruct (onExit c) as [f|]; simpl; unfold callHook; apply IH; (done || lia).
Qed.

Lemma isInLoop_frame fuel s p st w b st' w' :
  isInLoop fuel s p st w = Done b st' w' -> st' = st ∧ w' = w.
Proof.
  revert p; induction fuel as [|fuel IH]; intros [l|]; simpl;
    try done; try by intros [= _ <- <-].
  unfold bind, deref. destruct (heap st !! l) as [c|]; [|done].
  case_bool_decide; [by intros [= _ <- <-]|]. apply IH.
Qed.

Lemma isInLoop_chain h p cs :
  chain h p cs ->
  ∀ fuel s st w, heap st = h -> length cs ≤ fuel ->
    isInLoop fuel s p st w = Done (bool_decide (s ∈ state <$> cs)) st w.
Proof.
  induction 1 as [|l c cs Hl _ IH]; intros fuel s st w Hh Hfuel.
  - destruct fuel; simpl; unfold ret; f_equal;
      symmetry; apply bool_decide_eq_false; apply not_elem_of_nil.
  - destruct fuel as [|fuel]; [simpl in Hfuel; lia|].
    simpl in Hfuel. simpl isInLoop. unfold bind, deref. rewrite Hh, Hl.
    case_bool_decide as Hs.
    + unfold ret. f_equal. symmetry. apply bool_decide_eq_true.
      rewrite fmap_cons, Hs. apply list_elem_of_here.
    + rewrite IH by (done || lia). f_equal.
      apply bool_decide_ext. rewrite fmap_cons, elem_of_cons.
      split; [by right|]. intros [->|?]; [by destruct Hs|done].
Qed.

Lemma isInLoop_ancestor h p k c :
  ancestor h p k c ->
  ∀ fuel st w, heap st = h -> k < fuel ->
    isInLoop fuel (state c) p st w = Done true st w.
Proof.
  induction 1 as [l c Hl|l c k c' Hl _ IH]; intros fuel st w Hh Hfuel;
    (destruct fuel as [|fuel]; [lia|]); simpl; unfold bind, deref;
    rewrite Hh, Hl.
  - by rewrite bool_decide_eq_true_2.
  - case_bool_decide; [done|]. apply IH; (done || lia).
Qed.

(** ** One call of [Fire], step by step *)

(** When [CanFire] answers false, [Fire] returns the error at once. *)
Lemma Fire_denied fuel triggerKey ctx st w st' w' :
  CanFire triggerKey st w = Done false st' w' ->
  Fire fuel triggerKey ctx st w = Done errUnsupported st' w'.
Proof. intros H. unfold Fire, bind at 1. by rewrite H. Qed.

(** The whole of a permitted [Fire]: which records it reads, the store
    it leaves and the hooks it calls. *)
Lemma Fire_run fuel triggerKey ctx st w w1 l cur e tl target :
  current (machine st) = Some l -> heap st !! l = Some cur ->
  permitted cur !! triggerKey = Some e ->
  stateToConfig (machine st) !! edge_state e = Some tl ->
  heap st !! tl = Some target ->
  CanFire triggerKey st w = Done true st w1 ->
  match parent target with
  | None =>
      ∀ cs, chain (heap st) (Some l) cs -> length cs ≤ fuel ->
        Fire fuel triggerKey ctx st w =
          Done None (withCurrent st (Some tl))
            (runHooks (exitHooks cs ++ entryHooks target (edge_trigger e) ctx) w1)
  | Some p =>
      ∀ tp, heap st !! p = Some tp ->
        if bool_decide (state tp = state cur) then
          Fire fuel triggerKey ctx st w =
            Done None (withCurrent st (Some tl))
              (runHooks (entryHooks target (edge_trigger e) ctx) w1)
        else
          ∀ cs, chain (heap st) (Some l) cs -> length cs ≤ fuel ->
            Fire fuel triggerKey ctx st w =
              Done None (withCurrent st (Some tl))
                (runHooks (exitHooks cs ++ entryHooks target (edge_trigger e) ctx) w1)
  end.
Proof.
  intros Hc Hl He Htl Ht Hcan.
  assert (Hentry : ∀ w2,
    (let* sm := getSM in
     let* cur := deref (current sm) in
     match onEnterFrom cur !! edge_trigger e with
     | Some enterFrom => callHook (enterFrom ctx)
     | None => ret tt
     end;;
     match onEnter cur with
     | Some f => callHook f
     | None => ret tt
     end;;
     ret None) (withCurrent st (Some tl)) w2 =
    Done (None : error) (withCurrent st (Some tl))
      (runHooks (entryHooks target (edge_trigger e) ctx) w2)).
  { intros w2. unfold bind, getSM, deref, withCurrent. simpl. rewrite Ht.
    unfold entryHooks, callHook, ret.
    destruct (onEnterFrom target !! edge_trigger e), (onEnter target); done. }
  assert (Hfire : ∀ r, 
    (let* walk :=
       match parent target with
       | None => ret true
       | Some _ =>
           let* tp := deref (parent target) in
           ret (bool_decide (state tp ≠ state cur))
       end in
     (if walk : bool then exitLoop fuel (Some l) else ret tt);;
     setCurrent (Some tl);;
     let* sm := getSM in
     let* cur := deref (current sm) in
     match onEnterFrom cur !! edge_trigger e with
     | Some enterFrom => callHook (enterFrom ctx)
     | None => ret tt
     end;;
     match onEnter cur with
     | Some f => callHook f
     | None => ret tt
     end;;
     ret None) st w1 = r ->
    Fire fuel triggerKey ctx st w = r).
  { intros r <-. unfold Fire. rewrite (bind_Done _ _ _ _ _ _ _ Hcan).
    change (negb true) with false. cbv iota.
    rewrite (bind_Done _ _ st w1 (machine st) st w1) by done.
    rewrite Hc, (bind_Done _ _ _ _ _ _ _ (deref_Some _ _ _ _ Hl)).
    rewrite He. rewrite (bind_Done _ _ st w1 e st w1) by done.
    by rewrite Htl, (bind_Done _ _ _ _ _ _ _ (deref_Some _ _ _ _ Ht)). }
  destruct (parent target) as [p|] eqn:Hp.
  - intros tp Htp.
    case_bool_decide as Hs.
    + apply Hfire.
      rewrite (bind_Done _ _ st w1 (bool_decide (state tp ≠ state cur)) st w1)
        by (by rewrite (bind_Done _ _ _ _ _ _ _ (deref_Some _ _ _ _ Htp))).
      rewrite bool_decide_eq_false_2 by naive_solver.
      rewrite (bind_Done _ _ st w1 tt st w1) by done.
      rewrite (bind_Done _ _ st w1 tt (withCurrent st (Some tl)) w1) by done.
      apply Hentry.
    + intros cs Hch Hfuel. apply Hfire.
      rewrite (bind_Done _ _ st w1 (bool_decide (state tp ≠ state cur)) st w1)
        by (by rewrite (bind_Done _ _ _ _ _ _ _ (deref_Some _ _ _ _ Htp))).
      rewrite bool_decide_eq_true_2 by done.
      rewrite (bind_Done _ _ _ _ _ _ _ (exitLoop_run _ _ _ Hch fuel st w1 eq_refl Hfuel)).
      rewrite (bind_Done _ _ st _ tt (withCurrent st (Some tl)) _) by done.
      unfold runHooks. rewrite foldl_app. apply Hentry.
  - intros cs Hch Hfuel. apply Hfire.
    rewrite (bind_Done _ _ st w1 true st w1) by done.
    rewrite (bind_Done _ _ _ _ _ _ _ (exitLoop_run _ _ _ Hch fuel st w1 eq_refl Hfuel)).
    rewrite (bind_Done _ _ st _ tt (withCurrent st (Some tl)) _) by done.
    unfold runHooks. rewrite foldl_app. apply Hentry.
Qed.

(** ** Registration and the shape of the store *)

Lemma extends_refl st : extends st st.
Proof. split; eauto. Qed.

Lemma extends_trans st1 st2 st3 : extends st1 st2 -> extends st2 st3 -> extends st1 st3.
Proof.
  intros [Hr1 Hh1] [Hr2 Hh2]. split; [by eauto|].
  intros l c Hl. destruct (Hh1 _ _ Hl) as (c' & Hl' & <-).
  destruct (Hh2 _ _ Hl') as (c'' & Hl'' & <-). eauto.
Qed.

Lemma registerStateConfig_run s st w :
  registerStateConfig s st w =
    match stateToConfig (machine st) !! s with
    | Some l => Done l st w
    | None =>
        Done (length (heap st))
          (mkStore (heap st ++ [NewStateConfig s])
             (mkStateMachine (current (machine st))
                (<[s := length (heap st)]> (stateToConfig (machine st))))) w
    end.
Proof.
  unfold registerStateConfig, bind, getSM.
  by destruct (stateToConfig (machine st) !! s).
Qed.

Lemma consistent_alloc s st :
  consistent st -> stateToConfig (machine st) !! s = None ->
  consistent
    (mkStore (heap st ++ [NewStateConfig s])
       (mkStateMachine (current (machine st))
          (<[s := length (heap st)]> (stateToConfig (machine st))))).
Proof.
  intros [Hreg Hheap Hpar Hedge] Hnone. split; simpl.
  - intros s' l'. rewrite lookup_insert. case_decide as Hs.
    + intros [= <-]. subst s'. exists (NewStateConfig s).
      split; [|done]. by rewrite lookup_app_r, Nat.sub_diag.
    + intros Hl'. destruct (Hreg _ _ Hl') as (c & Hc & <-).
      exists c. split; [|done]. by apply lookup_app_l_Some.
  - intros l c. rewrite lookup_app_Some. intros [Hl|[Hge Hl]].
    + rewrite lookup_insert_ne; [by apply Hheap|].
      intros Hs. apply Hheap in Hl. congruence.
    + apply list_lookup_singleton_Some in Hl as [Hz <-]. simpl.
      rewrite lookup_insert_eq. f_equal. lia.
  - intros l c q. rewrite lookup_app_Some. intros [Hl|[Hge Hl]] Hq.
    + destruct (Hpar _ _ _ Hl Hq) as [c' Hc']. exists c'.
      by apply lookup_app_l_Some.
    + apply list_lookup_singleton_Some in Hl as [Hz <-]. done.
  - intros l c k e. rewrite lookup_app_Some. intros [Hl|[Hge Hl]] Hk.
    + destruct (Hedge _ _ _ _ Hl Hk) as [Hkey [l' Hl']]. split; [done|].
      rewrite lookup_insert. case_decide; eauto.
    + apply list_lookup_singleton_Some in Hl as [Hz <-]. done.
Qed.

Lemma consistent_update st l cfg cfg' :
  consistent st -> heap st !! l = Some cfg ->
  state cfg' = state cfg ->
  (∀ q, parent cfg' = Some q -> is_Some (heap st !! q)) ->
  (∀ k e, permitted cfg' !! k = Some e ->
     Key (edge_trigger e) = k ∧
     is_Some (stateToConfig (machine st) !! edge_state e)) ->
  consistent (mkStore (<[l := cfg']> (heap st)) (machine st)).
Proof.
  intros [Hreg Hheap Hpar Hedge] Hl Hst Hp He.
  assert (Hlt : l < length (heap st)) by (by eapply lookup_lt_Some).
  assert (Hsome : ∀ q, is_Some (heap st !! q) ->
                       is_Some (<[l := cfg']> (heap st) !! q)).
  { intros q Hq. apply lookup_lt_is_Some. rewrite length_insert.
    by apply lookup_lt_is_Some. }
  split; simpl.
  - intros s' l' Hl'. destruct (Hreg _ _ Hl') as (c & Hc & <-).
    destruct (decide (l' = l)) as [->|Hne].
    + exists cfg'. rewrite list_lookup_insert_eq by done. split; [done|].
      congruence.
    + exists c. by rewrite list_lookup_insert_ne.
  - intros l' c. destruct (decide (l' = l)) as [->|Hne].
    + rewrite list_lookup_insert_eq by done. intros [= <-].
      rewrite Hst. by apply Hheap.
    + rewrite list_lookup_insert_ne by done. apply Hheap.
  - intros l' c q. destruct (decide (l' = l)) as [->|Hne].
    + rewrite list_lookup_insert_eq by done. intros [= <-] Hq.
      apply Hsome. by apply Hp.
    + rewrite list_lookup_insert_ne by done. intros Hc Hq.
      apply Hsome. by eapply Hpar.
  - intros l' c k e. destruct (decide (l' = l)) as [->|Hne].
    + rewrite list_lookup_insert_eq by done. intros [= <-]. apply He.
    + rewrite list_lookup_insert_ne by done. apply Hedge.
Qed.

Lemma extends_update st l cfg cfg' :
  heap st !! l = Some cfg -> state cfg' = state cfg ->
  extends st (mkStore (<[l := cfg']> (heap st)) (machine st)).
Proof.
  intros Hl Hst. split; [done|]. simpl. intros l' c Hc.
  assert (Hlt : l < length (heap st)) by (by eapply lookup_lt_Some).
  destruct (decide (l' = l)) as [->|Hne].
  - exists cfg'. rewrite list_lookup_insert_eq by done. split; congruence.
  - exists c. by rewrite list_lookup_insert_ne.
Qed.

(** What [registerStateConfig] guarantees, in one statement. *)
Lemma registerStateConfig_spec s st w :
  ∃ l st', registerStateConfig s st w = Done l st' w ∧
    stateToConfig (machine st') !! s = Some l ∧
    current (machine st') = current (machine st) ∧
    extends st st' ∧
    (∀ l0 cfg, heap st !! l0 = Some cfg -> heap st' !! l0 = Some cfg) ∧
    (consistent st -> consistent st').
Proof.
  rewrite registerStateConfig_run.
  destruct (stateToConfig (machine st) !! s) as [l|] eqn:Hs.
  - exists l, st. split; [done|]. split; [done|]. split; [done|].
    split; [apply extends_refl|]. by split.
  - eexists _, _. split; [done|]. simpl.
    split; [by rewrite lookup_insert_eq|]. split; [done|].
    split; [|split].
    + split; simpl.
      * intros s' l' Hl'. rewrite lookup_insert_ne; [done|congruence].
      * intros l' c Hc. exists c. split; [|done]. by apply lookup_app_l_Some.
    + intros l0 c Hc. by apply lookup_app_l_Some.
    + intros Hcons. by apply consistent_alloc.
Qed.

Lemma wf_register s st w l st' :
  registerStateConfig s st w = Done l st' w -> wf st -> wf st'.
Proof.
  destruct (registerStateConfig_spec s st w)
    as (l0 & st0 & Hrun & _ & Hcur & _ & Hkeep & Hcons).
  rewrite Hrun. intros [= <- <-] [Hc (lc & Hlc & [c Hcc])].
  split; [by apply Hcons|]. exists lc. rewrite Hcur. eauto.
Qed.

Lemma wf_update st l cfg cfg' :
  wf st -> heap st !! l = Some cfg ->
  state cfg' = state cfg ->
  (∀ q, parent cfg' = Some q -> is_Some (heap st !! q)) ->
  (∀ k e, permitted cfg' !! k = Some e ->
     Key (edge_trigger e) = k ∧
     is_Some (stateToConfig (machine st) !! edge_state e)) ->
  wf (mkStore (<[l := cfg']> (heap st)) (machine st)).
Proof.
  intros [Hc (lc & Hlc & Hsome)] Hl Hst Hp He.
  split; [by eapply consistent_update|]. exists lc. split; [done|]. simpl.
  apply lookup_lt_is_Some. rewrite length_insert. by apply lookup_lt_is_Some.
Qed.

(** The setters that keep state, parent and edges keep the store well
    formed. *)
Lemma wf_update_hooks st l cfg cfg' :
  wf st -> heap st !! l = Some cfg ->
  state cfg' = state cfg -> parent cfg' = parent cfg ->
  permitted cfg' = permitted cfg ->
  wf (mkStore (<[l := cfg']> (heap st)) (machine st)).
Proof.
  intros Hwf Hl Hst Hp He. eapply wf_update; eauto.
  - intros q. rewrite Hp. exact (cons_parent _ _ _ (proj1 Hwf) _ _ _ Hl).
  - intros k e. rewrite He. exact (cons_edge _ _ _ (proj1 Hwf) _ _ _ _ Hl).
Qed.

Lemma modifyCfg_run l f st w cfg :
  heap st !! l = Some cfg ->
  modifyCfg l f st w = Done tt (mkStore (<[l := f cfg]> (heap st)) (machine st)) w.
Proof. intros H. unfold modifyCfg. by rewrite H. Qed.

(** ** The configuration calls, as equations *)

Lemma Permit_run c t s st w l st1 cfg :
  registerStateConfig s st w = Done l st1 w ->
  heap st1 !! c = Some cfg ->
  Permit c t s st w =
    Done c (mkStore
              (<[c := set_permitted (<[Key t := mkEdge t s []]> (permitted cfg)) cfg]>
                 (heap st1))
              (machine st1)) w.
Proof.
  intros Hreg Hc. unfold Permit. rewrite (bind_Done _ _ _ _ _ _ _ Hreg).
  by rewrite (bind_Done _ _ _ _ _ _ _ (modifyCfg_run _ _ _ _ _ Hc)).
Qed.

Lemma PermitIf_run c t s p st w l st1 cfg :
  registerStateConfig s st w = Done l st1 w ->
  heap st1 !! c = Some cfg ->
  PermitIf c t s p st w =
    Done c (mkStore
              (<[c := set_permitted
                        (<[Key t := guardedEdge (permitted cfg !! Key t) t s p]>
                           (permitted cfg)) cfg]>
                 (heap st1))
              (machine st1)) w.
Proof.
  intros Hreg Hc. unfold PermitIf. rewrite (bind_Done _ _ _ _ _ _ _ Hreg).
  rewrite (bind_Done _ _ _ _ _ _ _ (deref_Some _ _ _ _ Hc)).
  assert (Hlt : c < length (heap st1)) by (by eapply lookup_lt_Some).
  destruct (permitted cfg !! Key t) as [val|] eqn:Hval; simpl guardedEdge.
  - rewrite (bind_Done _ _ st1 w val st1 w) by done.
    by rewrite (bind_Done _ _ _ _ _ _ _ (modifyCfg_run _ _ _ _ _ Hc)).
  - erewrite (bind_Done _ _ st1 w (mkEdge t s []));
      [|by rewrite (bind_Done _ _ _ _ _ _ _ (modifyCfg_run _ _ _ _ _ Hc))].
    erewrite bind_Done;
      [|apply modifyCfg_run; simpl; by apply list_lookup_insert_eq].
    unfold ret. f_equal. simpl. f_equal.
    rewrite list_insert_insert_eq. f_equal. unfold set_permitted. simpl.
    f_equal. by rewrite insert_insert_eq.
Qed.

Lemma SubstateOf_run c s st w l st1 cfg :
  registerStateConfig s st w = Done l st1 w ->
  heap st1 !! c = Some cfg ->
  SubstateOf c s st w =
    Done c (mkStore (<[c := set_parent (Some l) cfg]> (heap st1)) (machine st1)) w.
Proof.
  intros Hreg Hc. unfold SubstateOf. rewrite (bind_Done _ _ _ _ _ _ _ Hreg).
  by rewrite (bind_Done _ _ _ _ _ _ _ (modifyCfg_run _ _ _ _ _ Hc)).
Qed.

(** ** What a returning [Fire] can have done to the store *)

Lemma exitLoop_frame fuel p st w st' w' :
  exitLoop fuel p st w = Done tt st' w' -> st' = st.
Proof.
  revert p w; induction fuel as [|fuel IH]; intros [l|] w; simpl;
    try done; try by intros [= <- _].
  unfold bind, deref. destruct (heap st !! l) as [c|]; [|done].
  destruct (onExit c); unfold callHook, ret; apply IH.
Qed.

Lemma Fire_inv fuel triggerKey ctx st w r st' w' :
  Fire fuel triggerKey ctx st w = Done r st' w' ->
  (r = errUnsupported ∧ st' = st ∧ CanFire triggerKey st w = Done false st w') ∨
  (r = None ∧ ∃ l cur e tl target w1,
      current (machine st) = Some l ∧ heap st !! l = Some cur ∧
      permitted cur !! triggerKey = Some e ∧
      stateToConfig (machine st) !! edge_state e = Some tl ∧
      heap st !! tl = Some target ∧
      CanFire triggerKey st w = Done true st w1 ∧
      st' = withCurrent st (Some tl)).
Proof.
  unfold Fire. unfold bind at 1.
  destruct (CanFire triggerKey st w) as [ok st0 w0| |] eqn:Hcan; try done.
  pose proof (CanFire_frame _ _ _ _ _ _ Hcan) as ->.
  destruct ok; [change (negb true) with false|change (negb false) with true]; cbv iota.
  2: { intros [= <- <- <-]. left. by repeat split. }
  intros Hrun. right.
  unfold bind at 1, getSM at 1 in Hrun.
  unfold bind at 1, deref at 1 in Hrun.
  destruct (current (machine st)) as [l|] eqn:Hc; cbv beta iota in Hrun; [|done].
  destruct (heap st !! l) as [cur|] eqn:Hl; cbv beta iota in Hrun; [|done].
  unfold bind at 1, derefEdge in Hrun.
  destruct (permitted cur !! triggerKey) as [e|] eqn:He; cbv beta iota in Hrun; [|done].
  unfold ret at 1 in Hrun.
  unfold bind at 1, deref at 1 in Hrun.
  destruct (stateToConfig (machine st) !! edge_state e) as [tl|] eqn:Htl; cbv beta iota in Hrun; [|done].
  destruct (heap st !! tl) as [target|] eqn:Ht; cbv beta iota in Hrun; [|done].
  assert (Htail : ∀ walk : bool,
    ((if walk then exitLoop fuel (Some l) else ret tt);;
     setCurrent (Some tl);;
     let* sm := getSM in
     let* cur := deref (current sm) in
     match onEnterFrom cur !! edge_trigger e with
     | Some enterFrom => callHook (enterFrom ctx)
     | None => ret tt
     end;;
     match onEnter cur with
     | Some f => callHook f
     | None => ret tt
     end;;
     ret None) st w0 = Done r st' w' ->
    r = None ∧ st' = withCurrent st (Some tl)).
  { clear Hrun. intros walk Hrun. unfold bind at 1 in Hrun.
    destruct ((if walk then exitLoop fuel (Some l) else ret tt) st w0)
      as [[] st2 w2| |] eqn:Hexit; try done.
    assert (st2 = st) as ->.
    { destruct walk; [by eapply exitLoop_frame|by injection Hexit]. }
    unfold bind at 1, setCurrent at 1 in Hrun.
    unfold bind, getSM, deref in Hrun. simpl in Hrun. rewrite Ht in Hrun.
    unfold callHook, ret in Hrun.
    destruct (onEnterFrom target !! edge_trigger e), (onEnter target);
      by injection Hrun as <- <- _. }
  assert (r = None ∧ st' = withCurrent st (Some tl)) as [-> ->].
  { cbv zeta in Hrun. unfold bind at 1 in Hrun.
    destruct (parent target) as [q|] eqn:Hq.
    - unfold bind at 1, deref at 1 in Hrun.
      destruct (heap st !! q) as [tp|]; cbv beta iota in Hrun; [|done].
      by apply (Htail (bool_decide (state tp ≠ state cur))).
    - by apply (Htail true). }
  split; [done|]. exists l, cur, e, tl, target, w0. by repeat split.
Qed.

(** ** Every call keeps the store well formed and loses nothing *)

Lemma void_inv {A} (m : M W Ctx A) st w st' w' :
  void m st w = Done tt st' w' -> ∃ a, m st w = Done a st' w'.
Proof.
  unfold void, bind, ret. destruct (m st w) as [a st1 w1| |]; [|done..].
  intros [= <- <-]. eauto.
Qed.

Lemma setter_inv c f (r : loc) st w a st' w' :
  (modifyCfg c f;; ret r) st w = Done a st' w' ->
  ∃ cfg, heap st !! c = Some cfg ∧ a = r ∧ w' = w ∧
    st' = mkStore (<[c := f cfg]> (heap st)) (machine st).
Proof.
  unfold bind, ret, modifyCfg. destruct (heap st !! c) as [cfg|]; [|done].
  intros [= <- <- <-]. eauto.
Qed.

Lemma registered_setter_inv s c (f : loc -> StateConfig W Ctx -> StateConfig W Ctx)
    st w a st' w' :
  (let* l := registerStateConfig s in modifyCfg c (f l);; ret c) st w
    = Done a st' w' ->
  ∃ l st1 cfg, registerStateConfig s st w = Done l st1 w ∧
    heap st1 !! c = Some cfg ∧ a = c ∧ w' = w ∧
    st' = mkStore (<[c := f l cfg]> (heap st1)) (machine st1).
Proof.
  destruct (registerStateConfig_spec s st w) as (l & st1 & Hreg & _).
  rewrite (bind_Done _ _ _ _ _ _ _ Hreg). intros H.
  apply setter_inv in H as (cfg & Hc & -> & -> & ->).
  by exists l, st1, cfg.
Qed.

Lemma PermitIf_inv c t s p st w a st' w' :
  PermitIf c t s p st w = Done a st' w' ->
  ∃ l st1 cfg, registerStateConfig s st w = Done l st1 w ∧
    heap st1 !! c = Some cfg ∧ a = c ∧ w' = w ∧
    st' = mkStore
            (<[c := set_permitted
                      (<[Key t := guardedEdge (permitted cfg !! Key t) t s p]>
                         (permitted cfg)) cfg]> (heap st1)) (machine st1).
Proof.
  destruct (registerStateConfig_spec s st w) as (l & st1 & Hreg & _).
  destruct (heap st1 !! c) as [cfg|] eqn:Hc.
  - rewrite (PermitIf_run _ _ _ _ _ _ _ _ _ Hreg Hc). intros [= <- <- <-].
    by exists l, st1, cfg.
  - unfold PermitIf. rewrite (bind_Done _ _ _ _ _ _ _ Hreg).
    unfold bind, deref. by rewrite Hc.
Qed.

Lemma exec_preserves o st w st' w' :
  wf st -> exec o st w = Done tt st' w' -> wf st' ∧ extends st st'.
Proof.
  intros Hwf Hexec.
  destruct o as [s|c t s|c t s p|c f|c t f|c f|c s|fuel k ctx|k|fuel s|];
    simpl in Hexec; apply void_inv in Hexec as [a Hrun].
  - (* Configure *)
    unfold Configure in Hrun.
    destruct (registerStateConfig_spec s st w) as (l & st1 & Hreg & _ & _ & Hext & _).
    rewrite Hreg in Hrun. injection Hrun as <- <- <-.
    split; [by eapply wf_register|done].
  - (* Permit *)
    apply (registered_setter_inv s c (fun _ cfg =>
             set_permitted (<[Key t := mkEdge t s []]> (permitted cfg)) cfg))
      in Hrun as (l & st1 & cfg & Hreg & Hc & -> & -> & ->).
    destruct (registerStateConfig_spec s st w)
      as (l' & st1' & Hreg' & Hs & _ & Hext & _).
    rewrite Hreg in Hreg'. injection Hreg' as <- <-.
    pose proof (wf_register _ _ _ _ _ Hreg Hwf) as Hwf1. split.
    + eapply wf_update; eauto.
      * intros q Hq. exact (cons_parent _ _ _ (proj1 Hwf1) _ _ _ Hc Hq).
      * intros k e. simpl. rewrite lookup_insert. case_decide as Hk.
        -- intros [= <-]. simpl. split; [done|]. by eexists.
        -- intros He. exact (cons_edge _ _ _ (proj1 Hwf1) _ _ _ _ Hc He).
    + eapply extends_trans; [done|]. by eapply extends_update.
  - (* PermitIf *)
    apply PermitIf_inv in Hrun as (l & st1 & cfg & Hreg & Hc & -> & -> & ->).
    destruct (registerStateConfig_spec s st w)
      as (l' & st1' & Hreg' & Hs & _ & Hext & _).
    rewrite Hreg in Hreg'. injection Hreg' as <- <-.
    pose proof (wf_register _ _ _ _ _ Hreg Hwf) as Hwf1. split.
    + eapply wf_update; eauto.
      * intros q Hq. exact (cons_parent _ _ _ (proj1 Hwf1) _ _ _ Hc Hq).
      * intros k e. simpl. rewrite lookup_insert. case_decide as Hk.
        -- intros [= <-]. destruct (permitted cfg !! Key t) as [val|] eqn:Hval.
           ++ subst k. simpl. exact (cons_edge _ _ _ (proj1 Hwf1) _ _ _ _ Hc Hval).
           ++ simpl. split; [done|]. by eexists.
        -- intros He. exact (cons_edge _ _ _ (proj1 Hwf1) _ _ _ _ Hc He).
    + eapply extends_trans; [done|]. by eapply extends_update.
  - (* OnEnter *)
    apply setter_inv in Hrun as (cfg & Hc & -> & -> & ->).
    split; [by eapply wf_update_hooks|by eapply extends_update].
  - (* OnEnterFrom *)
    apply setter_inv in Hrun as (cfg & Hc & -> & -> & ->).
    split; [by eapply wf_update_hooks|by eapply extends_update].
  - (* OnExit *)
    apply setter_inv in Hrun as (cfg & Hc & -> & -> & ->).
    split; [by eapply wf_update_hooks|by eapply extends_update].
  - (* SubstateOf *)
    apply (registered_setter_inv s c (fun l cfg => set_parent (Some l) cfg))
      in Hrun as (l & st1 & cfg & Hreg & Hc & -> & -> & ->).
    destruct (registerStateConfig_spec s st w)
      as (l' & st1' & Hreg' & Hs & _ & Hext & _).
    rewrite Hreg in Hreg'. injection Hreg' as <- <-.
    pose proof (wf_register _ _ _ _ _ Hreg Hwf) as Hwf1. split.
    + eapply wf_update; eauto.
      * simpl. intros q [= <-].
        destruct (cons_registry _ _ _ (proj1 Hwf1) _ _ Hs) as (c' & Hc' & _).
        by eexists.
      * intros k e He. exact (cons_edge _ _ _ (proj1 Hwf1) _ _ _ _ Hc He).
    + eapply extends_trans; [done|]. by eapply extends_update.
  - (* Fire *)
    apply Fire_inv in Hrun
      as [(_ & -> & _)|(_ & l & cur & e & tl & target & w1 & _ & _ & _ & _ & Ht & _ & ->)].
    + split; [done|apply extends_refl].
    + split; [|by split; eauto].
      destruct Hwf as [[Hreg Hheap Hpar Hedge] _].
      split; [by split|]. exists tl. simpl. eauto.
  - (* CanFire *)
    apply CanFire_frame in Hrun as ->. split; [done|apply extends_refl].
  - (* IsInState *)
    unfold IsInState, bind, getSM in Hrun.
    apply isInLoop_frame in Hrun as [-> _]. split; [done|apply extends_refl].
  - (* State *)
    unfold SM_State, bind, getSM, deref, ret in Hrun.
    destruct (current (machine st)) as [l|]; [|done].
    destruct (heap st !! l); [|done].
    injection Hrun as _ <- _. split; [done|apply extends_refl].
Qed.

Lemma NewStateMachine_run initial w :
  NewStateMachine (Ctx:=Ctx) initial emptyStore w =
    Done tt (mkStore [NewStateConfig initial]
               (mkStateMachine (Some 0) {[initial := 0]})) w.
Proof. reflexivity. Qed.

Lemma NewStateMachine_wf initial :
  wf (mkStore (W:=W) (Ctx:=Ctx) [NewStateConfig initial]
        (mkStateMachine (Some 0) {[initial := 0]})).
Proof.
  split; [|by exists 0; simpl; eauto]. split; simpl.
  - intros s l [<- <-]%lookup_singleton_Some. by eexists.
  - intros l c [-> <-]%list_lookup_singleton_Some. simpl.
    by rewrite lookup_singleton_eq.
  - by intros l c q [-> <-]%list_lookup_singleton_Some.
  - by intros l c k e [-> <-]%list_lookup_singleton_Some.
Qed.

Lemma reachable_wf initial st : reachable initial st -> wf st.
Proof.
  induction 1 as [st w w' Hnew|o st w st' w' _ IH Hexec].
  - rewrite NewStateMachine_run in Hnew. injection Hnew as <- _.
    apply NewStateMachine_wf.
  - by eapply exec_preserves.
Qed.


Lemma reachable_runOps initial os :
  ∀ st w st' w', reachable initial st ->
    runOps os st w = Done tt st' w' -> reachable initial st'.
Proof.
  induction os as [|o os IH]; intros st w st' w' Hreach; simpl.
  - by intros [= <- _].
  - unfold bind. destruct (exec o st w) as [[] st1 w1| |] eqn:Hexec; [|done..].
    intros Hrest. eapply IH; [|done]. by eapply reach_step.
Qed.

(** Every store produced by [NewStateMachine] followed by calls that
    return is well formed. *)
Lemma runOps_wf initial os w st' w' :
  (NewStateMachine (Ctx:=Ctx) initial;; runOps os) emptyStore w = Done tt st' w' ->
  wf st'.
Proof.
  rewrite (bind_Done _ _ _ _ _ _ _ (NewStateMachine_run initial w)).
  intros Hrun. apply (reachable_wf initial).
  eapply reachable_runOps; [|done].
  apply (reach_new _ _ initial _ w w). apply NewStateMachine_run.
Qed.

(** A record's parent names a record of the same state only if it is the
    record itself. *)
Lemma same_state_same_loc st l1 l2 c1 c2 :
  consistent st -> heap st !! l1 = Some c1 -> heap st !! l2 = Some c2 ->
  state c1 = state c2 -> l1 = l2.
Proof.
  intros Hcons H1 H2 Hs.
  pose proof (cons_heap _ _ _ Hcons _ _ H1) as R1.
  pose proof (cons_heap _ _ _ Hcons _ _ H2) as R2.
  rewrite Hs in R1. congruence.
Qed.

Lemma chain_length_cons h l c cs :
  h !! l = Some c -> parent c = Some l -> chain h (Some l) cs -> False.
Proof.
  intros Hl Hp Hch. inversion Hch as [|l' c' cs' Hl' Hch' E1]; subst.
  rewrite Hl in Hl'. injection Hl' as <-. rewrite Hp in Hch'.
  pose proof (chain_unique _ _ _ _ Hch Hch') as E.
  apply (f_equal length) in E. simpl in E. lia.
Qed.

Lemma withCurrent_id st l : current (machine st) = Some l -> withCurrent st (Some l) = st.
Proof. destruct st as [h [c r]]. simpl. by intros ->. Qed.

(** A permitted [Fire] on a well-formed store. *)
Lemma Fire_wf_run fuel triggerKey ctx st w w1 l cur e :
  wf st -> current (machine st) = Some l -> heap st !! l = Some cur ->
  permitted cur !! triggerKey = Some e ->
  CanFire triggerKey st w = Done true st w1 ->
  ∃ tl target,
    stateToConfig (machine st) !! edge_state e = Some tl ∧
    heap st !! tl = Some target ∧ state target = edge_state e ∧
    edge_trigger e = mkTrigger triggerKey ∧
    (directSubstate (heap st) target cur = true ->
       Fire fuel triggerKey ctx st w =
         Done None (withCurrent st (Some tl))
           (runHooks (entryHooks target (mkTrigger triggerKey) ctx) w1)) ∧
    (directSubstate (heap st) target cur = false ->
       ∀ cs, chain (heap st) (Some l) cs -> length cs ≤ fuel ->
         Fire fuel triggerKey ctx st w =
           Done None (withCurrent st (Some tl))
             (runHooks (exitHooks cs ++ entryHooks target (mkTrigger triggerKey) ctx) w1)).
Proof.
  intros [Hcons _] Hc Hl He Hcan.
  destruct (cons_edge _ _ _ Hcons _ _ _ _ Hl He) as [Hkey [tl Htl]].
  destruct (cons_registry _ _ _ Hcons _ _ Htl) as (target & Ht & Hst).
  assert (Htrig : edge_trigger e = mkTrigger triggerKey).
  { destruct (edge_trigger e) as [k]. simpl in Hkey. by rewrite Hkey. }
  exists tl, target. do 4 (split; [done|]).
  pose proof (Fire_run fuel triggerKey ctx st w w1 l cur e tl target
                Hc Hl He Htl Ht Hcan) as Hrun.
  rewrite Htrig in Hrun. unfold directSubstate.
  destruct (parent target) as [q|] eqn:Hq.
  - destruct (cons_parent _ _ _ Hcons _ _ _ Ht Hq) as [tp Htp].
    rewrite Htp. specialize (Hrun tp Htp).
    destruct (bool_decide (state tp = state cur)); split; by try done.
  - split; [done|]. intros _. apply Hrun.
Qed.


(** A parent pointer that leads back to the record itself keeps both
    loops running for ever. *)
Lemma isInLoop_self st l cfg s :
  heap st !! l = Some cfg -> parent cfg = Some l -> state cfg ≠ s ->
  ∀ fuel w, isInLoop fuel s (Some l) st w = Diverge.
Proof.
  intros Hl Hp Hs fuel; induction fuel as [|fuel IH]; intros w; [done|].
  simpl. unfold bind, deref. rewrite Hl.
  rewrite bool_decide_eq_false_2 by done. rewrite Hp. apply IH.
Qed.

Lemma exitLoop_self st l cfg :
  heap st !! l = Some cfg -> parent cfg = Some l ->
  ∀ fuel w, exitLoop fuel (Some l) st w = Diverge.
Proof.
  intros Hl Hp fuel; induction fuel as [|fuel IH]; intros w; [done|].
  simpl. unfold bind, deref. rewrite Hl.
  destruct (onExit cfg); unfold callHook, ret; rewrite Hp; apply IH.
Qed.

(** A permitted [Fire] whose walk does not end does not return. *)
Lemma Fire_diverge fuel triggerKey ctx st w w1 l cur e tl target :
  current (machine st) = Some l -> heap st !! l = Some cur ->
  permitted cur !! triggerKey = Some e ->
  stateToConfig (machine st) !! edge_state e = Some tl ->
  heap st !! tl = Some target -> parent target = None ->
  CanFire triggerKey st w = Done true st w1 ->
  exitLoop fuel (Some l) st w1 = Diverge ->
  Fire fuel triggerKey ctx st w = Diverge.
Proof.
  intros Hc Hl He Htl Ht Hp Hcan Hloop.
  unfold Fire. rewrite (bind_Done _ _ _ _ _ _ _ Hcan).
  change (negb true) with false. cbv iota.
  rewrite (bind_Done _ _ st w1 (machine st) st w1) by done.
  rewrite Hc, (bind_Done _ _ _ _ _ _ _ (deref_Some _ _ _ _ Hl)).
  rewrite He. rewrite (bind_Done _ _ st w1 e st w1) by done.
  rewrite Htl, (bind_Done _ _ _ _ _ _ _ (deref_Some _ _ _ _ Ht)).
  cbv zeta. rewrite Hp.
  rewrite (bind_Done _ _ st w1 true st w1) by done.
  unfold bind at 1. by rewrite Hloop.
Qed.

(** The store [selfParent] builds. *)
Lemma selfParent_run s t s' w :
  s' ≠ s ->
  selfParent (Ctx:=Ctx) s t s' emptyStore w =
    Done tt
      (mkStore
         [mkStateConfig None ∅ None s (Some 0) {[Key t := mkEdge t s' []]};
          NewStateConfig s']
         (mkStateMachine (Some 0) (<[s' := 1]> {[s := 0]}))) w.
Proof.
  intros Hne. unfold selfParent.
  rewrite (bind_Done _ _ _ _ _ _ _ (NewStateMachine_run s w)).
  unfold Configure.
  erewrite bind_Done;
    [|rewrite registerStateConfig_run; simpl; by rewrite lookup_singleton_eq].
  erewrite bind_Done;
    [|eapply SubstateOf_run;
      [rewrite registerStateConfig_run; simpl; by rewrite lookup_singleton_eq
      |reflexivity]].
  erewrite bind_Done;
    [|eapply Permit_run;
      [rewrite registerStateConfig_run; simpl;
       by rewrite lookup_singleton_ne by done
      |reflexivity]].
  unfold ret. f_equal.
Qed.


Lemma runOps_preserves os :
  ∀ st w st' w', wf st -> runOps os st w = Done tt st' w' ->
    wf st' ∧ extends st st'.
Proof.
  induction os as [|o os IH]; intros st w st' w' Hwf; simpl.
  - intros [= <- _]. split; [done|apply extends_refl].
  - unfold bind. destruct (exec o st w) as [[] st1 w1| |] eqn:Hexec; [|done..].
    intros Hrest. destruct (exec_preserves _ _ _ _ _ Hwf Hexec) as [Hwf1 Hext1].
    destruct (IH _ _ _ _ Hwf1 Hrest) as [Hwf' Hext']. split; [done|].
    by eapply extends_trans.
Qed.

(** Registering [s] and then storing [new] through the handle [c]. *)
Lemma register_then_store s c st w cfg new :
  heap st !! c = Some cfg ->
  ∃ l st1, registerStateConfig s st w = Done l st1 w ∧
    heap st1 !! c = Some cfg ∧
    stateToConfig (machine st1) !! s = Some l ∧
    (∀ l0, stateToConfig (machine st) !! s = Some l0 ->
       l = l0 ∧ length (<[c := new]> (heap st1)) = length (heap st)) ∧
    (stateToConfig (machine st) !! s = None ->
       l = length (heap st) ∧
       <[c := new]> (heap st1) !! l = Some (NewStateConfig s)) ∧
    <[c := new]> (heap st1) !! c = Some new.
Proof.
  intros Hc. assert (Hlt : c < length (heap st)) by (by eapply lookup_lt_Some).
  rewrite registerStateConfig_run.
  destruct (stateToConfig (machine st) !! s) as [l0|] eqn:Hs.
  - exists l0, st. split; [done|]. split; [done|]. split; [done|].
    split; [|split; [done|]].
    + intros l1 [= <-]. by rewrite length_insert.
    + by apply list_lookup_insert_eq.
  - eexists _, _. split; [done|]. simpl.
    split; [by apply lookup_app_l_Some|].
    split; [by rewrite lookup_insert_eq|]. split; [done|]. split.
    + intros _. split; [done|].
      rewrite list_lookup_insert_ne by lia.
      by rewrite lookup_app_r, Nat.sub_diag.
    + apply list_lookup_insert_eq. rewrite length_app. simpl. lia.
Qed.


(** The two ways [CanFire] answers false: the key is not registered, or
    every guard of its edge was called and answered false. *)
Lemma CanFire_denied triggerKey st w l cur :
  current (machine st) = Some l -> heap st !! l = Some cur ->
  (permitted cur !! triggerKey = None ->
     CanFire triggerKey st w = Done false st w) ∧
  (∀ next w', permitted cur !! triggerKey = Some next ->
     edge_preds next ≠ [] ->
     evalSeq (edge_preds next) w
       = (replicate (length (edge_preds next)) false, w') ->
     CanFire triggerKey st w = Done false st w').
Proof.
  intros Hc Hl. rewrite (CanFire_unfold _ _ _ _ _ Hc Hl). split.
  - by intros ->.
  - intros next w' -> Hne Hev.
    rewrite bool_decide_eq_true_2
      by (destruct (edge_preds next); [done|simpl; lia]).
    destruct (predLoop_run (edge_preds next) false st w)
      as (b & w1 & -> & [(-> & i & Hi & Hevi)|(-> & Hev1)]).
    + exfalso.
      assert (Ht : fst (evalSeq (take (S i) (edge_preds next)) w) !! i = Some true).
      { rewrite Hevi. simpl. rewrite lookup_app_r; rewrite length_replicate; [|lia].
        by rewrite Nat.sub_diag. }
      rewrite evalSeq_take in Ht. apply lookup_take_Some in Ht as [Ht _].
      rewrite Hev in Ht. simpl in Ht.
      by apply lookup_replicate in Ht as [? _].
    + rewrite Hev in Hev1. injection Hev1 as <-.
      by destruct (edge_preds next).
Qed.

(** * The claims *)

(** C3.  [CanFire] answers false when the key is not in the current
    record's [permitted] map and true when the edge has no guard.
    Otherwise the guards are called in registration order and the call
    stops at the first one that answers true: the answer is true exactly
    when some guard answers true, and then the world is the one left by
    that guard (the later guards were not called); the answer is false
    when all guards were called and all answered false. *)
Theorem CanFire_spec triggerKey st w l cur :
  current (machine st) = Some l -> heap st !! l = Some cur ->
  match permitted cur !! triggerKey with
  | None => CanFire triggerKey st w = Done false st w
  | Some next =>
      (edge_preds next = [] -> CanFire triggerKey st w = Done true st w) ∧
      (edge_preds next ≠ [] ->
         ((∃ i w', i < length (edge_preds next) ∧
             evalSeq (take (S i) (edge_preds next)) w
               = (replicate i false ++ [true], w') ∧
             CanFire triggerKey st w = Done true st w')
          ∨ (∃ w', evalSeq (edge_preds next) w
                     = (replicate (length (edge_preds next)) false, w') ∧
               CanFire triggerKey st w = Done false st w')) ∧
         (∀ b st' w', CanFire triggerKey st w = Done b st' w' ->
            b = true ↔ true ∈ fst (evalSeq (edge_preds next) w)))
  end.
Proof.
  intros Hc Hl. rewrite (CanFire_unfold _ _ _ _ _ Hc Hl).
  destruct (permitted cur !! triggerKey) as [next|]; [|done].
  split.
  - intros ->. by rewrite bool_decide_eq_false_2 by (simpl; lia).
  - intros Hne.
    rewrite bool_decide_eq_true_2
      by (destruct (edge_preds next); [done|simpl; lia]).
    destruct (predLoop_run (edge_preds next) false st w)
      as (b & w' & -> & Hcase).
    assert (Hb : b = true ↔ true ∈ fst (evalSeq (edge_preds next) w)).
    { destruct Hcase as [(-> & i & Hi & Hev)|(-> & Hev)].
      - split; [intros _|done].
        assert (Ht : fst (evalSeq (take (S i) (edge_preds next)) w) !! i = Some true).
        { rewrite Hev. simpl. rewrite lookup_app_r; rewrite length_replicate; [|lia].
          by rewrite Nat.sub_diag. }
        rewrite evalSeq_take in Ht. apply lookup_take_Some in Ht as [Ht _].
        by eapply list_elem_of_lookup_2.
      - rewrite Hev. simpl.
        destruct (edge_preds next) as [|p ps] eqn:Hps; [done|].
        split; [done|]. by intros [? _]%elem_of_replicate. }
    split.
    + destruct Hcase as [(-> & i & Hi & Hev)|(-> & Hev)].
      * left. by exists i, w'.
      * right. exists w'. split; [done|].
        by destruct (edge_preds next).
    + intros b' st' w'' Hdone.
      assert (b' = b) as -> by (destruct b; by injection Hdone). done.
Qed.

(** C10.  [CanFire], [IsInState] and [State] write nothing to the
    machine: whenever one of them returns, the store (current pointer,
    registry and every record) is the one it was called on, and the last
    two leave the caller's world alone as well.  On a store with a current
    record [CanFire] and [State] do return, and [IsInState] returns when
    the parent chain of the current record ends. *)
Theorem queries_leave_store st w :
  (∀ triggerKey b st' w',
     CanFire triggerKey st w = Done b st' w' -> st' = st) ∧
  (∀ fuel s b st' w',
     IsInState fuel s st w = Done b st' w' -> st' = st ∧ w' = w) ∧
  (∀ s st' w', SM_State st w = Done s st' w' -> st' = st ∧ w' = w) ∧
  (∀ l cur, current (machine st) = Some l -> heap st !! l = Some cur ->
     (∀ triggerKey, ∃ b w', CanFire triggerKey st w = Done b st w') ∧
     SM_State st w = Done (state cur) st w ∧
     (∀ cs fuel s, chain (heap st) (Some l) cs -> length cs ≤ fuel ->
        ∃ b, IsInState fuel s st w = Done b st w)).
Proof.
  split; [|split; [|split]].
  - intros k b st' w'. apply CanFire_frame.
  - intros fuel s b st' w'. unfold IsInState, bind, getSM. apply isInLoop_frame.
  - intros s st' w'. unfold SM_State, bind, getSM, deref, ret.
    destruct (current (machine st)) as [l|]; [|done].
    destruct (heap st !! l); [|done]. by intros [= _ <- <-].
  - intros l cur Hc Hl. split; [|split].
    + intros k. by eapply CanFire_total.
    + unfold SM_State, bind, getSM, deref, ret. by rewrite Hc, Hl.
    + intros cs fuel s Hch Hfuel. eexists.
      unfold IsInState, bind, getSM. rewrite Hc.
      by apply (isInLoop_chain _ _ _ Hch).
Qed.

(** C2.  [Fire] returns an error exactly when [CanFire] answers false on
    the same store and world; the error is the one value
    ["unsupported trigger"], whether the key is not registered or every
    guard of its edge answered false; the store is then unchanged, and the
    world is the one [CanFire] left, so no hook was called. *)
Theorem Fire_fails_iff_not_CanFire fuel triggerKey ctx st w :
  (∀ st' w',
     CanFire triggerKey st w = Done false st' w' ↔
     ∃ msg, Fire fuel triggerKey ctx st w = Done (Some msg) st' w') ∧
  (∀ msg st' w',
     Fire fuel triggerKey ctx st w = Done (Some msg) st' w' ->
     Some msg = errUnsupported ∧ st' = st) ∧
  (∀ l cur, current (machine st) = Some l -> heap st !! l = Some cur ->
     (permitted cur !! triggerKey = None ->
        Fire fuel triggerKey ctx st w = Done errUnsupported st w) ∧
     (∀ next w', permitted cur !! triggerKey = Some next ->
        edge_preds next ≠ [] ->
        evalSeq (edge_preds next) w
          = (replicate (length (edge_preds next)) false, w') ->
        Fire fuel triggerKey ctx st w = Done errUnsupported st w')).
Proof.
  split; [|split].
  - intros st' w'. split.
    + intros Hcan. eexists. by apply Fire_denied.
    + intros [msg Hfire].
      apply Fire_inv in Hfire as [(_ & -> & Hcan)|(Hr & _)]; [done|discriminate].
  - intros msg st' w' Hfire.
    apply Fire_inv in Hfire as [(-> & -> & _)|(Hr & _)]; [done|discriminate].
  - intros l cur Hc Hl.
    destruct (CanFire_denied triggerKey st w l cur Hc Hl) as [Hnone Hfalse].
    split.
    + intros Hk. apply Fire_denied. by apply Hnone.
    + intros next w' Hnext Hne Hev. apply Fire_denied. by eapply Hfalse.
Qed.


(** C1.  On a permitted [Fire] from the record [cur] into [target]: when
    [target] has no parent, or its parent's state differs from [cur]'s,
    the exit hooks of [cur] and of all its ancestors are called, child
    first, before the entry hooks; when the parent of [target] has
    [cur]'s state, no exit hook is called; and a [target] whose
    grandparent, but not parent, has [cur]'s state gets the full walk. *)
Theorem Fire_exit_walk fuel triggerKey ctx st w w1 l cur e tl target :
  current (machine st) = Some l -> heap st !! l = Some cur ->
  permitted cur !! triggerKey = Some e ->
  stateToConfig (machine st) !! edge_state e = Some tl ->
  heap st !! tl = Some target ->
  CanFire triggerKey st w = Done true st w1 ->
  ((parent target = None ∨
    ∃ p tp, parent target = Some p ∧ heap st !! p = Some tp ∧
            state tp ≠ state cur) ->
   ∀ cs, chain (heap st) (Some l) cs -> length cs ≤ fuel ->
     (∃ cs', cs = cur :: cs') ∧
     Fire fuel triggerKey ctx st w =
       Done None (withCurrent st (Some tl))
         (runHooks (exitHooks cs ++ entryHooks target (edge_trigger e) ctx) w1)) ∧
  ((∃ p tp, parent target = Some p ∧ heap st !! p = Some tp ∧
            state tp = state cur) ->
   Fire fuel triggerKey ctx st w =
     Done None (withCurrent st (Some tl))
       (runHooks (entryHooks target (edge_trigger e) ctx) w1)) ∧
  (∀ p tp g tg,
     parent target = Some p -> heap st !! p = Some tp ->
     state tp ≠ state cur ->
     parent tp = Some g -> heap st !! g = Some tg -> state tg = state cur ->
     ∀ cs, chain (heap st) (Some l) cs -> length cs ≤ fuel ->
       Fire fuel triggerKey ctx st w =
         Done None (withCurrent st (Some tl))
           (runHooks (exitHooks cs ++ entryHooks target (edge_trigger e) ctx) w1)).
Proof.
  intros Hc Hl He Htl Ht Hcan.
  pose proof (Fire_run fuel triggerKey ctx st w w1 l cur e tl target
                Hc Hl He Htl Ht Hcan) as Hrun.
  assert (Hwalk : ∀ p tp, parent target = Some p -> heap st !! p = Some tp ->
            state tp ≠ state cur ->
            ∀ cs, chain (heap st) (Some l) cs -> length cs ≤ fuel ->
              Fire fuel triggerKey ctx st w =
                Done None (withCurrent st (Some tl))
                  (runHooks (exitHooks cs ++ entryHooks target (edge_trigger e) ctx) w1)).
  { intros p tp Hp Htp Hne. rewrite Hp in Hrun. specialize (Hrun tp Htp).
    by rewrite bool_decide_eq_false_2 in Hrun. }
  split; [|split].
  - intros Hcase cs Hch Hfuel. split.
    + inversion Hch as [|l' c' cs' Hl' _]; subst.
      rewrite Hl in Hl'. injection Hl' as <-. by eexists.
    + destruct Hcase as [Hnone|(p & tp & Hp & Htp & Hne)].
      * rewrite Hnone in Hrun. by apply Hrun.
      * by eapply Hwalk.
  - intros (p & tp & Hp & Htp & Heq). rewrite Hp in Hrun.
    specialize (Hrun tp Htp). by rewrite bool_decide_eq_true_2 in Hrun.
  - intros p tp g tg Hp Htp Hne _ _ _. by eapply Hwalk.
Qed.

(** A permitted trigger whose target is the current state itself, on a
    well-formed store whose parent chain from the current record ends:
    [Fire] runs the whole exit walk, starting with the current record's
    own exit hook, and then the entry hooks of that same record, ending
    with its enter hook; the current record stays current. *)
Lemma Fire_reentrant fuel triggerKey ctx st w w1 l cur e cs :
  wf st -> current (machine st) = Some l -> heap st !! l = Some cur ->
  permitted cur !! triggerKey = Some e -> edge_state e = state cur ->
  CanFire triggerKey st w = Done true st w1 ->
  chain (heap st) (Some l) cs -> length cs ≤ fuel ->
  Fire fuel triggerKey ctx st w =
    Done None st
      (runHooks (exitHooks cs ++ entryHooks cur (mkTrigger triggerKey) ctx) w1) ∧
  (∀ fx fe, onExit cur = Some fx -> onEnter cur = Some fe ->
     ∃ mid, exitHooks cs ++ entryHooks cur (mkTrigger triggerKey) ctx
              = fx :: mid ++ [fe]).
Proof.
  intros Hwf Hc Hl He Hself Hcan Hch Hfuel.
  destruct (Fire_wf_run fuel triggerKey ctx st w w1 l cur e Hwf Hc Hl He Hcan)
    as (tl & target & Htl & Ht & Hst & Htrig & _ & Hwalk).
  destruct Hwf as [Hcons _].
  assert (tl = l) as ->.
  { eapply same_state_same_loc; [done..|]. congruence. }
  assert (target = cur) as -> by congruence.
  split.
  - rewrite <- (withCurrent_id st l Hc) at 2. apply Hwalk; [|done..].
    unfold directSubstate. destruct (parent cur) as [q|] eqn:Hq; [|done].
    destruct (heap st !! q) as [tp|] eqn:Htp; [|done].
    apply bool_decide_eq_false. intros Heq.
    assert (q = l) as -> by (by eapply same_state_same_loc).
    exact (chain_length_cons _ _ _ _ Hl Hq Hch).
  - intros fx fe Hx Hn.
    inversion Hch as [|l' c' cs' Hl' _]; subst.
    rewrite Hl in Hl'. injection Hl' as <-.
    unfold exitHooks, entryHooks. simpl. rewrite Hx, Hn.
    destruct (onEnterFrom cur !! mkTrigger triggerKey) as [ff|].
    + exists (omap onExit cs' ++ [ff ctx]). simpl. by rewrite <- !app_assoc.
    + exists (omap onExit cs'). done.
Qed.


(** The entry steps of a permitted [Fire] on a well-formed store, for
    hooks that act on the caller's world only: after the exit phase has
    left the world [wx], the target's enter-from hook registered for the
    fired trigger, if there is one, is called with [ctx], and then the
    target's enter hook, if set, is called.  Both are called when both are
    registered, and enter-from hooks registered for other triggers are
    not called. *)
Lemma Fire_entry_hooks fuel triggerKey ctx st w w1 l cur e :
  wf st -> current (machine st) = Some l -> heap st !! l = Some cur ->
  permitted cur !! triggerKey = Some e ->
  CanFire triggerKey st w = Done true st w1 ->
  ∃ tl target,
    stateToConfig (machine st) !! edge_state e = Some tl ∧
    heap st !! tl = Some target ∧
    ∀ wx,
      (directSubstate (heap st) target cur = true ∧ wx = w1) ∨
      (directSubstate (heap st) target cur = false ∧
       ∃ cs, chain (heap st) (Some l) cs ∧ length cs ≤ fuel ∧
             wx = runHooks (exitHooks cs) w1) ->
      Fire fuel triggerKey ctx st w =
        Done None (withCurrent st (Some tl))
          (let wy := match onEnterFrom target !! mkTrigger triggerKey with
                     | Some enterFrom => enterFrom ctx wx
                     | None => wx
                     end in
           match onEnter target with
           | Some f => f wy
           | None => wy
           end) ∧
      (∀ (enterFrom : hookFrom W Ctx) (f : hook W),
         onEnterFrom target !! mkTrigger triggerKey = Some enterFrom ->
         onEnter target = Some f ->
         Fire fuel triggerKey ctx st w =
           Done None (withCurrent st (Some tl)) (f (enterFrom ctx wx))) ∧
      (onEnterFrom target !! mkTrigger triggerKey = None ->
       Fire fuel triggerKey ctx st w =
         Done None (withCurrent st (Some tl))
           (match onEnter target with Some f => f wx | None => wx end)).
Proof.
  intros Hwf Hc Hl He Hcan.
  destruct (Fire_wf_run fuel triggerKey ctx st w w1 l cur e Hwf Hc Hl He Hcan)
    as (tl & target & Htl & Ht & _ & _ & Hdirect & Hwalk).
  exists tl, target. do 2 (split; [done|]). intros wx Hwx.
  assert (Hmain : Fire fuel triggerKey ctx st w =
    Done None (withCurrent st (Some tl))
      (runHooks (entryHooks target (mkTrigger triggerKey) ctx) wx)).
  { destruct Hwx as [[Hd ->]|(Hd & cs & Hch & Hfuel & ->)].
    - by apply Hdirect.
    - rewrite (Hwalk Hd cs Hch Hfuel). unfold runHooks. by rewrite foldl_app. }
  rewrite Hmain. unfold entryHooks, runHooks.
  split; [|split].
  - by destruct (onEnterFrom target !! mkTrigger triggerKey), (onEnter target).
  - by intros enterFrom f -> ->.
  - intros ->. by destruct (onEnter target).
Qed.

(** C7.  [IsInState s] answers true for the state of the current record
    and of every record reached from it by parent steps, and, when the
    parent chain of the current record ends, it answers true exactly for
    the states on that chain and false for every other state. *)
Theorem IsInState_spec st w l :
  current (machine st) = Some l ->
  (∀ k cfg fuel, ancestor (heap st) (Some l) k cfg -> k < fuel ->
     IsInState fuel (state cfg) st w = Done true st w) ∧
  (∀ cs fuel s, chain (heap st) (Some l) cs -> length cs ≤ fuel ->
     IsInState fuel s st w = Done (bool_decide (s ∈ state <$> cs)) st w ∧
     (∃ cur cs', cs = cur :: cs' ∧ heap st !! l = Some cur)).
Proof.
  intros Hc. split.
  - intros k cfg fuel Hanc Hfuel. unfold IsInState, bind, getSM. rewrite Hc.
    by apply (isInLoop_ancestor _ _ _ _ Hanc).
  - intros cs fuel s Hch Hfuel. split.
    + unfold IsInState, bind, getSM. rewrite Hc.
      by apply (isInLoop_chain _ _ _ Hch).
    + inversion Hch; subst. eauto.
Qed.

(** C9.  When the parent chain of the current record ends, [IsInState]
    and the exit walk of [Fire] return within as many iterations as the
    chain has records.  The condition is needed: [SubstateOf] accepts a
    state as its own parent, and on the store so built [IsInState] of
    another state, the exit walk and a permitted [Fire] that walks are
    still running after any number of iterations. *)
Theorem parent_loops_terminate :
  (∀ st w l cs fuel,
     current (machine st) = Some l ->
     chain (heap st) (Some l) cs -> length cs ≤ fuel ->
     (∀ s, ∃ b, IsInState fuel s st w = Done b st w) ∧
     exitLoop fuel (current (machine st)) st w
       = Done tt st (runHooks (exitHooks cs) w)) ∧
  (∀ s t s' w, s' ≠ s ->
     ∃ st, selfParent (W:=W) (Ctx:=Ctx) s t s' emptyStore w = Done tt st w ∧
       (∀ cs, ¬ chain (heap st) (current (machine st)) cs) ∧
       ∀ fuel ctx,
         IsInState fuel s' st w = Diverge ∧
         exitLoop fuel (current (machine st)) st w = Diverge ∧
         Fire fuel (Key t) ctx st w = Diverge).
Proof.
  split.
  - intros st w l cs fuel Hc Hch Hfuel. split.
    + intros s. eexists. unfold IsInState, bind, getSM. rewrite Hc.
      by apply (isInLoop_chain _ _ _ Hch).
    + rewrite Hc. by apply (exitLoop_run _ _ _ Hch).
  - intros s t s' w Hne. eexists. split; [by apply selfParent_run|].
    split.
    + intros cs Hch. simpl in Hch.
      eapply (chain_length_cons _ 0 _ cs); [| |exact Hch]; reflexivity.
    + intros fuel ctx. split; [|split].
      * unfold IsInState, bind, getSM. simpl.
        eapply isInLoop_self; [reflexivity|reflexivity|]. simpl. congruence.
      * simpl. eapply exitLoop_self; reflexivity.
      * eapply (Fire_diverge _ _ _ _ _ w 0 _ (mkEdge t s' []) 1 (NewStateConfig s')).
        -- reflexivity.
        -- reflexivity.
        -- simpl. apply lookup_singleton_eq.
        -- simpl. apply lookup_insert_eq.
        -- reflexivity.
        -- reflexivity.
        -- erewrite CanFire_unfold; [|reflexivity..]. simpl.
           by rewrite lookup_singleton_eq.
        -- eapply exitLoop_self; reflexivity.
Qed.


(** C4.  Through a valid handle [c]: [Permit c t s] registers [s] (the
    record it already has, or a new blank one) and files the edge
    [t -> s] with no guard under [t]'s key, replacing whatever was there;
    [PermitIf c t s p] registers [s] and, when an edge is already filed
    under the key, appends [p] to its guards and keeps its trigger and
    target, and otherwise files a new edge [t -> s] guarded by [p] alone.
    The record's other fields and other edges are untouched. *)
Theorem Permit_PermitIf_spec c t s p st w cfg :
  heap st !! c = Some cfg ->
  (∃ l st',
     Permit c t s st w = Done c st' w ∧
     stateToConfig (machine st') !! s = Some l ∧
     (∀ l0, stateToConfig (machine st) !! s = Some l0 ->
        l = l0 ∧ length (heap st') = length (heap st)) ∧
     (stateToConfig (machine st) !! s = None ->
        l = length (heap st) ∧ heap st' !! l = Some (NewStateConfig s)) ∧
     heap st' !! c =
       Some (set_permitted (<[Key t := mkEdge t s []]> (permitted cfg)) cfg)) ∧
  (∃ l st',
     PermitIf c t s p st w = Done c st' w ∧
     stateToConfig (machine st') !! s = Some l ∧
     (∀ l0, stateToConfig (machine st) !! s = Some l0 ->
        l = l0 ∧ length (heap st') = length (heap st)) ∧
     (stateToConfig (machine st) !! s = None ->
        l = length (heap st) ∧ heap st' !! l = Some (NewStateConfig s)) ∧
     heap st' !! c =
       Some (set_permitted
               (<[Key t := guardedEdge (permitted cfg !! Key t) t s p]>
                  (permitted cfg)) cfg) ∧
     (∀ val, permitted cfg !! Key t = Some val ->
        guardedEdge (permitted cfg !! Key t) t s p =
          mkEdge (edge_trigger val) (edge_state val) (edge_preds val ++ [p])) ∧
     (permitted cfg !! Key t = None ->
        guardedEdge (permitted cfg !! Key t) t s p = mkEdge t s [p])).
Proof.
  intros Hc. split.
  - destruct (register_then_store s c st w cfg
                (set_permitted (<[Key t := mkEdge t s []]> (permitted cfg)) cfg) Hc)
      as (l & st1 & Hreg & Hc1 & Hs & Hold & Hnew & Hat).
    eexists l, _. split; [by apply (Permit_run _ _ _ _ _ _ _ _ Hreg Hc1)|].
    by simpl.
  - destruct (register_then_store s c st w cfg
                (set_permitted
                   (<[Key t := guardedEdge (permitted cfg !! Key t) t s p]>
                      (permitted cfg)) cfg) Hc)
      as (l & st1 & Hreg & Hc1 & Hs & Hold & Hnew & Hat).
    eexists l, _. split; [by apply (PermitIf_run _ _ _ _ _ _ _ _ _ Hreg Hc1)|].
    simpl. do 4 (split; [done|]). split.
    + by intros val ->.
    + by intros ->.
Qed.


(** C8.  On every store a caller can produce there is exactly one record
    per registered state: each registered state has a record of that
    state, each record is registered under its own state, and two
    records of one state are the same record.  No call removes or moves a
    registration or a record.  A record is created on first reference:
    [NewStateMachine] creates the initial state's, [Configure] returns the
    registered record or creates a blank one, and after [Permit],
    [PermitIf] and [SubstateOf] the state they name is registered, under
    its earlier record if it had one.  [Configure] of a state returns the
    same handle after any later calls, so what was set through the first
    handle is read through the second. *)
Theorem one_config_per_state initial st :
  reachable initial st ->
  ((∀ s l, stateToConfig (machine st) !! s = Some l ->
      ∃ cfg, heap st !! l = Some cfg ∧ state cfg = s) ∧
   (∀ l cfg, heap st !! l = Some cfg ->
      stateToConfig (machine st) !! state cfg = Some l) ∧
   (∀ l1 l2 c1 c2, heap st !! l1 = Some c1 -> heap st !! l2 = Some c2 ->
      state c1 = state c2 -> l1 = l2)) ∧
  (∀ o w st' w', exec o st w = Done tt st' w' ->
     extends st st' ∧ reachable initial st') ∧
  (∀ w, ∃ st0, NewStateMachine initial emptyStore w = Done tt st0 w ∧
     reachable initial st0 ∧ heap st0 = [NewStateConfig initial] ∧
     stateToConfig (machine st0) !! initial = Some 0 ∧
     current (machine st0) = Some 0) ∧
  (∀ s w, ∃ l st', Configure s st w = Done l st' w ∧
     stateToConfig (machine st') !! s = Some l ∧
     match stateToConfig (machine st) !! s with
     | Some l0 => l = l0 ∧ st' = st
     | None =>
         l = length (heap st) ∧ heap st' = heap st ++ [NewStateConfig s] ∧
         stateToConfig (machine st') = <[s := l]> (stateToConfig (machine st))
     end) ∧
  (∀ c t s p w a st' w',
     Permit c t s st w = Done a st' w' ∨
     PermitIf c t s p st w = Done a st' w' ∨
     SubstateOf c s st w = Done a st' w' ->
     ∃ l cfg, stateToConfig (machine st') !! s = Some l ∧
       heap st' !! l = Some cfg ∧ state cfg = s ∧
       (∀ l0, stateToConfig (machine st) !! s = Some l0 -> l = l0)) ∧
  (∀ s w l st1 w1 os st2 w2,
     Configure s st w = Done l st1 w1 ->
     runOps os st1 w1 = Done tt st2 w2 ->
     Configure s st2 w2 = Done l st2 w2) ∧
  (∀ s w l st1 w1 (f : hook W) a st2 w2,
     Configure s st w = Done l st1 w1 ->
     OnEnter l f st1 w1 = Done a st2 w2 ->
     ∃ cfg, Configure s st2 w2 = Done l st2 w2 ∧
       heap st2 !! l = Some cfg ∧ onEnter cfg = Some f).
Proof.
  intros Hreach. pose proof (reachable_wf _ _ Hreach) as Hwf.
  pose proof Hwf as [Hcons _].
  assert (Hconf : ∀ s st0 w l st1 w1,
            Configure s st0 w = Done l st1 w1 ->
            stateToConfig (machine st1) !! s = Some l ∧ extends st0 st1 ∧
            (wf st0 -> wf st1)).
  { intros s st0 w l st1 w1 Hrun. unfold Configure in Hrun.
    destruct (registerStateConfig_spec s st0 w)
      as (l' & st' & Hreg & Hs & _ & Hext & _).
    rewrite Hreg in Hrun. injection Hrun as <- <- <-.
    split; [done|]. split; [done|]. by apply (wf_register _ _ _ _ _ Hreg). }
  assert (Hagain : ∀ s st0 w l,
            stateToConfig (machine st0) !! s = Some l ->
            Configure s st0 w = Done l st0 w).
  { intros s st0 w l Hs. unfold Configure.
    by rewrite registerStateConfig_run, Hs. }
  split; [|split; [|split; [|split; [|split; [|split]]]]].
  - split; [apply Hcons|]. split; [apply Hcons|].
    intros l1 l2 c1 c2. by apply same_state_same_loc.
  - intros o w st' w' Hexec. split.
    + by destruct (exec_preserves _ _ _ _ _ Hwf Hexec).
    + by eapply reach_step.
  - intros w. eexists. split; [apply NewStateMachine_run|].
    split; [apply (reach_new _ _ initial _ w w); apply NewStateMachine_run|].
    split; [done|]. split; [|done]. simpl. apply lookup_singleton_eq.
  - intros s w. unfold Configure. rewrite registerStateConfig_run.
    destruct (stateToConfig (machine st) !! s) as [l0|] eqn:Hs.
    + by exists l0, st.
    + eexists _, _. split; [done|]. simpl. by rewrite lookup_insert_eq.
  - intros c t s p w a st' w' Hrun.
    assert (Hshape : ∃ l st1 cfg new,
              registerStateConfig s st w = Done l st1 w ∧
              heap st1 !! c = Some cfg ∧
              st' = mkStore (<[c := new]> (heap st1)) (machine st1) ∧
              wf st').
    { destruct Hrun as [Hrun|[Hrun|Hrun]].
      - assert (Hexec : exec (OpPermit c t s) st w = Done tt st' w')
          by (simpl; unfold void; by rewrite (bind_Done _ _ _ _ _ _ _ Hrun)).
        apply (registered_setter_inv s c (fun _ cfg =>
                 set_permitted (<[Key t := mkEdge t s []]> (permitted cfg)) cfg))
          in Hrun as (l & st1 & cfg & Hreg & Hc & _ & _ & ->).
        eexists l, st1, cfg, _. do 3 (split; [done|]).
        by destruct (exec_preserves _ _ _ _ _ Hwf Hexec).
      - assert (Hexec : exec (OpPermitIf c t s p) st w = Done tt st' w')
          by (simpl; unfold void; by rewrite (bind_Done _ _ _ _ _ _ _ Hrun)).
        apply PermitIf_inv in Hrun as (l & st1 & cfg & Hreg & Hc & _ & _ & ->).
        eexists l, st1, cfg, _. do 3 (split; [done|]).
        by destruct (exec_preserves _ _ _ _ _ Hwf Hexec).
      - assert (Hexec : exec (OpSubstateOf c s) st w = Done tt st' w')
          by (simpl; unfold void; by rewrite (bind_Done _ _ _ _ _ _ _ Hrun)).
        apply (registered_setter_inv s c (fun l cfg => set_parent (Some l) cfg))
          in Hrun as (l & st1 & cfg & Hreg & Hc & _ & _ & ->).
        eexists l, st1, cfg, _. do 3 (split; [done|]).
        by destruct (exec_preserves _ _ _ _ _ Hwf Hexec). }
    destruct Hshape as (l & st1 & cfg & new & Hreg & Hc & -> & [Hcons' _]).
    assert (Hs : stateToConfig (machine st1) !! s = Some l).
    { destruct (registerStateConfig_spec s st w) as (l' & st' & Hreg' & Hs & _).
      rewrite Hreg in Hreg'. by injection Hreg' as <- <-. }
    destruct (cons_registry _ _ _ Hcons' _ _ Hs) as (cfg' & Hl & Hst).
    exists l, cfg'. do 3 (split; [done|]).
    intros l0 Hl0. rewrite registerStateConfig_run, Hl0 in Hreg. congruence.
  - intros s w l st1 w1 os st2 w2 Hrun Hops.
    destruct (Hconf _ _ _ _ _ _ Hrun) as (Hs & _ & Hwf1).
    destruct (runOps_preserves _ _ _ _ _ (Hwf1 Hwf) Hops) as [_ [Hext _]].
    apply Hagain. by apply Hext.
  - intros s w l st1 w1 f a st2 w2 Hrun Hset.
    destruct (Hconf _ _ _ _ _ _ Hrun) as (Hs & _ & _).
    apply setter_inv in Hset as (cfg & Hc & _ & -> & ->).
    exists (set_onEnter (Some f) cfg). split; [by apply Hagain|].
    split; [|done]. simpl. apply list_lookup_insert_eq. by eapply lookup_lt_Some.
Qed.

End Proofs.

(** * The claims on the scenarios of the test file *)

Import Scenario.

Lemma reentry_wf : wf (storeOf reentry).
Proof.
  apply (runOps_wf World nat s1 reentryOps w0 _ w0). vm_compute. reflexivity.
Qed.

Lemma enterFrom_wf : wf (storeOf enterFrom).
Proof.
  apply (runOps_wf World nat s1 enterFromOps w0 _ w0). vm_compute. reflexivity.
Qed.

Lemma reentry_reachable : reachable s1 (storeOf reentry).
Proof.
  apply (reachable_runOps World nat s1 reentryOps
           (storeOf (NewStateMachine s1)) w0 _ w0).
  - apply (reach_new World nat s1 _ w0 w0). reflexivity.
  - vm_compute. reflexivity.
Qed.

(** From [s1], the trigger [tr3] of [nested] enters [s3], whose parent is
    [s2] and whose grandparent is [s1]: the exit hook of [s1] is called. *)
Lemma Fire_exit_walk_witness :
  Fire 5 "tr3" 0 (storeOf nested) w0 =
    Done None (withCurrent (storeOf nested) (Some 2))
      (mkWorld false ["s1exit"; "s3enter"]).
Proof.
  pose (st := storeOf nested).
  pose (cur := cfgAt st 0). pose (target := cfgAt st 2).
  pose (tp := cfgAt st 1). pose (e := edgeAt cur "tr3").
  destruct (Fire_exit_walk World nat 5 "tr3" 0 st w0 w0 0 cur e 2 target)
    as (Hwalk & _ & _); [reflexivity..|].
  assert (Hcase : parent target = None ∨
            ∃ p tp, parent target = Some p ∧ heap st !! p = Some tp ∧
                    state tp ≠ state cur).
  { right. exists 1, tp. split; [reflexivity|]. split; [reflexivity|].
    vm_compute. discriminate. }
  assert (Hch : chain (heap st) (Some 0) [cur]).
  { apply (chain_cons _ 0 cur []); [reflexivity|]. exact (chain_nil _). }
  exact (proj2 (Hwalk Hcase [cur] Hch ltac:(simpl; lia))).
Defined.


(** On [threeGuards] the second guard answers true: [CanFire] answers
    true after calling the first two guards and not the third. *)
Lemma CanFire_spec_witness :
  CanFire "tr1" (storeOf threeGuards) w0 =
    Done true (storeOf threeGuards) (mkWorld false ["g1"; "g2"]).
Proof.
  pose (st := storeOf threeGuards). pose (cur := cfgAt st 0).
  pose proof (CanFire_spec World nat "tr1" st w0 0 cur eq_refl eq_refl) as H.
  change (permitted cur !! "tr1") with (Some (edgeAt cur "tr1")) in H.
  destruct H as [_ H].
  destruct (H ltac:(discriminate)) as [[(i & w' & Hi & Hev & Hcan)|(w' & Hev & _)] _].
  - destruct i as [|[|[|i]]]; try (vm_compute in Hev; discriminate Hev).
    vm_compute in Hev. injection Hev as <-. exact Hcan.
  - vm_compute in Hev. discriminate Hev.
Defined.

(** [Permit] and [PermitIf] through the handle of the initial state. *)
Lemma Permit_PermitIf_spec_witness :
  Permit 0 tr1 s2 (storeOf (NewStateMachine s1)) w0 =
    Done 0
      (mkStore
         [mkStateConfig None ∅ None s1 None {["tr1" := mkEdge tr1 s2 []]};
          NewStateConfig s2]
         (mkStateMachine (Some 0) (<[s2 := 1]> {[s1 := 0]}))) w0.
Proof.
  pose (st := storeOf (NewStateMachine s1)).
  destruct (Permit_PermitIf_spec World nat 0 tr1 s2 guardAllow st w0 (cfgAt st 0)
              eq_refl) as [(l & st' & Hrun & _) _].
  subst st. rewrite Hrun. vm_compute in Hrun. injection Hrun as <-. reflexivity.
Defined.

(** [TestReentry]: the one [Fire] calls the exit hook and then the enter
    hook of [s1]. *)
Example Fire_reentrant_TestReentry :
  Fire 5 "tr" 0 (storeOf reentry) w0 =
    Done None (storeOf reentry) (mkWorld false ["exit"; "enter"]).
Proof.
  pose (st := storeOf reentry). pose (cur := cfgAt st 0).
  assert (Hch : chain (heap st) (Some 0) [cur]).
  { apply (chain_cons _ 0 cur []); [reflexivity|]. exact (chain_nil _). }
  exact (proj1 (Fire_reentrant World nat 5 "tr" 0 st w0 w0 0 cur
                  (edgeAt cur "tr") [cur] reentry_wf eq_refl eq_refl eq_refl
                  eq_refl eq_refl Hch ltac:(simpl; lia))).
Defined.

(** [TestOnEnterFrom]: entering [s3] by [tr1] calls its enter-from hook
    and then its enter hook. *)
Example Fire_entry_hooks_TestOnEnterFrom :
  Fire 5 "tr1" 7 (storeOf enterFrom) w0 =
    Done None (withCurrent (storeOf enterFrom) (Some 1))
      (mkWorld false ["s3enterFromTr1"; "s3enter"]).
Proof.
  pose (st := storeOf enterFrom). pose (cur := cfgAt st 0).
  destruct (Fire_entry_hooks World nat 5 "tr1" 7 st w0 w0 0 cur
              (edgeAt cur "tr1") enterFrom_wf eq_refl eq_refl eq_refl eq_refl)
    as (tl & target & Htl & Ht & Hrun).
  vm_compute in Htl. injection Htl as <-.
  vm_compute in Ht. injection Ht as <-.
  refine (proj1 (Hrun w0 (or_intror (conj eq_refl _)))).
  exists [cur]. split; [|split; [simpl; lia|reflexivity]].
  apply (chain_cons _ 0 cur []); [reflexivity|]. exact (chain_nil _).
Defined.

(** [TestIsInState]: in [s3], a substate of [s2], itself a substate of
    [s1], the machine is in [s1] and not in [s4]. *)
Lemma IsInState_spec_witness :
  IsInState 5 s1 (storeOf (nested;; Fire 5 "tr1" 0;; Fire 5 "tr2" 0;; ret tt)) w0
    = Done true (storeOf (nested;; Fire 5 "tr1" 0;; Fire 5 "tr2" 0;; ret tt)) w0 ∧
  IsInState 5 s4 (storeOf (nested;; Fire 5 "tr1" 0;; Fire 5 "tr2" 0;; ret tt)) w0
    = Done false (storeOf (nested;; Fire 5 "tr1" 0;; Fire 5 "tr2" 0;; ret tt)) w0.
Proof.
  pose (st := storeOf (nested;; Fire 5 "tr1" 0;; Fire 5 "tr2" 0;; ret tt)).
  destruct (IsInState_spec World nat st w0 2 eq_refl) as [Hanc Hchain].
  assert (Hch : chain (heap st) (Some 2) [cfgAt st 2; cfgAt st 1; cfgAt st 0]).
  { apply (chain_cons _ 2 (cfgAt st 2)); [reflexivity|].
    apply (chain_cons _ 1 (cfgAt st 1)); [reflexivity|].
    apply (chain_cons _ 0 (cfgAt st 0)); [reflexivity|]. exact (chain_nil _). }
  split.
  - exact (proj1 (Hchain _ 5 s1 Hch ltac:(simpl; lia))).
  - exact (proj1 (Hchain _ 5 s4 Hch ltac:(simpl; lia))).
Defined.

(** On the store of [reentry] the two registered facts of the invariant
    hold, and [Configure s1] hands out the handle 0 again. *)
Lemma one_config_per_state_witness :
  Configure s1 (storeOf reentry) w0 = Done 0 (storeOf reentry) w0.
Proof.
  destruct (one_config_per_state World nat s1 (storeOf reentry) reentry_reachable)
    as (_ & _ & _ & Hconf & _).
  destruct (Hconf s1 w0) as (l & st' & Hrun & _ & Hcase).
  change (stateToConfig (machine (storeOf reentry)) !! s1) with (Some 0) in Hcase.
  destruct Hcase as [-> ->]. exact Hrun.
Defined.

(** [TestGuardedPermits], first half: the guard answers false, [Fire]
    returns the error and the machine stays in [s1]. *)
Lemma Fire_fails_iff_not_CanFire_witness :
  Fire 5 "tr1" 0 (storeOf guarded) w0 = Done errUnsupported (storeOf guarded) w0.
Proof.
  pose (st := storeOf guarded). pose (cur := cfgAt st 0).
  destruct (Fire_fails_iff_not_CanFire World nat 5 "tr1" 0 st w0)
    as (_ & _ & Hcause).
  destruct (Hcause 0 cur eq_refl eq_refl) as [_ Hdenied].
  exact (Hdenied (edgeAt cur "tr1") w0 eq_refl ltac:(discriminate) eq_refl).
Defined.

(** [s1] declared a substate of itself: a thousand iterations are not
    enough for [IsInState s2]. *)
Lemma parent_loops_terminate_witness :
  ∃ st, selfParent (W:=World) (Ctx:=nat) s1 tr1 s2 emptyStore w0 = Done tt st w0 ∧
    IsInState 1000 s2 st w0 = Diverge.
Proof.
  destruct (proj2 (parent_loops_terminate World nat) s1 tr1 s2 w0
              ltac:(discriminate)) as (st & Hrun & _ & Hloop).
  exists st. split; [exact Hrun|]. exact (proj1 (Hloop 1000 0)).
Defined.

(** On [guarded], [State] answers [s1] and leaves everything as it was. *)
Lemma queries_leave_store_witness :
  SM_State (storeOf guarded) w0 = Done s1 (storeOf guarded) w0.
Proof.
  destruct (queries_leave_store World nat (storeOf guarded) w0)
    as (_ & _ & _ & Htotal).
  exact (proj1 (proj2 (Htotal 0 (cfgAt (storeOf guarded) 0) eq_refl eq_refl))).
Defined.

(** * The test file, run *)

(** [TestOnEnterOnExitSubstates]. *)
Example substates_calls :
  callsOf (substates;; Fire 5 "tr1" 0;; Fire 5 "tr2" 0;; Fire 5 "tr3" 0) w0 =
    Some ["s1exit"; "s2enter"; "s3enter"; "s3exit"; "s2exit"; "s4enter"].
Proof. vm_compute. reflexivity. Qed.

(** [TestReentry]. *)
Example reentry_calls :
  callsOf (reentry;; Fire 5 "tr" 0) w0 = Some ["exit"; "enter"].
Proof. vm_compute. reflexivity. Qed.

(** [TestGuardedPermits]. *)
Example guarded_denied :
  stateOf (guarded;; Fire 5 "tr1" 0) w0 = Some s1 ∧
  callsOf (guarded;; Fire 5 "tr1" 0) w0 = Some [].
Proof. vm_compute. split; reflexivity. Qed.

Example guarded_allowed :
  stateOf (guarded;; Fire 5 "tr1" 0) (mkWorld true []) = Some s2 ∧
  callsOf (guarded;; Fire 5 "tr1" 0) (mkWorld true []) = Some ["s1exit"].
Proof. vm_compute. split; reflexivity. Qed.

(** [TestOnEnterFrom]: by [tr2] the enter-from hook of [tr1] stays
    silent. *)
Example enterFrom_other_trigger :
  callsOf (enterFrom;; Fire 5 "tr2" 0) w0 = Some ["s3enter"].
Proof. vm_compute. reflexivity. Qed.

(** Entering the direct substate [s2] of [s1] calls no exit hook. *)
Example nested_direct_substate :
  callsOf (nested;; Fire 5 "tr1" 0) w0 = Some [].
Proof. vm_compute. reflexivity. Qed.


(** * More of the package *)

Section Composition.
Variables (W Ctx : Type).
Implicit Types (st : Store W Ctx) (w : W) (h : list (StateConfig W Ctx)).
Implicit Types (cfg cur target : StateConfig W Ctx) (e : edge W).
Implicit Types (l c : loc) (s : State) (t : Trigger).

(** ** Helper equations *)

Lemma setter_run c (f : StateConfig W Ctx -> StateConfig W Ctx) (r : loc) st w cfg :
  heap st !! c = Some cfg ->
  (modifyCfg c f;; ret r) st w =
    Done r (mkStore (<[c := f cfg]> (heap st)) (machine st)) w.
Proof. intros H. by rewrite (bind_Done _ _ _ _ _ _ _ _ _ (modifyCfg_run _ _ _ _ _ _ _ H)). Qed.

Lemma setter_panic c (f : StateConfig W Ctx -> StateConfig W Ctx) (r : loc) st w :
  heap st !! c = None -> (modifyCfg c f;; ret r) st w = Panic.
Proof. intros H. unfold bind, modifyCfg. by rewrite H. Qed.

(** Two stores through one handle: the second replaces the first. *)
Lemma setter_twice c (f g : StateConfig W Ctx -> StateConfig W Ctx) st w :
  (∀ cfg, g (f cfg) = g cfg) ->
  ((modifyCfg c f;; ret c);; (modifyCfg c g;; ret c)) st w =
    (modifyCfg c g;; ret c) st w.
Proof.
  intros Hgf. destruct (heap st !! c) as [cfg|] eqn:Hc.
  - assert (Hlt : c < length (heap st)) by (by eapply lookup_lt_Some).
    rewrite (bind_Done _ _ _ _ _ _ _ _ _ (setter_run c f c st w cfg Hc)).
    rewrite (setter_run c g c st w cfg Hc).
    rewrite (setter_run c g c _ w (f cfg)) by (by apply list_lookup_insert_eq).
    simpl. by rewrite list_insert_insert_eq, Hgf.
  - rewrite (setter_panic c g c st w Hc). unfold bind at 1.
    by rewrite (setter_panic c f c st w Hc).
Qed.

(** Two stores through one handle that touch different fields commute. *)
Lemma setter_commute c (f g : StateConfig W Ctx -> StateConfig W Ctx) st w :
  (∀ cfg, g (f cfg) = f (g cfg)) ->
  ((modifyCfg c f;; ret c);; (modifyCfg c g;; ret c)) st w =
    ((modifyCfg c g;; ret c);; (modifyCfg c f;; ret c)) st w.
Proof.
  intros Hgf. destruct (heap st !! c) as [cfg|] eqn:Hc.
  - assert (Hlt : c < length (heap st)) by (by eapply lookup_lt_Some).
    rewrite (bind_Done _ _ _ _ _ _ _ _ _ (setter_run c f c st w cfg Hc)).
    rewrite (bind_Done _ _ _ _ _ _ _ _ _ (setter_run c g c st w cfg Hc)).
    rewrite (setter_run c g c _ w (f cfg)) by (by apply list_lookup_insert_eq).
    rewrite (setter_run c f c _ w (g cfg)) by (by apply list_lookup_insert_eq).
    simpl. by rewrite !list_insert_insert_eq, Hgf.
  - unfold bind at 1. rewrite (setter_panic c f c st w Hc).
    unfold bind at 1. by rewrite (setter_panic c g c st w Hc).
Qed.

(** X1.  A machine fresh from [NewStateMachine] is in its initial state
    and in no other, and permits no trigger: [CanFire] answers false and
    [Fire] returns the error for every key, without touching the world. *)
Theorem NewStateMachine_fresh initial w :
  ∃ st, NewStateMachine (W:=W) (Ctx:=Ctx) initial emptyStore w = Done tt st w ∧
    SM_State st w = Done initial st w ∧
    (∀ triggerKey, CanFire triggerKey st w = Done false st w) ∧
    (∀ fuel triggerKey ctx,
       Fire fuel triggerKey ctx st w = Done errUnsupported st w) ∧
    (∀ fuel s,
       IsInState (S fuel) s st w = Done (bool_decide (s = initial)) st w).
Proof.
  pose (st0 := mkStore (W:=W) (Ctx:=Ctx) [NewStateConfig initial]
                 (mkStateMachine (Some 0) {[initial := 0]})).
  exists st0. split; [apply NewStateMachine_run|].
  assert (Hcan : ∀ triggerKey, CanFire triggerKey st0 w = Done false st0 w).
  { intros k. by erewrite CanFire_unfold; [|reflexivity..]. }
  split; [reflexivity|]. split; [done|]. split.
  - intros fuel k ctx. by apply Fire_denied.
  - intros fuel s. unfold IsInState, bind, getSM. simpl.
    unfold bind, deref. simpl.
    case_bool_decide as H1; case_bool_decide as H2; try done;
      simpl in *; try congruence. by destruct fuel.
Qed.

(** X2.  [OnEnter] and [OnExit] keep one hook each: a second call
    replaces the hook set by the first, and the two calls do not disturb
    each other (in either order they give the same store).  Through a
    handle that holds no record both sides panic alike. *)
Theorem OnEnter_OnExit_replace c (f g : hook W) st w :
  (OnEnter (Ctx:=Ctx) c f;; OnEnter c g) st w = OnEnter c g st w ∧
  (OnExit (Ctx:=Ctx) c f;; OnExit c g) st w = OnExit c g st w ∧
  (OnEnter (Ctx:=Ctx) c f;; OnExit c g) st w = (OnExit c g;; OnEnter c f) st w ∧
  (∀ cfg, heap st !! c = Some cfg ->
     OnEnter c g st w =
       Done c (mkStore (<[c := set_onEnter (Some g) cfg]> (heap st)) (machine st)) w ∧
     OnExit c g st w =
       Done c (mkStore (<[c := set_onExit (Some g) cfg]> (heap st)) (machine st)) w).
Proof.
  split; [|split; [|split]].
  - by apply setter_twice.
  - by apply setter_twice.
  - by apply setter_commute.
  - intros cfg Hc. split; by apply setter_run.
Qed.

(** X3.  [OnEnterFrom] keeps one hook per trigger: a second call for the
    same trigger replaces the first, calls for different triggers do not
    disturb each other, and the hook is then found under its trigger
    while the hooks of other triggers are as before. *)
Theorem OnEnterFrom_per_trigger c t t' (f g : hookFrom W Ctx) st w :
  (OnEnterFrom c t f;; OnEnterFrom c t g) st w = OnEnterFrom c t g st w ∧
  (t ≠ t' ->
   (OnEnterFrom c t f;; OnEnterFrom c t' g) st w =
     (OnEnterFrom c t' g;; OnEnterFrom c t f) st w) ∧
  (∀ cfg, heap st !! c = Some cfg ->
     ∃ st' cfg', OnEnterFrom c t f st w = Done c st' w ∧
       heap st' !! c = Some cfg' ∧
       onEnterFrom cfg' !! t = Some f ∧
       (∀ t0, t0 ≠ t -> onEnterFrom cfg' !! t0 = onEnterFrom cfg !! t0) ∧
       onEnter cfg' = onEnter cfg ∧ onExit cfg' = onExit cfg ∧
       state cfg' = state cfg ∧ parent cfg' = parent cfg ∧
       permitted cfg' = permitted cfg).
Proof.
  split; [|split].
  - apply setter_twice. intros cfg. unfold set_onEnterFrom. simpl.
    by rewrite insert_insert_eq.
  - intros Hne. apply setter_commute. intros cfg. unfold set_onEnterFrom. simpl.
    by rewrite insert_insert_ne.
  - intros cfg Hc. eexists _, _. split; [by apply setter_run|]. simpl.
    split; [apply list_lookup_insert_eq; by eapply lookup_lt_Some|]. simpl.
    split; [by rewrite lookup_insert_eq|].
    split; [|done]. intros t0 Hne. by rewrite lookup_insert_ne.
Qed.

(** Registration does not look at the records, so it commutes with a
    store through an existing handle. *)
Lemma register_facts s c st w cfg :
  heap st !! c = Some cfg ->
  ∃ l st1, registerStateConfig s st w = Done l st1 w ∧
    heap st1 !! c = Some cfg ∧
    current (machine st1) = current (machine st) ∧
    stateToConfig (machine st1) !! s = Some l ∧
    (∀ x, registerStateConfig s (update st c x) w = Done l (update st1 c x) w).
Proof.
  intros Hc. assert (Hlt : c < length (heap st)) by (by eapply lookup_lt_Some).
  rewrite registerStateConfig_run.
  destruct (stateToConfig (machine st) !! s) as [l0|] eqn:Hs.
  - exists l0, st. do 4 (split; [done|]). intros x.
    rewrite registerStateConfig_run. simpl. by rewrite Hs.
  - eexists _, _. split; [done|]. simpl.
    split; [by apply lookup_app_l_Some|]. split; [done|].
    split; [by rewrite lookup_insert_eq|]. intros x.
    rewrite registerStateConfig_run. simpl. rewrite Hs.
    unfold update. simpl. rewrite length_insert.
    by rewrite insert_app_l.
Qed.

Lemma registered_setter_run s c
    (f : loc -> StateConfig W Ctx -> StateConfig W Ctx) st w l st1 cfg :
  registerStateConfig s st w = Done l st1 w -> heap st1 !! c = Some cfg ->
  (let* l := registerStateConfig s in modifyCfg c (f l);; ret c) st w =
    Done c (update st1 c (f l cfg)) w.
Proof.
  intros Hreg Hc. rewrite (bind_Done _ _ _ _ _ _ _ _ _ Hreg).
  by apply setter_run.
Qed.

(** Two registering stores through one valid handle: the second store
    replaces the first, and both states end up registered. *)
Lemma registered_setter_twice s s' c
    (f g : loc -> StateConfig W Ctx -> StateConfig W Ctx) st w cfg :
  heap st !! c = Some cfg ->
  (∀ l l' x, g l' (f l x) = g l' x) ->
  ((let* l := registerStateConfig s in modifyCfg c (f l);; ret c);;
   (let* l := registerStateConfig s' in modifyCfg c (g l);; ret c)) st w =
  (registerStateConfig s;;
   (let* l := registerStateConfig s' in modifyCfg c (g l);; ret c)) st w.
Proof.
  intros Hc Hgf.
  destruct (register_facts s c st w cfg Hc) as (l & st1 & Hreg & Hc1 & _ & _ & _).
  destruct (register_facts s' c st1 w cfg Hc1)
    as (l' & st2 & Hreg' & Hc2 & _ & _ & Hupd).
  assert (Hlt : c < length (heap st2)) by (by eapply lookup_lt_Some).
  rewrite (bind_Done _ _ _ _ _ _ _ _ _ (registered_setter_run s c f _ _ _ _ _ Hreg Hc1)).
  rewrite (bind_Done _ _ _ _ _ _ _ _ _ Hreg).
  rewrite (registered_setter_run s' c g _ w l' _ (f l cfg) (Hupd (f l cfg)));
    [|by apply list_lookup_insert_eq].
  rewrite (registered_setter_run s' c g _ _ _ _ _ Hreg' Hc2).
  unfold update. simpl. by rewrite list_insert_insert_eq, Hgf.
Qed.

(** The guard loop does not look at the store. *)
Lemma predLoop_indep (ps : list (pred W)) :
  ∀ (found : bool) st st2 w b w',
    predLoop ps found st w = Done b st w' ->
    predLoop ps found st2 w = Done b st2 w'.
Proof.
  induction ps as [|p ps IH]; intros found st st2 w b w'; simpl.
  - by intros [= <- <-].
  - unfold bind, callPred. destruct (fst (p w)); [by intros [= <- <-]|].
    apply IH.
Qed.

(** [CanFire] reads the current record's edge only. *)
Lemma CanFire_same_edge triggerKey st st2 w l l2 cur cur2 b w' :
  current (machine st) = Some l -> heap st !! l = Some cur ->
  current (machine st2) = Some l2 -> heap st2 !! l2 = Some cur2 ->
  permitted cur2 !! triggerKey = permitted cur !! triggerKey ->
  CanFire triggerKey st w = Done b st w' ->
  CanFire triggerKey st2 w = Done b st2 w'.
Proof.
  intros Hc Hl Hc2 Hl2 Hperm.
  rewrite (CanFire_unfold _ _ _ _ _ _ _ Hc Hl), (CanFire_unfold _ _ _ _ _ _ _ Hc2 Hl2).
  rewrite Hperm. destruct (permitted cur !! triggerKey) as [next|].
  - case_bool_decide; [|by intros [= <- <-]].
    destruct (predLoop_run _ _ (edge_preds next) false st w) as (b1 & w1 & Hrun & _).
    rewrite Hrun, (predLoop_indep _ _ _ st2 _ _ _ Hrun).
    by intros [= <- <-].
  - by intros [= <- <-].
Qed.

(** X4.  A state has one parent: through a valid handle a second
    [SubstateOf] replaces the parent set by the first (the first state
    stays registered), and once the current record has been made a
    substate of [s] on a well-formed store the machine is in [s]. *)
Theorem SubstateOf_one_parent c s s' st w cfg :
  heap st !! c = Some cfg ->
  (SubstateOf c s;; SubstateOf c s') st w =
    (registerStateConfig s;; SubstateOf c s') st w ∧
  (wf st -> current (machine st) = Some c ->
   ∃ st', SubstateOf c s st w = Done c st' w ∧
     ∀ fuel, IsInState (S (S fuel)) s st' w = Done true st' w).
Proof.
  intros Hc. split.
  - by apply (registered_setter_twice s s' c
                (fun l x => set_parent (Some l) x)
                (fun l x => set_parent (Some l) x) st w cfg).
  - intros Hwf Hcur.
    destruct (register_facts s c st w cfg Hc) as (l & st1 & Hreg & Hc1 & Hcur1 & Hs & _).
    pose proof (wf_register _ _ _ _ _ _ _ Hreg Hwf) as [Hcons1 _].
    destruct (cons_registry _ _ _ Hcons1 _ _ Hs) as (pcfg & Hl & Hst).
    assert (Hlt : c < length (heap st1)) by (by eapply lookup_lt_Some).
    exists (update st1 c (set_parent (Some l) cfg)).
    split; [by apply (registered_setter_run s c (fun l x => set_parent (Some l) x))|].
    intros fuel. unfold IsInState, bind, getSM.
    replace (current (machine (update st1 c (set_parent (Some l) cfg))))
      with (Some c) by (simpl; congruence).
    rewrite <- Hst.
    destruct (decide (l = c)) as [->|Hne].
    + assert (pcfg = cfg) as -> by congruence.
      change (state cfg) with (state (set_parent (Some c) cfg)).
      eapply (isInLoop_ancestor _ _ _ _ 0); [|reflexivity|lia].
      apply anc_here. simpl. by apply list_lookup_insert_eq.
    + eapply (isInLoop_ancestor _ _ _ _ 1); [|reflexivity|lia].
      eapply (anc_up _ c _ 0); [simpl; by apply list_lookup_insert_eq|].
      simpl. apply anc_here. simpl. by rewrite list_lookup_insert_ne.
Qed.

(** X5.  After [Permit c t s] on the current record, [CanFire] of [t]'s
    key answers true without calling any guard, and [CanFire] of every
    other key answers as before. *)
Theorem Permit_then_CanFire c t s st w cfg :
  current (machine st) = Some c -> heap st !! c = Some cfg ->
  ∃ st', Permit c t s st w = Done c st' w ∧
    CanFire (Key t) st' w = Done true st' w ∧
    (∀ triggerKey b w', triggerKey ≠ Key t ->
       CanFire triggerKey st w = Done b st w' ->
       CanFire triggerKey st' w = Done b st' w').
Proof.
  intros Hcur Hc.
  destruct (register_facts s c st w cfg Hc) as (l & st1 & Hreg & Hc1 & Hcur1 & _ & _).
  assert (Hlt : c < length (heap st1)) by (by eapply lookup_lt_Some).
  eexists. split; [by apply (Permit_run _ _ _ _ _ _ _ _ _ _ Hreg Hc1)|].
  split.
  - erewrite CanFire_unfold;
      [|simpl; by rewrite Hcur1|simpl; by apply list_lookup_insert_eq].
    simpl. by rewrite lookup_insert_eq.
  - intros k b w' Hk Hcan.
    eapply (CanFire_same_edge k st _ w c c cfg _ b w' Hcur Hc); [| | |exact Hcan].
    + simpl. by rewrite Hcur1.
    + simpl. by apply list_lookup_insert_eq.
    + simpl. by rewrite lookup_insert_ne.
Qed.

(** [PermitIf] on a store whose record at [c] was just replaced. *)
Lemma PermitIf_after_update c t s p st w cfg x :
  heap st !! c = Some cfg ->
  ∃ l st1, registerStateConfig s st w = Done l st1 w ∧
    heap st1 !! c = Some cfg ∧
    current (machine st1) = current (machine st) ∧
    PermitIf c t s p (update st c x) w =
      Done c (update st1 c
                (set_permitted
                   (<[Key t := guardedEdge (permitted x !! Key t) t s p]>
                      (permitted x)) x)) w.
Proof.
  intros Hc.
  destruct (register_facts s c st w cfg Hc) as (l & st1 & Hreg & Hc1 & Hcur & _ & Hupd).
  assert (Hlt : c < length (heap st1)) by (by eapply lookup_lt_Some).
  exists l, st1. do 3 (split; [done|]).
  rewrite (PermitIf_run _ _ c t s p _ w l _ x (Hupd x))
    by (by apply list_lookup_insert_eq).
  unfold update. simpl. by rewrite list_insert_insert_eq.
Qed.

(** X6.  [Permit] forgets what was filed under the trigger's key: after
    an earlier [Permit] or [PermitIf] for the same trigger, through a
    valid handle, the store is the one [Permit] alone would leave once
    the earlier target is registered; the earlier target and guard are
    gone from the edge. *)
Theorem Permit_overrides c t s s' (p : pred W) st w cfg :
  heap st !! c = Some cfg ->
  (Permit c t s;; Permit c t s') st w =
    (registerStateConfig s;; Permit c t s') st w ∧
  (PermitIf c t s p;; Permit c t s') st w =
    (registerStateConfig s;; Permit c t s') st w.
Proof.
  intros Hc. split.
  - apply (registered_setter_twice s s' c
             (fun _ x => set_permitted (<[Key t := mkEdge t s []]> (permitted x)) x)
             (fun _ x => set_permitted (<[Key t := mkEdge t s' []]> (permitted x)) x)
             st w cfg Hc).
    intros _ _ x. unfold set_permitted. simpl. by rewrite insert_insert_eq.
  - destruct (register_facts s c st w cfg Hc) as (l & st1 & Hreg & Hc1 & _ & _ & _).
    destruct (register_facts s' c st1 w cfg Hc1)
      as (l' & st2 & Hreg' & Hc2 & _ & _ & Hupd).
    assert (Hlt : c < length (heap st2)) by (by eapply lookup_lt_Some).
    rewrite (bind_Done _ _ _ _ _ _ _ _ _ (PermitIf_run _ _ _ _ _ _ _ _ _ _ _ Hreg Hc1)).
    rewrite (bind_Done _ _ _ _ _ _ _ _ _ Hreg).
    rewrite (Permit_run _ _ c t s' st1 w l' st2 cfg Hreg' Hc2).
    erewrite (Permit_run _ _ c t s' _ w l');
      [|apply Hupd|by apply list_lookup_insert_eq].
    unfold update, set_permitted. simpl.
    by rewrite list_insert_insert_eq, insert_insert_eq.
Qed.

(** X7.  [PermitIf] after [Permit] for the same trigger guards the edge
    that was free: the edge keeps the target of [Permit], the state
    named by [PermitIf] is only registered, and on the current record
    [CanFire] now answers what the guard answers. *)
Theorem PermitIf_guards_permitted c t s s' (p : pred W) st w cfg :
  heap st !! c = Some cfg ->
  ∃ st' cfg',
    (Permit c t s;; PermitIf c t s' p) st w = Done c st' w ∧
    heap st' !! c = Some cfg' ∧
    cfg' = set_permitted (<[Key t := mkEdge t s [p]]> (permitted cfg)) cfg ∧
    is_Some (stateToConfig (machine st') !! s') ∧
    (current (machine st) = Some c ->
     CanFire (Key t) st' w = Done (fst (p w)) st' (snd (p w))).
Proof.
  intros Hc.
  destruct (register_facts s c st w cfg Hc) as (l & st1 & Hreg & Hc1 & Hcur1 & _ & _).
  destruct (PermitIf_after_update c t s' p st1 w cfg
              (set_permitted (<[Key t := mkEdge t s []]> (permitted cfg)) cfg) Hc1)
    as (l' & st2 & Hreg' & Hc2 & Hcur2 & Hrun).
  assert (Hlt : c < length (heap st2)) by (by eapply lookup_lt_Some).
  assert (Hs' : stateToConfig (machine st2) !! s' = Some l').
  { destruct (registerStateConfig_spec _ _ s' st1 w) as (l0 & st0 & Hreg0 & Hs0 & _).
    rewrite Hreg' in Hreg0. by injection Hreg0 as <- <-. }
  eexists _, _. split.
  { rewrite (bind_Done _ _ _ _ _ _ _ _ _ (Permit_run _ _ _ _ _ _ _ _ _ _ Hreg Hc1)).
    exact Hrun. }
  split; [simpl; by apply list_lookup_insert_eq|].
  split.
  { unfold set_permitted. simpl. rewrite lookup_insert_eq. simpl.
    by rewrite insert_insert_eq. }
  split; [by eexists|].
  intros Hcur.
  erewrite CanFire_unfold;
    [|simpl; by rewrite Hcur2, Hcur1|simpl; by apply list_lookup_insert_eq].
  simpl. rewrite !lookup_insert_eq. simpl.
  unfold bind, callPred. by destruct (fst (p w)).
Qed.

(** The edge under [t]'s key after more guards were appended to [val]. *)
Lemma PermitIf_appends c t (qs : list (State * pred W)) :
  ∀ st w cfg val,
    heap st !! c = Some cfg -> permitted cfg !! Key t = Some val ->
    ∃ st', runOps (Ctx:=Ctx) ((fun q => OpPermitIf c t q.1 q.2) <$> qs) st w = Done tt st' w ∧
      current (machine st') = current (machine st) ∧
      heap st' !! c =
        Some (set_permitted
                (<[Key t := mkEdge (edge_trigger val) (edge_state val)
                              (edge_preds val ++ (snd <$> qs))]> (permitted cfg)) cfg).
Proof.
  induction qs as [|[s p] qs IH]; intros st w cfg val Hc Hval.
  - exists st. split; [done|]. split; [done|]. simpl. rewrite app_nil_r, Hc.
    f_equal. destruct val, cfg. unfold set_permitted. simpl in *.
    by rewrite insert_id.
  - destruct (register_facts s c st w cfg Hc) as (l & st1 & Hreg & Hc1 & Hcur1 & _ & _).
    assert (Hlt : c < length (heap st1)) by (by eapply lookup_lt_Some).
    pose (cfg2 := set_permitted
                    (<[Key t := guardedEdge (permitted cfg !! Key t) t s p]>
                       (permitted cfg)) cfg).
    destruct (IH (update st1 c cfg2) w cfg2
                (mkEdge (edge_trigger val) (edge_state val) (edge_preds val ++ [p])))
      as (st' & Hrun & Hcur' & Hc').
    { simpl. by apply list_lookup_insert_eq. }
    { unfold cfg2. simpl. by rewrite lookup_insert_eq, Hval. }
    exists st'. split; [|split].
    + assert (Hstep : void (PermitIf c t s p) st w = Done tt (update st1 c cfg2) w).
      { unfold void.
        by rewrite (bind_Done _ _ _ _ _ _ _ _ _
                      (PermitIf_run _ _ _ _ _ _ _ _ _ _ _ Hreg Hc1)). }
      rewrite fmap_cons. cbn [runOps exec fst snd].
      by rewrite (bind_Done _ _ _ _ _ _ _ _ _ Hstep).
    + rewrite Hcur'. simpl. exact Hcur1.
    + rewrite Hc'. f_equal. unfold cfg2, set_permitted. simpl.
      by rewrite insert_insert_eq, <- app_assoc.
Qed.

(** X8.  Repeated [PermitIf] for one trigger, through a valid handle,
    gathers the guards in call order on one edge.  The edge keeps the
    trigger and target it had, or takes those of the first call when the
    key was free; the states named by later calls are not targets. *)
Theorem PermitIf_accumulates c t s (p : pred W) (qs : list (State * pred W))
    st w cfg :
  heap st !! c = Some cfg ->
  ∃ st', runOps (Ctx:=Ctx) ((fun q => OpPermitIf c t q.1 q.2) <$> ((s, p) :: qs)) st w
           = Done tt st' w ∧
    current (machine st') = current (machine st) ∧
    heap st' !! c =
      Some (set_permitted
              (<[Key t :=
                   match permitted cfg !! Key t with
                   | Some val =>
                       mkEdge (edge_trigger val) (edge_state val)
                         (edge_preds val ++ p :: (snd <$> qs))
                   | None => mkEdge t s (p :: (snd <$> qs))
                   end]> (permitted cfg)) cfg).
Proof.
  intros Hc.
  destruct (permitted cfg !! Key t) as [val|] eqn:Hval.
  - destruct (PermitIf_appends c t ((s, p) :: qs) st w cfg val Hc Hval)
      as (st' & Hrun & Hcur & Hc').
    exists st'. by rewrite Hrun, Hcur, Hc'.
  - destruct (register_facts s c st w cfg Hc) as (l & st1 & Hreg & Hc1 & Hcur1 & _ & _).
    assert (Hlt : c < length (heap st1)) by (by eapply lookup_lt_Some).
    pose (cfg2 := set_permitted (<[Key t := mkEdge t s [p]]> (permitted cfg)) cfg).
    destruct (PermitIf_appends c t qs (update st1 c cfg2) w cfg2 (mkEdge t s [p]))
      as (st' & Hrun & Hcur' & Hc').
    { simpl. by apply list_lookup_insert_eq. }
    { unfold cfg2. simpl. by rewrite lookup_insert_eq. }
    exists st'. split; [|split].
    + assert (Hstep : void (PermitIf c t s p) st w = Done tt (update st1 c cfg2) w).
      { unfold void.
        rewrite (bind_Done _ _ _ _ _ _ _ _ _
                   (PermitIf_run _ _ _ _ _ _ _ _ _ _ _ Hreg Hc1)).
        by rewrite Hval. }
      rewrite fmap_cons. cbn [runOps exec fst snd].
      by rewrite (bind_Done _ _ _ _ _ _ _ _ _ Hstep).
    + rewrite Hcur'. simpl. exact Hcur1.
    + rewrite Hc'. f_equal. unfold cfg2, set_permitted. simpl.
      by rewrite insert_insert_eq.
Qed.

(** ** What [Fire] leaves behind *)

Lemma wf_withCurrent st l :
  wf st -> is_Some (heap st !! l) -> wf (withCurrent st (Some l)).
Proof.
  intros [[Hreg Hheap Hpar Hedge] _] Hl. split; [by split|].
  exists l. by split.
Qed.

Lemma SM_State_run st w l cur :
  current (machine st) = Some l -> heap st !! l = Some cur ->
  SM_State st w = Done (state cur) st w.
Proof. intros Hc Hl. unfold SM_State, bind, getSM, deref, ret. by rewrite Hc, Hl. Qed.

Lemma IsInState_unfold fuel s st w :
  IsInState fuel s st w = isInLoop fuel s (current (machine st)) st w.
Proof. reflexivity. Qed.

(** After [Fire] on a well-formed store, [State] tells the outcome
    and the machine is in the state [State] reports. *)
Lemma State_after_Fire fuel triggerKey ctx st w l cur r st' w' :
  wf st -> current (machine st) = Some l -> heap st !! l = Some cur ->
  Fire fuel triggerKey ctx st w = Done r st' w' ->
  ∃ s, SM_State st' w' = Done s st' w' ∧
    (∀ fuel', IsInState (S fuel') s st' w' = Done true st' w') ∧
    match r with
    | Some _ => s = state cur
    | None => ∃ e, permitted cur !! triggerKey = Some e ∧ s = edge_state e
    end.
Proof.
  intros Hwf Hc Hl Hrun.
  assert (Hin : ∀ st2 l2 cfg2 fuel' w2,
            current (machine st2) = Some l2 -> heap st2 !! l2 = Some cfg2 ->
            IsInState (S fuel') (state cfg2) st2 w2 = Done true st2 w2).
  { intros st2 l2 cfg2 fuel' w2 Hc2 Hl2. unfold IsInState, bind, getSM.
    rewrite Hc2. eapply (isInLoop_ancestor _ _ _ _ 0); [|reflexivity|lia].
    by apply anc_here. }
  apply Fire_inv in Hrun
    as [(-> & -> & _)|(-> & l0 & cur0 & e & tl & target & w1 &
                        Hc0 & Hl0 & He & Htl & Ht & _ & ->)].
  - exists (state cur). split; [by apply SM_State_run with l|].
    split; [|done]. intros fuel'. by apply Hin with l.
  - assert (l0 = l) as -> by congruence.
    assert (cur0 = cur) as -> by congruence.
    destruct (cons_registry _ _ _ (proj1 Hwf) _ _ Htl) as (c' & Hc' & Hst).
    assert (c' = target) as -> by congruence.
    exists (edge_state e). rewrite <- Hst. split; [by apply SM_State_run with tl|].
    split; [|by exists e]. intros fuel'. by apply Hin with tl.
Qed.

(** X11.  Entering a direct substate defers the exit of the state that
    is left: no exit hook is called then, and when the machine next
    leaves the substate for a state that is not a direct substate of it,
    the exit hooks of the substate, of the state left earlier and of that
    state's ancestors are called, in this order. *)
Theorem Fire_substate_defers_exit fuel k1 k2 ctx1 ctx2 st w w1 w2
    l cur e1 tl tg e2 tl2 tg2 cs :
  wf st -> current (machine st) = Some l -> heap st !! l = Some cur ->
  permitted cur !! k1 = Some e1 ->
  stateToConfig (machine st) !! edge_state e1 = Some tl ->
  heap st !! tl = Some tg -> parent tg = Some l ->
  CanFire k1 st w = Done true st w1 ->
  permitted tg !! k2 = Some e2 ->
  stateToConfig (machine st) !! edge_state e2 = Some tl2 ->
  heap st !! tl2 = Some tg2 -> directSubstate (heap st) tg2 tg = false ->
  CanFire k2 (withCurrent st (Some tl))
    (runHooks (entryHooks tg (mkTrigger k1) ctx1) w1)
    = Done true (withCurrent st (Some tl)) w2 ->
  chain (heap st) (Some l) cs -> S (length cs) ≤ fuel ->
  Fire fuel k1 ctx1 st w =
    Done None (withCurrent st (Some tl))
      (runHooks (entryHooks tg (mkTrigger k1) ctx1) w1) ∧
  (Fire fuel k1 ctx1;; Fire fuel k2 ctx2) st w =
    Done None (withCurrent st (Some tl2))
      (runHooks (exitHooks (tg :: cur :: drop 1 cs)
                   ++ entryHooks tg2 (mkTrigger k2) ctx2) w2).
Proof.
  intros Hwf Hc Hl He1 Htl Htg Hpar Hcan1 He2 Htl2 Htg2 Hnot Hcan2 Hch Hfuel.
  assert (Hcs : cs = cur :: drop 1 cs).
  { inversion Hch as [|l' c' cs' Hl' _]; subst. simpl. rewrite drop_0. congruence. }
  destruct (Fire_wf_run _ _ fuel k1 ctx1 st w w1 l cur e1 Hwf Hc Hl He1 Hcan1)
    as (tl' & tg' & Htl' & Htg' & _ & _ & Hdirect & _).
  assert (tl' = tl) as -> by congruence.
  assert (tg' = tg) as -> by congruence.
  assert (Hfirst : Fire fuel k1 ctx1 st w =
            Done None (withCurrent st (Some tl))
              (runHooks (entryHooks tg (mkTrigger k1) ctx1) w1)).
  { apply Hdirect. unfold directSubstate. rewrite Hpar, Hl.
    by apply bool_decide_eq_true. }
  split; [done|].
  rewrite (bind_Done _ _ _ _ _ _ _ _ _ Hfirst).
  destruct (Fire_wf_run _ _ fuel k2 ctx2 (withCurrent st (Some tl)) _ w2 tl tg e2
              (wf_withCurrent st tl Hwf (mk_is_Some _ _ Htg))
              eq_refl Htg He2 Hcan2)
    as (tl3 & tg3 & Htl3 & Htg3 & _ & _ & _ & Hwalk).
  simpl in Htl3, Htg3.
  assert (tl3 = tl2) as -> by congruence.
  assert (tg3 = tg2) as -> by congruence.
  rewrite (Hwalk Hnot (tg :: cs)); [by rewrite <- Hcs| |simpl; lia].
  simpl. eapply chain_cons; [done|]. by rewrite Hpar.
Qed.

(** After a [Fire] into a direct substate the machine is in the
    substate and still in every state it was in before. *)
Lemma IsInState_after_substate fuel triggerKey ctx st w l cur e tl tg st' w' :
  wf st -> current (machine st) = Some l -> heap st !! l = Some cur ->
  permitted cur !! triggerKey = Some e ->
  stateToConfig (machine st) !! edge_state e = Some tl ->
  heap st !! tl = Some tg -> parent tg = Some l ->
  Fire fuel triggerKey ctx st w = Done None st' w' ->
  (∀ fuel', IsInState (S fuel') (edge_state e) st' w' = Done true st' w') ∧
  (∀ k cfg fuel', ancestor (heap st) (Some l) k cfg -> S k < fuel' ->
     IsInState fuel' (state cfg) st' w' = Done true st' w').
Proof.
  intros Hwf Hc Hl He Htl Htg Hpar Hrun.
  apply Fire_inv in Hrun
    as [(Hr & _)|(_ & l0 & cur0 & e0 & tl0 & target & w1 &
                   Hc0 & Hl0 & He0 & Htl0 & Ht & _ & ->)]; [discriminate|].
  assert (l0 = l) as -> by congruence.
  assert (cur0 = cur) as -> by congruence.
  assert (e0 = e) as -> by congruence.
  assert (tl0 = tl) as -> by congruence.
  destruct (cons_registry _ _ _ (proj1 Hwf) _ _ Htl) as (c' & Hc' & Hst).
  assert (c' = tg) as -> by congruence.
  split.
  - intros fuel'. rewrite <- Hst. rewrite IsInState_unfold. cbn [withCurrent machine current].
    eapply (isInLoop_ancestor _ _ _ _ 0); [|reflexivity|lia]. by apply anc_here.
  - intros k cfg fuel' Hanc Hfuel. rewrite IsInState_unfold. cbn [withCurrent machine current].
    eapply (isInLoop_ancestor _ _ _ _ (S k)); [|reflexivity|lia].
    eapply anc_up; [done|]. by rewrite Hpar.
Qed.

(** After a [Fire] into a state that has no parent the machine is in
    the target state and in no other. *)
Lemma IsInState_after_root fuel triggerKey ctx st w l cur e tl tg st' w' :
  wf st -> current (machine st) = Some l -> heap st !! l = Some cur ->
  permitted cur !! triggerKey = Some e ->
  stateToConfig (machine st) !! edge_state e = Some tl ->
  heap st !! tl = Some tg -> parent tg = None ->
  Fire fuel triggerKey ctx st w = Done None st' w' ->
  ∀ fuel' s,
    IsInState (S fuel') s st' w' = Done (bool_decide (s = edge_state e)) st' w'.
Proof.
  intros Hwf Hc Hl He Htl Htg Hpar Hrun.
  apply Fire_inv in Hrun
    as [(Hr & _)|(_ & l0 & cur0 & e0 & tl0 & target & w1 &
                   Hc0 & Hl0 & He0 & Htl0 & Ht & _ & ->)]; [discriminate|].
  assert (l0 = l) as -> by congruence.
  assert (cur0 = cur) as -> by congruence.
  assert (e0 = e) as -> by congruence.
  assert (tl0 = tl) as -> by congruence.
  destruct (cons_registry _ _ _ (proj1 Hwf) _ _ Htl) as (c' & Hc' & Hst).
  assert (c' = tg) as -> by congruence.
  intros fuel' s. rewrite IsInState_unfold. cbn [withCurrent machine current].
  assert (Hch : chain (heap (withCurrent st (Some tl))) (Some tl) [tg]).
  { eapply chain_cons; [done|]. rewrite Hpar. apply chain_nil. }
  rewrite (isInLoop_chain _ _ _ _ _ Hch (S fuel') s _ w' eq_refl)
    by (simpl; lia).
  f_equal. apply bool_decide_ext. rewrite <- Hst. simpl.
  rewrite list_elem_of_singleton. done.
Qed.

(** ** No nil pointer on a store built through the package *)

Lemma exitLoop_safe st :
  consistent st ->
  ∀ fuel p w, (∀ l, p = Some l -> is_Some (heap st !! l)) ->
    (∃ w', exitLoop fuel p st w = Done tt st w') ∨
    exitLoop fuel p st w = Diverge.
Proof.
  intros Hcons fuel. induction fuel as [|fuel IH]; intros [l|] w Hp;
    simpl; eauto.
  destruct (Hp l eq_refl) as [cfg Hl].
  unfold bind, deref. rewrite Hl.
  assert (Hnext : ∀ q, parent cfg = Some q -> is_Some (heap st !! q))
    by (intros q; by apply (cons_parent _ _ _ Hcons _ _ _ Hl)).
  destruct (onExit cfg); unfold callHook, ret; by apply IH.
Qed.

Lemma isInLoop_safe st s :
  consistent st ->
  ∀ fuel p w, (∀ l, p = Some l -> is_Some (heap st !! l)) ->
    (∃ b, isInLoop fuel s p st w = Done b st w) ∨
    isInLoop fuel s p st w = Diverge.
Proof.
  intros Hcons fuel. induction fuel as [|fuel IH]; intros [l|] w Hp;
    simpl; eauto.
  destruct (Hp l eq_refl) as [cfg Hl].
  unfold bind, deref. rewrite Hl.
  case_bool_decide; [by eauto|]. apply IH.
  intros q. by apply (cons_parent _ _ _ Hcons _ _ _ Hl).
Qed.

Lemma Fire_safe fuel triggerKey ctx st w :
  wf st -> Fire fuel triggerKey ctx st w ≠ Panic.
Proof.
  intros [Hcons (l & Hc & [cur Hl])] Hrun.
  destruct (CanFire_total _ _ triggerKey st w l cur Hc Hl) as (b & w0 & Hcan).
  unfold Fire in Hrun. rewrite (bind_Done _ _ _ _ _ _ _ _ _ Hcan) in Hrun.
  destruct b; [change (negb true) with false in Hrun|done]. cbv iota in Hrun.
  rewrite (bind_Done _ _ _ _ st w0 (machine st) st w0) in Hrun by done.
  rewrite Hc, (bind_Done _ _ _ _ _ _ _ _ _ (deref_Some _ _ _ _ _ _ Hl)) in Hrun.
  destruct (permitted cur !! triggerKey) as [e|] eqn:He.
  2: { rewrite (CanFire_unfold _ _ _ _ _ _ _ Hc Hl), He in Hcan. discriminate. }
  rewrite (bind_Done _ _ _ _ st w0 e st w0) in Hrun by done.
  destruct (cons_edge _ _ _ Hcons _ _ _ _ Hl He) as [_ [tl Htl]].
  destruct (cons_registry _ _ _ Hcons _ _ Htl) as (target & Ht & _).
  rewrite Htl, (bind_Done _ _ _ _ _ _ _ _ _ (deref_Some _ _ _ _ _ _ Ht)) in Hrun.
  cbv zeta in Hrun.
  assert (Hwalk : ∃ walk : bool,
            match parent target with
            | Some _ =>
                let* tp := deref (parent target) in
                ret (bool_decide (state tp ≠ state cur))
            | None => ret true
            end st w0 = Done walk st w0).
  { destruct (parent target) as [q|] eqn:Hq; [|by eexists].
    destruct (cons_parent _ _ _ Hcons _ _ _ Ht Hq) as [tp Htp].
    eexists. by rewrite (bind_Done _ _ _ _ _ _ _ _ _ (deref_Some _ _ _ _ _ _ Htp)). }
  destruct Hwalk as [walk Hwalk].
  rewrite (bind_Done _ _ _ _ _ _ _ _ _ Hwalk) in Hrun.
  assert (Hexit : (∃ w2, (if walk then exitLoop fuel (Some l) else ret tt) st w0
                           = Done tt st w2) ∨
                  (if walk then exitLoop fuel (Some l) else ret tt) st w0 = Diverge).
  { destruct walk; [|by left; eexists].
    apply exitLoop_safe; [done|]. intros l0 [= <-]. by eexists. }
  destruct Hexit as [[w2 Hexit]|Hexit].
  - rewrite (bind_Done _ _ _ _ _ _ _ _ _ Hexit) in Hrun.
    rewrite (bind_Done _ _ _ _ st w2 tt (withCurrent st (Some tl)) w2) in Hrun by done.
    unfold bind, getSM, deref in Hrun. simpl in Hrun. rewrite Ht in Hrun.
    unfold callHook, ret in Hrun.
    by destruct (onEnterFrom target !! edge_trigger e), (onEnter target).
  - unfold bind at 1 in Hrun. by rewrite Hexit in Hrun.
Qed.

(** On a store built with world functions as closures, no call of the
    engine dereferences a nil pointer. *)
Lemma engine_safe initial st w :
  reachable initial st ->
  (∀ fuel triggerKey ctx, Fire fuel triggerKey ctx st w ≠ Panic) ∧
  (∀ triggerKey, ∃ b w', CanFire triggerKey st w = Done b st w') ∧
  (∀ fuel s, IsInState fuel s st w ≠ Panic) ∧
  (∃ s, SM_State st w = Done s st w).
Proof.
  intros Hreach. pose proof (reachable_wf _ _ _ _ Hreach) as Hwf.
  pose proof Hwf as [Hcons (l & Hc & [cur Hl])].
  split; [|split; [|split]].
  - intros fuel k ctx. by apply Fire_safe.
  - intros k. by eapply CanFire_total.
  - intros fuel s. rewrite IsInState_unfold, Hc.
    destruct (isInLoop_safe st s Hcons fuel (Some l) w) as [[b ->]| ->]; try done.
    intros l0 [= <-]. by eexists.
  - exists (state cur). by eapply SM_State_run.
Qed.

(** X15.  Configuring never reaches past its handle: a call of
    [Configure] or of a method of [StateConfig] that returns calls no
    closure, leaves the current pointer alone, leaves every record other
    than the one behind its handle exactly as it was, and keeps every
    registration. *)
Theorem config_calls_frame (o : op W Ctx) st w st' w' :
  isConfigCall o = true ->
  exec o st w = Done tt st' w' ->
  w' = w ∧
  current (machine st') = current (machine st) ∧
  (∀ l cfg, handleOf o ≠ Some l -> heap st !! l = Some cfg ->
     heap st' !! l = Some cfg) ∧
  (∀ s l, stateToConfig (machine st) !! s = Some l ->
     stateToConfig (machine st') !! s = Some l).
Proof.
  intros Hconf Hexec.
  assert (Hreg : ∀ s l st1 w1, registerStateConfig s st w = Done l st1 w1 ->
            w1 = w ∧ current (machine st1) = current (machine st) ∧
            (∀ l0 cfg, heap st !! l0 = Some cfg -> heap st1 !! l0 = Some cfg) ∧
            (∀ s0 l0, stateToConfig (machine st) !! s0 = Some l0 ->
               stateToConfig (machine st1) !! s0 = Some l0)).
  { intros s l st1 w1 Hrun.
    destruct (registerStateConfig_spec _ _ s st w)
      as (l' & st1' & Hrun' & _ & Hcur & [Hext _] & Hkeep & _).
    rewrite Hrun' in Hrun. by injection Hrun as <- <- <-. }
  assert (Hstore : ∀ c x st1 l cfg, c ≠ l -> heap st1 !! l = Some cfg ->
            heap (update st1 c x) !! l = Some cfg).
  { intros c x st1 l cfg Hne Hl. simpl. by rewrite list_lookup_insert_ne. }
  destruct o as [s|c t s|c t s p|c f|c t f|c f|c s|fuel k ctx|k|fuel s|];
    try discriminate Hconf; simpl in Hexec;
    apply void_inv in Hexec as [a Hrun]; simpl handleOf.
  - unfold Configure in Hrun.
    destruct (Hreg _ _ _ _ Hrun) as (-> & Hcur & Hkeep & Hext).
    split; [done|]. split; [done|]. split; [|done]. intros l0 cfg0 _. apply Hkeep.
  - apply (registered_setter_inv _ _ s c (fun _ cfg =>
             set_permitted (<[Key t := mkEdge t s []]> (permitted cfg)) cfg))
      in Hrun as (l & st1 & cfg & Hr & Hc & _ & -> & ->).
    destruct (Hreg _ _ _ _ Hr) as (_ & Hcur & Hkeep & Hext).
    split; [done|]. split; [done|]. split; [|done]. intros l0 cfg0 Hne Hl0.
    apply (Hstore c _ st1); [congruence|by apply Hkeep].
  - apply PermitIf_inv in Hrun as (l & st1 & cfg & Hr & Hc & _ & -> & ->).
    destruct (Hreg _ _ _ _ Hr) as (_ & Hcur & Hkeep & Hext).
    split; [done|]. split; [done|]. split; [|done]. intros l0 cfg0 Hne Hl0.
    apply (Hstore c _ st1); [congruence|by apply Hkeep].
  - apply setter_inv in Hrun as (cfg & Hc & _ & -> & ->).
    split; [done|]. split; [done|]. split; [|done]. intros l0 cfg0 Hne Hl0.
    apply (Hstore c _ st); [congruence|done].
  - apply setter_inv in Hrun as (cfg & Hc & _ & -> & ->).
    split; [done|]. split; [done|]. split; [|done]. intros l0 cfg0 Hne Hl0.
    apply (Hstore c _ st); [congruence|done].
  - apply setter_inv in Hrun as (cfg & Hc & _ & -> & ->).
    split; [done|]. split; [done|]. split; [|done]. intros l0 cfg0 Hne Hl0.
    apply (Hstore c _ st); [congruence|done].
  - apply (registered_setter_inv _ _ s c (fun l cfg => set_parent (Some l) cfg))
      in Hrun as (l & st1 & cfg & Hr & Hc & _ & -> & ->).
    destruct (Hreg _ _ _ _ Hr) as (_ & Hcur & Hkeep & Hext).
    split; [done|]. split; [done|]. split; [|done]. intros l0 cfg0 Hne Hl0.
    apply (Hstore c _ st1); [congruence|by apply Hkeep].
Qed.

End Composition.

(** * The example program, against machines written directly *)

Lemma OnOff_iteration fuel text isOn out :
  OnOff.iteration (S fuel) text (OnOff.storeAt isOn) out =
    Done tt (OnOff.storeAt (fst (OnOff.switchStep (isOn, out) text)))
      (snd (OnOff.switchStep (isOn, out) text)).
Proof.
  unfold OnOff.switchStep. destruct (String.eqb text " ") eqn:Htext.
  - apply String.eqb_eq in Htext as ->.
    destruct isOn, fuel; vm_compute; reflexivity.
  - apply String.eqb_neq in Htext.
    pose (cur := default (NewStateConfig OnOff.off)
                   (heap (OnOff.storeAt isOn) !! (if isOn then 1 else 0))).
    assert (Hc : current (machine (OnOff.storeAt isOn))
                 = Some (if isOn then 1 else 0)) by reflexivity.
    assert (Hl : heap (OnOff.storeAt isOn) !! (if isOn then 1 else 0) = Some cur)
      by (by destruct isOn).
    assert (Hname : Name (state cur) = OnOff.switchName isOn) by (by destruct isOn).
    assert (Hnone : permitted cur !! text = None).
    { destruct isOn; simpl; by apply lookup_singleton_ne. }
    assert (Hfire : ∀ w, Fire (S fuel) text tt (OnOff.storeAt isOn) w
                         = Done errUnsupported (OnOff.storeAt isOn) w).
    { intros w. apply Fire_denied.
      by rewrite (CanFire_unfold _ _ _ _ _ _ _ Hc Hl), Hnone. }
    unfold OnOff.iteration.
    rewrite (bind_Done _ _ _ _ _ _ _ _ _
               (SM_State_run _ _ (OnOff.storeAt isOn) out _ cur Hc Hl)).
    rewrite Hname. unfold bind, callHook. rewrite Hfire. reflexivity.
Qed.

(** X16.  [OnOffExample] is a switch: [setup] builds the machine in
    [off], and for every sequence of lines the loop leaves the machine
    and the standard output exactly where a two-position switch does
    that toggles on a line holding one space and reports
    ["unsupported trigger"] on any other line. *)
Theorem OnOff_is_a_switch fuel texts :
  (∀ out, OnOff.setup emptyStore out = Done tt (OnOff.storeAt false) out) ∧
  ∀ isOn out,
    OnOff.loop (S fuel) texts (OnOff.storeAt isOn) out =
      Done tt (OnOff.storeAt (fst (foldl OnOff.switchStep (isOn, out) texts)))
        (snd (foldl OnOff.switchStep (isOn, out) texts)).
Proof.
  split; [intros out; vm_compute; reflexivity|].
  induction texts as [|text texts IH]; intros isOn out; [reflexivity|].
  cbn [OnOff.loop foldl].
  rewrite (bind_Done _ _ _ _ _ _ _ _ _ (OnOff_iteration fuel text isOn out)).
  destruct (OnOff.switchStep (isOn, out) text) as [isOn1 out1]. apply IH.
Qed.

Lemma BugTracker_perform fuel a ph b :
  BugTracker.perform (S (S fuel)) a (BugTracker.storeAt ph) b =
    Done tt (BugTracker.storeAt (fst (BugTracker.trackerStep (ph, b) a)))
      (snd (BugTracker.trackerStep (ph, b) a)).
Proof. destruct ph, a, fuel; vm_compute; reflexivity. Qed.

(** X17.  [Bug] is a three-phase tracker: [NewBug] builds the machine in
    [Open] with the given title and no assignee, and for every sequence
    of [Assign] and [Close] calls the machine, the assignee and the
    standard output end where a tracker written directly ends.  In
    particular the type assertion of the assign hook never fails, and
    [State] reports the tracker's phase. *)
Theorem BugTracker_is_a_tracker fuel acts :
  (∀ title b,
     BugTracker.NewBug title emptyStore b =
       Done tt (BugTracker.storeAt BugTracker.IsOpen)
         (BugTracker.mkWorld title "" (BugTracker.stdout b)
            (BugTracker.assertionFailed b))) ∧
  ∀ ph b,
    BugTracker.performAll (S (S fuel)) acts (BugTracker.storeAt ph) b =
      Done tt
        (BugTracker.storeAt (fst (foldl BugTracker.trackerStep (ph, b) acts)))
        (snd (foldl BugTracker.trackerStep (ph, b) acts)) ∧
    BugTracker.assertionFailed (snd (foldl BugTracker.trackerStep (ph, b) acts))
      = BugTracker.assertionFailed b ∧
    BugTracker.Title (snd (foldl BugTracker.trackerStep (ph, b) acts))
      = BugTracker.Title b ∧
    SM_State
      (BugTracker.storeAt (fst (foldl BugTracker.trackerStep (ph, b) acts)))
      b
      = Done (BugTracker.phaseState (fst (foldl BugTracker.trackerStep (ph, b) acts)))
          (BugTracker.storeAt (fst (foldl BugTracker.trackerStep (ph, b) acts))) b.
Proof.
  split; [intros title b; vm_compute; reflexivity|].
  induction acts as [|a acts IH]; intros ph b.
  - split; [reflexivity|]. split; [reflexivity|]. split; [reflexivity|].
    by destruct ph.
  - cbn [BugTracker.performAll foldl].
    rewrite (bind_Done _ _ _ _ _ _ _ _ _ (BugTracker_perform fuel a ph b)).
    destruct (BugTracker.trackerStep (ph, b) a) as [ph1 b1] eqn:Hstep.
    cbn [fst snd].
    destruct (IH ph1 b1) as (Hrun & Hfail & Htitle & Hstate).
    split; [done|].
    assert (Hkeep : BugTracker.assertionFailed b1 = BugTracker.assertionFailed b ∧
                    BugTracker.Title b1 = BugTracker.Title b).
    { destruct ph, a; simpl in Hstep; injection Hstep as <- <-; by split. }
    destruct Hkeep as [Hk1 Hk2].
    split; [congruence|]. split; [congruence|].
    by destruct (fst (foldl BugTracker.trackerStep (ph1, b1) acts)).
Qed.

(** [BugExample]: what the program prints. *)
Example BugExample_prints :
  match BugTracker.BugExample 2 emptyStore (BugTracker.mkWorld "" "" [] false) with
  | Done _ _ b => Some (BugTracker.stdout b)
  | _ => None
  end =
  Some ["Sending Email => frank - bad bug assigned to you" ++ newline;
        "Sending Email => frank - bad bug has been unassigned from you" ++ newline;
        "Sending Email => joe - bad bug assigned to you" ++ newline;
        "Sending Email => joe - bad bug has been unassigned from you" ++ newline;
        "Sending Email => joe - bad bug has been closed" ++ newline]%string.
Proof. vm_compute. reflexivity. Qed.

(** * The further properties on the scenarios *)

Lemma inS2_wf : wf inS2.
Proof.
  apply (runOps_wf World nat s1 substatesOps w0 _ (mkWorld false ["s1exit"; "s2enter"])).
  vm_compute. reflexivity.
Qed.

Lemma SubstateOf_one_parent_witness :
  ∃ st', SubstateOf 0 s2 (storeOf reentry) w0 = Done 0 st' w0 ∧
    IsInState 2 s2 st' w0 = Done true st' w0.
Proof.
  destruct (SubstateOf_one_parent World nat 0 s2 s2 (storeOf reentry) w0
              (cfgAt (storeOf reentry) 0) eq_refl) as [_ H].
  destruct (H reentry_wf eq_refl) as (st' & Hrun & Hin).
  exists st'. split; [exact Hrun|exact (Hin 0)].
Defined.

Lemma Permit_then_CanFire_witness :
  ∃ st', Permit 0 tr1 s2 (storeOf reentry) w0 = Done 0 st' w0 ∧
    CanFire "tr1" st' w0 = Done true st' w0.
Proof.
  destruct (Permit_then_CanFire World nat 0 tr1 s2 (storeOf reentry) w0
              (cfgAt (storeOf reentry) 0) eq_refl eq_refl)
    as (st' & Hrun & Hcan & _).
  exists st'. split; [exact Hrun|exact Hcan].
Defined.

Lemma Permit_overrides_witness :
  (PermitIf 0 tr1 s2 guardAllow;; Permit 0 tr1 s3) (storeOf reentry) w0 =
    (registerStateConfig s2;; Permit 0 tr1 s3) (storeOf reentry) w0.
Proof.
  exact (proj2 (Permit_overrides World nat 0 tr1 s2 s3 guardAllow
                  (storeOf reentry) w0 (cfgAt (storeOf reentry) 0) eq_refl)).
Defined.

Lemma PermitIf_guards_permitted_witness :
  ∃ st', (Permit 0 tr1 s2;; PermitIf 0 tr1 s3 guardAllow) (storeOf reentry) w0
           = Done 0 st' w0 ∧
    CanFire "tr1" st' w0 = Done false st' w0.
Proof.
  destruct (PermitIf_guards_permitted World nat 0 tr1 s2 s3 guardAllow
              (storeOf reentry) w0 (cfgAt (storeOf reentry) 0) eq_refl)
    as (st' & cfg' & Hrun & _ & _ & _ & Hcan).
  exists st'. split; [exact Hrun|exact (Hcan eq_refl)].
Defined.

Lemma PermitIf_accumulates_witness :
  ∃ st', runOps [OpPermitIf 0 tr1 s2 (guardSays "g1" false);
                 OpPermitIf 0 tr1 s3 (guardSays "g2" true);
                 OpPermitIf 0 tr1 s4 (guardSays "g3" true)]
           (storeOf (NewStateMachine s1)) w0 = Done tt st' w0 ∧
    heap st' !! 0 =
      Some (mkStateConfig None ∅ None s1 None
              {["tr1" := mkEdge tr1 s2
                           [guardSays "g1" false; guardSays "g2" true;
                            guardSays "g3" true]]}).
Proof.
  destruct (PermitIf_accumulates World nat 0 tr1 s2 (guardSays "g1" false)
              [(s3, guardSays "g2" true); (s4, guardSays "g3" true)]
              (storeOf (NewStateMachine s1)) w0
              (cfgAt (storeOf (NewStateMachine s1)) 0) eq_refl)
    as (st' & Hrun & _ & Hc).
  exists st'. split; [exact Hrun|exact Hc].
Defined.

Lemma Fire_substate_defers_exit_witness :
  (Fire 5 "tr2" 0;; Fire 5 "tr3" 0) inS2 w0 =
    Done None (withCurrent inS2 (Some 3))
      (mkWorld false ["s3enter"; "s3exit"; "s2exit"; "s4enter"]).
Proof.
  pose (cur := cfgAt inS2 1). pose (tg := cfgAt inS2 2).
  assert (Hch : chain (heap inS2) (Some 1) [cur]).
  { apply (chain_cons _ 1 cur []); [reflexivity|]. exact (chain_nil _). }
  exact (proj2 (Fire_substate_defers_exit World nat 5 "tr2" "tr3" 0 0 inS2
                  w0 w0 (mkWorld false ["s3enter"]) 1 cur (edgeAt cur "tr2") 2 tg
                  (edgeAt tg "tr3") 3 (cfgAt inS2 3) [cur]
                  inS2_wf eq_refl eq_refl eq_refl eq_refl eq_refl eq_refl
                  eq_refl eq_refl eq_refl eq_refl eq_refl eq_refl Hch
                  ltac:(simpl; lia))).
Defined.

Lemma config_calls_frame_witness :
  heap (storeOf (nested;; Permit 0 tr2 s4;; ret tt)) !! 1 =
    Some (cfgAt (storeOf nested) 1).
Proof.
  assert (Hexec : exec (OpPermit 0 tr2 s4) (storeOf nested) w0 =
                  Done tt (storeOf (nested;; Permit 0 tr2 s4;; ret tt)) w0)
    by (vm_compute; reflexivity).
  destruct (config_calls_frame World nat (OpPermit 0 tr2 s4) (storeOf nested) w0
              _ _ eq_refl Hexec) as (_ & _ & Hkeep & _).
  apply Hkeep; [simpl; congruence|reflexivity].
Defined.

(** * Closures that reach the machine *)

Section ReentrantProofs.
Variables (W Ctx Hook HookFrom Pred : Type).
Implicit Types (E : Reentrant.Env W Ctx Hook HookFrom Pred).
Implicit Types (st : Reentrant.Store Hook HookFrom Pred) (w : W).
Implicit Types (cfg cur target : Reentrant.StateConfig Hook HookFrom Pred).
Implicit Types (e : Reentrant.edge Pred) (l : loc) (s : State).

Lemma Reentrant_bind_Done {A B}
    (m : Reentrant.M W Hook HookFrom Pred A)
    (k : A -> Reentrant.M W Hook HookFrom Pred B) st w a st' w' :
  m st w = Reentrant.Done a st' w' -> Reentrant.bind m k st w = k a st' w'.
Proof. intros H. unfold Reentrant.bind. by rewrite H. Qed.

Lemma Reentrant_deref_Some st w l cfg :
  Reentrant.heap st !! l = Some cfg ->
  Reentrant.deref (Some l) st w = Reentrant.Done cfg st w.
Proof. intros H. unfold Reentrant.deref. by rewrite H. Qed.

(** ** The entry steps of [Fire] *)

Lemma Fire_entry_run E fuel triggerKey ctx st w st1 w1 l cur e tl0 target0
    walk st2 w2 tl target :
  Reentrant.CanFire E triggerKey st w = Reentrant.Done true st1 w1 ->
  current (Reentrant.machine st1) = Some l ->
  Reentrant.heap st1 !! l = Some cur ->
  Reentrant.permitted cur !! triggerKey = Some e ->
  stateToConfig (Reentrant.machine st1) !! Reentrant.edge_state e = Some tl0 ->
  Reentrant.heap st1 !! tl0 = Some target0 ->
  Reentrant.walks (Reentrant.heap st1) target0 cur = Some walk ->
  Reentrant.exitPhase E fuel walk l st1 w1 = Reentrant.Done tt st2 w2 ->
  stateToConfig (Reentrant.machine st2) !! Reentrant.edge_state e = Some tl ->
  Reentrant.heap st2 !! tl = Some target ->
  Reentrant.Fire E fuel triggerKey ctx st w =
    (Reentrant.enterFromStep E target (Reentrant.edge_trigger e) ctx;!
     Reentrant.enterStep E;!
     Reentrant.ret None) (Reentrant.withCurrent st2 (Some tl)) w2.
Proof.
  intros Hcan Hc Hl He Htl0 Ht0 Hwalk Hexit Htl Ht.
  unfold Reentrant.Fire.
  rewrite (Reentrant_bind_Done _ _ _ _ _ _ _ Hcan).
  change (negb true) with false. cbv iota.
  rewrite (Reentrant_bind_Done _ _ st1 w1 (Reentrant.machine st1) st1 w1) by done.
  rewrite Hc, (Reentrant_bind_Done _ _ _ _ _ _ _ (Reentrant_deref_Some _ _ _ _ Hl)).
  rewrite He.
  rewrite (Reentrant_bind_Done _ _ st1 w1 e st1 w1) by done.
  rewrite Htl0, (Reentrant_bind_Done _ _ _ _ _ _ _ (Reentrant_deref_Some _ _ _ _ Ht0)).
  cbv zeta.
  assert (Hw : match Reentrant.parent target0 with
               | Some _ =>
                   let! tp := Reentrant.deref (Reentrant.parent target0) in
                   Reentrant.ret (bool_decide (Reentrant.state tp ≠ Reentrant.state cur))
               | None => Reentrant.ret true
               end st1 w1 = Reentrant.Done walk st1 w1).
  { unfold Reentrant.walks in Hwalk.
    destruct (Reentrant.parent target0) as [p|]; [|by injection Hwalk as <-].
    destruct (Reentrant.heap st1 !! p) as [tp|] eqn:Hp; [|done].
    injection Hwalk as <-.
    by rewrite (Reentrant_bind_Done _ _ _ _ _ _ _ (Reentrant_deref_Some _ _ _ _ Hp)). }
  rewrite (Reentrant_bind_Done _ _ _ _ _ _ _ Hw).
  change (if walk then Reentrant.exitLoop E fuel (Some l) else Reentrant.ret tt)
    with (Reentrant.exitPhase E fuel walk l).
  rewrite (Reentrant_bind_Done _ _ _ _ _ _ _ Hexit).
  rewrite (Reentrant_bind_Done _ _ st2 w2 (Reentrant.machine st2) st2 w2) by done.
  rewrite Htl.
  rewrite (Reentrant_bind_Done _ _ st2 w2 tt (Reentrant.withCurrent st2 (Some tl)) w2) by done.
  rewrite (Reentrant_bind_Done _ _ (Reentrant.withCurrent st2 (Some tl)) w2
             (Reentrant.machine (Reentrant.withCurrent st2 (Some tl)))
             (Reentrant.withCurrent st2 (Some tl)) w2) by done.
  cbn [Reentrant.withCurrent Reentrant.machine current].
  rewrite (Reentrant_bind_Done _ _ (Reentrant.withCurrent st2 (Some tl)) w2 target
             (Reentrant.withCurrent st2 (Some tl)) w2)
    by (by apply Reentrant_deref_Some).
  unfold Reentrant.enterFromStep, Reentrant.enterStep, Reentrant.bind.
  destruct (match Reentrant.onEnterFrom target !! Reentrant.edge_trigger e with
            | Some enterFrom => Reentrant.callHookFrom E enterFrom ctx
            | None => Reentrant.ret tt
            end (Reentrant.withCurrent st2 (Some tl)) w2) as [[] st3 w3| |]; [|done..].
  unfold Reentrant.getSM.
  by destruct (Reentrant.deref (current (Reentrant.machine st3)) st3 w3).
Qed.

(** X18.  The entry steps of a permitted [Fire], whatever the closures
    do.  When the guards have answered true and the exit phase has
    returned, [current] is set to the record registered for the edge's
    target, and on that store the enter-from hook this record holds for
    the edge's trigger is called with [ctx]: nothing when the map has no
    entry for that trigger, whatever it holds for other triggers, and a
    panic when the entry is a nil [func].  The enter hook called next is
    the one of the record that is current when the enter-from hook has
    returned: the target's own when that hook left the machine alone. *)
Theorem Fire_entry_steps E fuel triggerKey ctx st w st1 w1 l cur e tl0 target0
    walk st2 w2 tl target :
  Reentrant.CanFire E triggerKey st w = Reentrant.Done true st1 w1 ->
  current (Reentrant.machine st1) = Some l ->
  Reentrant.heap st1 !! l = Some cur ->
  Reentrant.permitted cur !! triggerKey = Some e ->
  stateToConfig (Reentrant.machine st1) !! Reentrant.edge_state e = Some tl0 ->
  Reentrant.heap st1 !! tl0 = Some target0 ->
  Reentrant.walks (Reentrant.heap st1) target0 cur = Some walk ->
  Reentrant.exitPhase E fuel walk l st1 w1 = Reentrant.Done tt st2 w2 ->
  stateToConfig (Reentrant.machine st2) !! Reentrant.edge_state e = Some tl ->
  Reentrant.heap st2 !! tl = Some target ->
  let entered := Reentrant.withCurrent st2 (Some tl) in
  Reentrant.Fire E fuel triggerKey ctx st w =
    (Reentrant.enterFromStep E target (Reentrant.edge_trigger e) ctx;!
     Reentrant.enterStep E;!
     Reentrant.ret None) entered w2 ∧
  (∀ st3 w3 l3 cur3,
     Reentrant.enterFromStep E target (Reentrant.edge_trigger e) ctx entered w2
       = Reentrant.Done tt st3 w3 ->
     current (Reentrant.machine st3) = Some l3 ->
     Reentrant.heap st3 !! l3 = Some cur3 ->
     Reentrant.Fire E fuel triggerKey ctx st w =
       match Reentrant.onEnter cur3 with
       | Some f => (Reentrant.callHook E f;! Reentrant.ret None) st3 w3
       | None => Reentrant.Done None st3 w3
       end) ∧
  (∀ f, Reentrant.onEnterFrom target !! Reentrant.edge_trigger e = Some (Some f) ->
     Reentrant.Fire E fuel triggerKey ctx st w =
       (Reentrant.runHookFrom E f ctx;!
        Reentrant.enterStep E;!
        Reentrant.ret None) entered w2) ∧
  (Reentrant.onEnterFrom target !! Reentrant.edge_trigger e = None ->
   Reentrant.Fire E fuel triggerKey ctx st w =
     match Reentrant.onEnter target with
     | Some f => (Reentrant.callHook E f;! Reentrant.ret None) entered w2
     | None => Reentrant.Done None entered w2
     end) ∧
  (Reentrant.onEnterFrom target !! Reentrant.edge_trigger e = Some None ->
   Reentrant.Fire E fuel triggerKey ctx st w = Reentrant.Panic).
Proof.
  intros Hcan Hc Hl He Htl0 Ht0 Hwalk Hexit Htl Ht entered.
  pose proof (Fire_entry_run E fuel triggerKey ctx st w st1 w1 l cur e tl0 target0
                walk st2 w2 tl target Hcan Hc Hl He Htl0 Ht0 Hwalk Hexit Htl Ht)
    as Hrun.
  fold entered in Hrun.
  assert (Hstep : ∀ st3 w3 l3 cur3,
            current (Reentrant.machine st3) = Some l3 ->
            Reentrant.heap st3 !! l3 = Some cur3 ->
            (Reentrant.enterStep E;! Reentrant.ret (None : error)) st3 w3 =
              match Reentrant.onEnter cur3 with
              | Some f => (Reentrant.callHook E f;! Reentrant.ret None) st3 w3
              | None => Reentrant.Done None st3 w3
              end).
  { intros st3 w3 l3 cur3 Hc3 Hl3.
    unfold Reentrant.enterStep, Reentrant.bind, Reentrant.getSM, Reentrant.deref.
    rewrite Hc3, Hl3. by destruct (Reentrant.onEnter cur3). }
  split; [done|]. split; [|split; [|split]].
  - intros st3 w3 l3 cur3 Hfrom Hc3 Hl3. rewrite Hrun.
    rewrite (Reentrant_bind_Done _ _ _ _ _ _ _ Hfrom). by apply Hstep with l3.
  - intros f Hf. rewrite Hrun. unfold Reentrant.enterFromStep. by rewrite Hf.
  - intros Hnone. rewrite Hrun. unfold Reentrant.enterFromStep. rewrite Hnone.
    rewrite (Reentrant_bind_Done _ _ entered w2 tt entered w2) by done.
    by apply Hstep with tl.
  - intros Hnil. rewrite Hrun. unfold Reentrant.enterFromStep. by rewrite Hnil.
Qed.

(** ** Closures that leave the machine alone *)

Lemma Reentrant_predLoop_frame E (ps : list (option Pred)) (found : bool) st w b st' w' :
  Reentrant.quiet E ->
  Reentrant.predLoop E ps found st w = Reentrant.Done b st' w' -> st' = st.
Proof.
  intros (_ & _ & Hq). revert found w.
  induction ps as [|p ps IH]; intros found w; simpl; [by intros [= _ <- _]|].
  unfold Reentrant.bind.
  destruct (Reentrant.callPred E p st w) as [b0 st0 w0| |] eqn:Hp; [|done..].
  destruct p as [p|]; [|done]. simpl in Hp. apply Hq in Hp as ->.
  destruct b0; [by intros [= _ <- _]|]. apply IH.
Qed.

Lemma Reentrant_CanFire_frame E triggerKey st w b st' w' :
  Reentrant.quiet E ->
  Reentrant.CanFire E triggerKey st w = Reentrant.Done b st' w' -> st' = st.
Proof.
  intros Hq. unfold Reentrant.CanFire, Reentrant.bind, Reentrant.getSM, Reentrant.deref.
  destruct (current (Reentrant.machine st)) as [l|]; [|done].
  destruct (Reentrant.heap st !! l) as [cur|]; [|done].
  destruct (Reentrant.permitted cur !! triggerKey) as [next|]; [|by intros [= _ <- _]].
  case_bool_decide; [|by intros [= _ <- _]].
  destruct (Reentrant.predLoop E (Reentrant.edge_preds next) false st w)
    as [found st0 w0| |] eqn:Hloop; [|done..].
  apply Reentrant_predLoop_frame in Hloop as ->; [|done].
  by destruct found; intros [= _ <- _].
Qed.

Lemma Reentrant_exitLoop_frame E fuel (p : option loc) st w st' w' :
  Reentrant.quiet E ->
  Reentrant.exitLoop E fuel p st w = Reentrant.Done tt st' w' -> st' = st.
Proof.
  intros (Hq & _ & _). revert p w.
  induction fuel as [|fuel IH]; intros [l|] w; simpl;
    try done; try by intros [= <- _].
  unfold Reentrant.bind at 1, Reentrant.deref at 1.
  destruct (Reentrant.heap st !! l) as [c|] eqn:Hl; [|done].
  unfold Reentrant.bind at 1.
  destruct (match Reentrant.onExit c with
            | Some f => Reentrant.callHook E f
            | None => Reentrant.ret tt
            end st w) as [[] st1 w1| |] eqn:Hhook; [|done..].
  assert (st1 = st) as ->.
  { destruct (Reentrant.onExit c) as [f|]; [by apply Hq in Hhook|by injection Hhook]. }
  unfold Reentrant.bind, Reentrant.deref. rewrite Hl. apply IH.
Qed.

(** X9.  When no closure that is called changes the machine, [Fire]
    changes nothing but the current pointer: whenever it returns, every
    record and the registry are as before; with an error the current
    pointer is as before too, and without one it is the registered
    record of the target of the edge filed under the key. *)
Theorem Fire_changes_current_only E fuel triggerKey ctx st w r st' w' :
  Reentrant.quiet E ->
  Reentrant.Fire E fuel triggerKey ctx st w = Reentrant.Done r st' w' ->
  Reentrant.heap st' = Reentrant.heap st ∧
  stateToConfig (Reentrant.machine st') = stateToConfig (Reentrant.machine st) ∧
  (r ≠ None -> st' = st) ∧
  (r = None ->
   ∃ l cur e, current (Reentrant.machine st) = Some l ∧
     Reentrant.heap st !! l = Some cur ∧
     Reentrant.permitted cur !! triggerKey = Some e ∧
     current (Reentrant.machine st') =
       stateToConfig (Reentrant.machine st) !! Reentrant.edge_state e ∧
     is_Some (current (Reentrant.machine st'))).
Proof.
  intros Hq. unfold Reentrant.Fire. unfold Reentrant.bind at 1.
  destruct (Reentrant.CanFire E triggerKey st w) as [ok st0 w0| |] eqn:Hcan; try done.
  pose proof (Reentrant_CanFire_frame _ _ _ _ _ _ _ Hq Hcan) as ->.
  destruct ok; [change (negb true) with false|change (negb false) with true]; cbv iota.
  2: { intros [= <- <- <-]. do 3 (split; [done|]). intros [=]. }
  intros Hrun.
  unfold Reentrant.bind at 1, Reentrant.getSM at 1 in Hrun.
  unfold Reentrant.bind at 1, Reentrant.deref at 1 in Hrun.
  destruct (current (Reentrant.machine st)) as [l|] eqn:Hc; cbv beta iota in Hrun; [|done].
  destruct (Reentrant.heap st !! l) as [cur|] eqn:Hl; cbv beta iota in Hrun; [|done].
  unfold Reentrant.bind at 1, Reentrant.derefEdge in Hrun.
  destruct (Reentrant.permitted cur !! triggerKey) as [e|] eqn:He;
    cbv beta iota in Hrun; [|done].
  unfold Reentrant.ret at 1 in Hrun.
  unfold Reentrant.bind at 1, Reentrant.deref at 1 in Hrun.
  destruct (stateToConfig (Reentrant.machine st) !! Reentrant.edge_state e) as [tl|] eqn:Htl;
    cbv beta iota in Hrun; [|done].
  destruct (Reentrant.heap st !! tl) as [target|] eqn:Ht; cbv beta iota in Hrun; [|done].
  cbv zeta in Hrun. unfold Reentrant.bind at 1 in Hrun.
  destruct (match Reentrant.parent target with
            | Some _ => _
            | None => Reentrant.ret true
            end st w0) as [walk st1 w1| |] eqn:Hw; [|done..].
  assert (st1 = st) as ->.
  { destruct (Reentrant.parent target) as [q|]; [|by injection Hw as _ <- _].
    unfold Reentrant.bind, Reentrant.deref in Hw.
    destruct (Reentrant.heap st !! q); [|done]. by injection Hw as _ <- _. }
  unfold Reentrant.bind at 1 in Hrun.
  destruct ((if walk then Reentrant.exitLoop E fuel (Some l) else Reentrant.ret tt) st w1)
    as [[] st2 w2| |] eqn:Hexit; [|done..].
  assert (st2 = st) as ->.
  { destruct walk; [by eapply Reentrant_exitLoop_frame|by injection Hexit]. }
  unfold Reentrant.bind at 1, Reentrant.getSM at 1 in Hrun. rewrite Htl in Hrun.
  unfold Reentrant.bind at 1, Reentrant.setCurrent at 1 in Hrun.
  unfold Reentrant.bind at 1, Reentrant.getSM at 1 in Hrun.
  unfold Reentrant.bind at 1, Reentrant.deref at 1 in Hrun.
  cbn [Reentrant.machine Reentrant.heap current] in Hrun. rewrite Ht in Hrun.
  unfold Reentrant.bind at 1 in Hrun.
  set (st3 := Reentrant.mkStore (Reentrant.heap st)
                (mkStateMachine (Some tl) (stateToConfig (Reentrant.machine st)))) in Hrun.
  destruct (match Reentrant.onEnterFrom target !! Reentrant.edge_trigger e with
            | Some enterFrom => Reentrant.callHookFrom E enterFrom ctx
            | None => Reentrant.ret tt
            end st3 w2) as [[] st4 w4| |] eqn:Hfrom; [|done..].
  assert (st4 = st3) as ->.
  { destruct (Reentrant.onEnterFrom target !! Reentrant.edge_trigger e) as [[ff|]|];
      [by apply (proj1 (proj2 Hq)) in Hfrom|done|by injection Hfrom]. }
  unfold Reentrant.bind at 1, Reentrant.getSM at 1 in Hrun.
  unfold Reentrant.bind at 1, Reentrant.deref at 1 in Hrun.
  cbn [st3 Reentrant.machine Reentrant.heap current] in Hrun. rewrite Ht in Hrun.
  unfold Reentrant.bind at 1 in Hrun. fold st3 in Hrun.
  destruct (match Reentrant.onEnter target with
            | Some f => Reentrant.callHook E f
            | None => Reentrant.ret tt
            end st3 w4) as [[] st5 w5| |] eqn:Henter; [|done..].
  assert (st5 = st3) as ->.
  { destruct (Reentrant.onEnter target) as [f|];
      [by apply (proj1 Hq) in Henter|by injection Henter]. }
  injection Hrun as <- <- <-.
  do 2 (split; [done|]). split; [done|]. intros _.
  exists l, cur, e. do 3 (split; [done|]). simpl. rewrite Htl. by split.
Qed.

(** ** A nil guard *)

Lemma Reentrant_registerStateConfig_run s st w :
  ∃ l st1, Reentrant.registerStateConfig (W:=W) s st w = Reentrant.Done l st1 w ∧
    current (Reentrant.machine st1) = current (Reentrant.machine st) ∧
    ∀ c cfg, Reentrant.heap st !! c = Some cfg -> Reentrant.heap st1 !! c = Some cfg.
Proof.
  unfold Reentrant.registerStateConfig, Reentrant.bind, Reentrant.getSM.
  destruct (stateToConfig (Reentrant.machine st) !! s) as [l|].
  - by exists l, st.
  - eexists _, _. split; [reflexivity|]. split; [done|].
    intros c cfg Hc. simpl. by apply lookup_app_l_Some.
Qed.

(** X19.  [PermitIf] stores a nil guard like any other and returns;
    with no edge under the key before, the nil guard is the first of the
    new edge, and from then on [CanFire] and [Fire] of that key panic in
    the state configured, whatever the other closures do. *)
Theorem nil_guard_panics E c t s st w cfg :
  current (Reentrant.machine st) = Some c ->
  Reentrant.heap st !! c = Some cfg ->
  Reentrant.permitted cfg !! Key t = None ->
  ∃ st', Reentrant.PermitIf c t s None st w = Reentrant.Done c st' w ∧
    Reentrant.CanFire E (Key t) st' w = Reentrant.Panic ∧
    ∀ fuel ctx, Reentrant.Fire E fuel (Key t) ctx st' w = Reentrant.Panic.
Proof.
  intros Hcur Hc Hnone.
  destruct (Reentrant_registerStateConfig_run s st w) as (l & st1 & Hreg & Hcur1 & Hkeep).
  pose proof (Hkeep _ _ Hc) as Hc1.
  set (x := Reentrant.set_permitted
              (<[Key t := Reentrant.mkEdge t s [None]]> (Reentrant.permitted cfg)) cfg).
  exists (Reentrant.mkStore (<[c := x]> (Reentrant.heap st1)) (Reentrant.machine st1)).
  assert (Hlt : c < length (Reentrant.heap st1)) by (by eapply lookup_lt_Some).
  assert (Hcan : Reentrant.CanFire E (Key t)
            (Reentrant.mkStore (<[c := x]> (Reentrant.heap st1)) (Reentrant.machine st1)) w
            = Reentrant.Panic).
  { unfold Reentrant.CanFire, Reentrant.bind, Reentrant.getSM, Reentrant.deref. simpl.
    rewrite Hcur1, Hcur, list_lookup_insert_eq by done. simpl.
    by rewrite lookup_insert_eq. }
  split; [|split; [done|]].
  - unfold Reentrant.PermitIf.
    rewrite (Reentrant_bind_Done _ _ _ _ _ _ _ Hreg).
    rewrite (Reentrant_bind_Done _ _ _ _ _ _ _ (Reentrant_deref_Some _ _ _ _ Hc1)).
    rewrite Hnone.
    unfold Reentrant.bind, Reentrant.modifyCfg, Reentrant.ret. rewrite Hc1. simpl.
    rewrite list_lookup_insert_eq by done. do 2 f_equal.
    rewrite list_insert_insert_eq. unfold x, Reentrant.set_permitted. simpl.
    by rewrite insert_insert_eq.
  - intros fuel ctx. unfold Reentrant.Fire, Reentrant.bind at 1. by rewrite Hcan.
Qed.

End ReentrantProofs.

(** * Closures that are functions of the caller's world *)

Section PureProofs.
Variables (W Ctx : Type).
Implicit Types (st : Store W Ctx) (w : W).
Implicit Types (cfg cur target : StateConfig W Ctx) (e : edge W).
Implicit Types (l : loc) (s : State).

Lemma embed_lookup st l :
  Reentrant.heap (embed st) !! l = embedConfig <$> heap st !! l.
Proof. unfold embed. simpl. by rewrite list_lookup_fmap. Qed.

Lemma embed_permitted cfg (k : string) :
  Reentrant.permitted (embedConfig cfg) !! k = embedEdge <$> permitted cfg !! k.
Proof. unfold embedConfig. simpl. by rewrite lookup_fmap. Qed.

Lemma embed_onEnterFrom cfg (t : Trigger) :
  Reentrant.onEnterFrom (embedConfig cfg) !! t = Some <$> onEnterFrom cfg !! t.
Proof. unfold embedConfig. simpl. by rewrite lookup_fmap. Qed.

Lemma embed_NewStateConfig s :
  embedConfig (NewStateConfig (W:=W) (Ctx:=Ctx) s) = Reentrant.NewStateConfig s.
Proof.
  unfold embedConfig, NewStateConfig, Reentrant.NewStateConfig. simpl.
  by rewrite !fmap_empty.
Qed.

Lemma pure_bind {A B} (m' : Reentrant.M W (hook W) (hookFrom W Ctx) (pred W) A) (m : M W Ctx A)
    (k' : A -> Reentrant.M W (hook W) (hookFrom W Ctx) (pred W) B) (k : A -> M W Ctx B) st w :
  m' (embed st) w = embedResult (m st w) ->
  (∀ a st1 w1, k' a (embed st1) w1 = embedResult (k a st1 w1)) ->
  Reentrant.bind m' k' (embed st) w = embedResult (bind m k st w).
Proof.
  intros Hm Hk. unfold Reentrant.bind, bind. rewrite Hm.
  destruct (m st w) as [a st1 w1| |]; simpl; [apply Hk|done..].
Qed.

Lemma pure_deref {B} (p : option loc)
    (k' : Reentrant.StateConfig (hook W) (hookFrom W Ctx) (pred W) ->
          Reentrant.M W (hook W) (hookFrom W Ctx) (pred W) B)
    (k : StateConfig W Ctx -> M W Ctx B) st w :
  (∀ c, k' (embedConfig c) (embed st) w = embedResult (k c st w)) ->
  Reentrant.bind (Reentrant.deref p) k' (embed st) w = embedResult (bind (deref p) k st w).
Proof.
  intros Hk. unfold Reentrant.bind, bind, Reentrant.deref, deref.
  destruct p as [l|]; [|done]. rewrite embed_lookup.
  destruct (heap st !! l) as [c|]; simpl; [apply Hk|done].
Qed.

Lemma pure_registerStateConfig s st w :
  Reentrant.registerStateConfig s (embed st) w = embedResult (registerStateConfig s st w).
Proof.
  unfold Reentrant.registerStateConfig, registerStateConfig.
  unfold Reentrant.bind, bind, Reentrant.getSM, getSM. simpl.
  destruct (stateToConfig (machine st) !! s) as [l|]; [done|].
  unfold Reentrant.alloc, alloc, Reentrant.setStateToConfig, setStateToConfig,
    Reentrant.ret, ret. simpl.
  rewrite length_fmap. unfold embed. simpl.
  by rewrite fmap_app, <- embed_NewStateConfig.
Qed.

Lemma pure_modifyCfg l
    (f' : Reentrant.StateConfig (hook W) (hookFrom W Ctx) (pred W) ->
          Reentrant.StateConfig (hook W) (hookFrom W Ctx) (pred W))
    (f : StateConfig W Ctx -> StateConfig W Ctx) st w :
  (∀ c, f' (embedConfig c) = embedConfig (f c)) ->
  Reentrant.modifyCfg l f' (embed st) w = embedResult (modifyCfg l f st w).
Proof.
  intros Hf. unfold Reentrant.modifyCfg, modifyCfg. rewrite embed_lookup.
  destruct (heap st !! l) as [c|]; simpl; [|done].
  unfold embed. simpl. by rewrite list_fmap_insert, Hf.
Qed.

Lemma pure_setter {A} l
    (f' : Reentrant.StateConfig (hook W) (hookFrom W Ctx) (pred W) ->
          Reentrant.StateConfig (hook W) (hookFrom W Ctx) (pred W))
    (f : StateConfig W Ctx -> StateConfig W Ctx) (a : A) st w :
  (∀ c, f' (embedConfig c) = embedConfig (f c)) ->
  (Reentrant.modifyCfg l f';! Reentrant.ret a) (embed st) w =
    embedResult ((modifyCfg l f;; ret a) st w).
Proof.
  intros Hf. apply pure_bind; [by apply pure_modifyCfg|done].
Qed.

Lemma pure_Permit c t s st w :
  Reentrant.Permit c t s (embed st) w = embedResult (Permit c t s st w).
Proof.
  unfold Reentrant.Permit, Permit.
  apply pure_bind; [apply pure_registerStateConfig|]. intros _ st1 w1.
  apply pure_setter. intros cfg.
  unfold embedConfig, Reentrant.set_permitted, set_permitted. simpl.
  by rewrite fmap_insert.
Qed.

Lemma pure_PermitIf c t s (p : pred W) st w :
  Reentrant.PermitIf c t s (Some p) (embed st) w = embedResult (PermitIf c t s p st w).
Proof.
  unfold Reentrant.PermitIf, PermitIf.
  apply pure_bind; [apply pure_registerStateConfig|]. intros _ st1 w1.
  apply pure_deref. intros cfg. rewrite embed_permitted.
  assert (Hlast : ∀ val st2 w2,
    (Reentrant.modifyCfg c (fun x =>
       Reentrant.set_permitted
         (<[Key t := Reentrant.mkEdge (Reentrant.edge_trigger (embedEdge val))
                       (Reentrant.edge_state (embedEdge val))
                       (Reentrant.edge_preds (embedEdge val) ++ [Some p])]>
            (Reentrant.permitted x)) x);! Reentrant.ret c) (embed st2) w2 =
    embedResult ((modifyCfg c (fun cfg0 =>
       set_permitted
         (<[Key t := mkEdge (edge_trigger val) (edge_state val) (edge_preds val ++ [p])]>
            (permitted cfg0)) cfg0);; ret c) st2 w2)).
  { intros val st2 w2. apply pure_setter. intros cfg0.
    unfold embedConfig, Reentrant.set_permitted, set_permitted. simpl.
    rewrite fmap_insert. do 2 f_equal. unfold embedEdge. simpl. by rewrite fmap_app. }
  destruct (permitted cfg !! Key t) as [val|]; simpl.
  - unfold Reentrant.bind at 1, bind at 1. simpl. apply Hlast.
  - unfold Reentrant.bind at 1, bind at 1.
    unfold Reentrant.bind at 1, bind at 1.
    rewrite (pure_modifyCfg c _ (fun cfg0 =>
               set_permitted (<[Key t := mkEdge t s []]> (permitted cfg0)) cfg0)).
    2: { intros cfg0. unfold embedConfig, Reentrant.set_permitted, set_permitted. simpl.
         by rewrite fmap_insert. }
    destruct (modifyCfg c _ st1 w1) as [[] st2 w2| |]; simpl; [|done..].
    apply (Hlast (mkEdge t s [])).
Qed.

Lemma pure_OnEnter c (f : hook W) st w :
  Reentrant.OnEnter c (Some f) (embed st) w = embedResult (OnEnter c f st w).
Proof. unfold Reentrant.OnEnter, OnEnter. by apply pure_setter. Qed.

Lemma pure_OnExit c (f : hook W) st w :
  Reentrant.OnExit c (Some f) (embed st) w = embedResult (OnExit c f st w).
Proof. unfold Reentrant.OnExit, OnExit. by apply pure_setter. Qed.

Lemma pure_OnEnterFrom c t (f : hookFrom W Ctx) st w :
  Reentrant.OnEnterFrom c t (Some f) (embed st) w = embedResult (OnEnterFrom c t f st w).
Proof.
  unfold Reentrant.OnEnterFrom, OnEnterFrom. apply pure_setter. intros cfg.
  unfold embedConfig, Reentrant.set_onEnterFrom, set_onEnterFrom. simpl.
  by rewrite fmap_insert.
Qed.

Lemma pure_SubstateOf c s st w :
  Reentrant.SubstateOf c s (embed st) w = embedResult (SubstateOf c s st w).
Proof.
  unfold Reentrant.SubstateOf, SubstateOf.
  apply pure_bind; [apply pure_registerStateConfig|]. intros l st1 w1.
  by apply pure_setter.
Qed.

Lemma pure_NewStateMachine initial w :
  Reentrant.NewStateMachine initial Reentrant.emptyStore w =
    embedResult (NewStateMachine (W:=W) (Ctx:=Ctx) initial emptyStore w).
Proof.
  change Reentrant.emptyStore with (embed (emptyStore (W:=W) (Ctx:=Ctx))).
  unfold Reentrant.NewStateMachine, NewStateMachine.
  apply pure_bind; [apply pure_registerStateConfig|]. done.
Qed.

Lemma pure_SM_State st w :
  Reentrant.SM_State (embed st) w = embedResult (SM_State st w).
Proof.
  unfold Reentrant.SM_State, SM_State.
  apply pure_bind; [done|]. intros sm st1 w1. by apply pure_deref.
Qed.

Lemma pure_predLoop (ps : list (pred W)) (found : bool) st w :
  Reentrant.predLoop pureEnv (Some <$> ps) found (embed st) w =
    embedResult (predLoop ps found st w).
Proof.
  revert found w. induction ps as [|p ps IH]; intros found w; [done|].
  simpl. unfold Reentrant.bind, bind, Reentrant.callPred, callPred. simpl.
  destruct (fst (p w)); [done|]. apply IH.
Qed.

Lemma pure_CanFire triggerKey st w :
  Reentrant.CanFire pureEnv triggerKey (embed st) w = embedResult (CanFire triggerKey st w).
Proof.
  unfold Reentrant.CanFire, CanFire.
  apply pure_bind; [done|]. intros sm st1 w1. apply pure_deref. intros cur.
  rewrite embed_permitted.
  destruct (permitted cur !! triggerKey) as [next|]; simpl; [|done].
  rewrite length_fmap. case_bool_decide; [|done].
  apply pure_bind; [apply pure_predLoop|]. intros found st2 w2. by destruct found.
Qed.

Lemma pure_exitLoop fuel (p : option loc) st w :
  Reentrant.exitLoop pureEnv fuel p (embed st) w = embedResult (exitLoop fuel p st w).
Proof.
  revert p w. induction fuel as [|fuel IH]; intros [l|] w; simpl; try done.
  unfold Reentrant.bind, bind, Reentrant.deref, deref. rewrite embed_lookup.
  destruct (heap st !! l) as [cfg|] eqn:Hl; simpl; [|done].
  destruct (onExit cfg) as [f|]; simpl; rewrite list_lookup_fmap, Hl; simpl; apply IH.
Qed.

Lemma pure_isInLoop fuel s (p : option loc) st w :
  Reentrant.isInLoop fuel s p (embed st) w = embedResult (isInLoop fuel s p st w).
Proof.
  revert p. induction fuel as [|fuel IH]; intros [l|]; simpl; try done.
  apply pure_deref. intros cfg. simpl. case_bool_decide; [done|]. apply IH.
Qed.

Lemma pure_IsInState fuel s st w :
  Reentrant.IsInState fuel s (embed st) w = embedResult (IsInState fuel s st w).
Proof.
  unfold Reentrant.IsInState, IsInState.
  apply pure_bind; [done|]. intros sm st1 w1. apply pure_isInLoop.
Qed.

Lemma pure_Fire fuel triggerKey ctx st w :
  Reentrant.Fire pureEnv fuel triggerKey ctx (embed st) w =
    embedResult (Fire fuel triggerKey ctx st w).
Proof.
  unfold Reentrant.Fire, Fire.
  unfold Reentrant.bind at 1, bind at 1. rewrite pure_CanFire.
  destruct (CanFire triggerKey st w) as [ok st1 w1| |]; simpl; [|done..].
  destruct ok; simpl; [|done].
  unfold Reentrant.bind at 1, bind at 1, Reentrant.getSM at 1, getSM at 1.
  cbn [embed Reentrant.machine].
  change (Reentrant.mkStore (embedConfig <$> heap st1) (machine st1)) with (embed st1).
  apply pure_deref. intros cur. rewrite embed_permitted.
  destruct (permitted cur !! triggerKey) as [e|]; simpl; [|done].
  unfold Reentrant.bind at 1, bind at 1. simpl.
  apply pure_deref. intros target. simpl.
  unfold Reentrant.bind at 1, bind at 1.
  assert (Hwalk :
    match parent target with
    | Some _ =>
        let! tp := Reentrant.deref (parent target) in
        Reentrant.ret (bool_decide (Reentrant.state tp ≠ state cur))
    | None => Reentrant.ret true
    end (embed st1) w1 =
    embedResult (match parent target with
                 | Some _ =>
                     let* tp := deref (parent target) in
                     ret (bool_decide (state tp ≠ state cur))
                 | None => ret true
                 end st1 w1)).
  { destruct (parent target) as [q|]; [|done]. by apply pure_deref. }
  rewrite Hwalk. clear Hwalk.
  destruct (match parent target with
            | Some _ => _
            | None => ret true
            end st1 w1) as [walk st2 w2| |] eqn:Hw; simpl; [|done..].
  assert (st2 = st1) as ->.
  { destruct (parent target) as [q|]; [|by injection Hw as _ <- _].
    unfold bind, deref in Hw. destruct (heap st1 !! q); [|done].
    by injection Hw as _ <- _. }
  unfold Reentrant.bind at 1, bind at 1.
  assert (Hexit :
    (if walk then Reentrant.exitLoop pureEnv fuel (current (machine st1))
     else Reentrant.ret tt) (embed st1) w2 =
    embedResult ((if walk then exitLoop fuel (current (machine st1)) else ret tt) st1 w2)).
  { destruct walk; [apply pure_exitLoop|done]. }
  rewrite Hexit. clear Hexit.
  destruct ((if walk then exitLoop fuel (current (machine st1)) else ret tt) st1 w2)
    as [[] st3 w3| |] eqn:Hexit; simpl; [|done..].
  assert (st3 = st1) as ->.
  { destruct walk; [by eapply exitLoop_frame|by injection Hexit as <- _]. }
  unfold Reentrant.bind, bind, Reentrant.getSM, getSM, Reentrant.setCurrent,
    setCurrent, Reentrant.deref, deref. simpl.
  destruct (stateToConfig (machine st1) !! edge_state e) as [tl|]; [|done].
  rewrite list_lookup_fmap.
  destruct (heap st1 !! tl) as [tg|] eqn:Htg; simpl; [|done].
  rewrite lookup_fmap.
  destruct (onEnterFrom tg !! edge_trigger e) as [ff|]; simpl;
    rewrite list_lookup_fmap, Htg; simpl; by destruct (onEnter tg).
Qed.

(** X20.  With closures that are not nil and act on the caller's world
    only, the machine whose closures can reach it does, call by call,
    what the machine over world functions does: every public function
    of the package, run on the embedding of a store, has the embedding
    of the result. *)
Theorem pure_closures_exact st w :
  (∀ initial,
     Reentrant.NewStateMachine initial Reentrant.emptyStore w =
       embedResult (NewStateMachine (W:=W) (Ctx:=Ctx) initial emptyStore w)) ∧
  (∀ s, Reentrant.Configure s (embed st) w = embedResult (Configure s st w)) ∧
  (∀ c t s, Reentrant.Permit c t s (embed st) w = embedResult (Permit c t s st w)) ∧
  (∀ c t s (p : pred W),
     Reentrant.PermitIf c t s (Some p) (embed st) w = embedResult (PermitIf c t s p st w)) ∧
  (∀ c (f : hook W),
     Reentrant.OnEnter c (Some f) (embed st) w = embedResult (OnEnter c f st w)) ∧
  (∀ c t (f : hookFrom W Ctx),
     Reentrant.OnEnterFrom c t (Some f) (embed st) w =
       embedResult (OnEnterFrom c t f st w)) ∧
  (∀ c (f : hook W),
     Reentrant.OnExit c (Some f) (embed st) w = embedResult (OnExit c f st w)) ∧
  (∀ c s, Reentrant.SubstateOf c s (embed st) w = embedResult (SubstateOf c s st w)) ∧
  Reentrant.SM_State (embed st) w = embedResult (SM_State st w) ∧
  (∀ triggerKey,
     Reentrant.CanFire pureEnv triggerKey (embed st) w =
       embedResult (CanFire triggerKey st w)) ∧
  (∀ fuel triggerKey ctx,
     Reentrant.Fire pureEnv fuel triggerKey ctx (embed st) w =
       embedResult (Fire fuel triggerKey ctx st w)) ∧
  (∀ fuel s,
     Reentrant.IsInState fuel s (embed st) w = embedResult (IsInState fuel s st w)).
Proof.
  split; [intros initial; apply pure_NewStateMachine|].
  split; [intros s; apply pure_registerStateConfig|].
  split; [intros c t s; apply pure_Permit|].
  split; [intros c t s p; apply pure_PermitIf|].
  split; [intros c f; apply pure_OnEnter|].
  split; [intros c t f; apply pure_OnEnterFrom|].
  split; [intros c f; apply pure_OnExit|].
  split; [intros c s; apply pure_SubstateOf|].
  split; [apply pure_SM_State|].
  split; [intros k; apply pure_CanFire|].
  split; [intros fuel k ctx; apply pure_Fire|].
  intros fuel s. apply pure_IsInState.
Qed.

Lemma pureEnv_quiet : Reentrant.quiet (pureEnv (W:=W) (Ctx:=Ctx)).
Proof. by split; [|split]; simpl; intros; simplify_eq. Qed.

Lemma embedResult_Done {A} (r : result W Ctx A) a gst' w' :
  embedResult r = Reentrant.Done a gst' w' ->
  ∃ st', r = Done a st' w' ∧ gst' = embed st'.
Proof. destruct r as [a0 st0 w0| |]; simpl; [|done..]. intros [= -> <- ->]. by eexists. Qed.

(** ** What [Fire] leaves behind, for such closures *)

(** X10.  After [Fire] on a well-formed store, with closures that are
    not nil and act on the caller's world only, [State] tells the
    outcome: the target of the edge when [Fire] returned no error, and
    the state the machine was in when it returned one.  The machine is
    in the state [State] reports. *)
Theorem Fire_then_State fuel triggerKey ctx st w l cur r gst' w' :
  wf st -> current (machine st) = Some l -> heap st !! l = Some cur ->
  Reentrant.Fire pureEnv fuel triggerKey ctx (embed st) w = Reentrant.Done r gst' w' ->
  ∃ s, Reentrant.SM_State gst' w' = Reentrant.Done s gst' w' ∧
    (∀ fuel', Reentrant.IsInState (S fuel') s gst' w' = Reentrant.Done true gst' w') ∧
    match r with
    | Some _ => s = state cur
    | None => ∃ e, permitted cur !! triggerKey = Some e ∧ s = edge_state e
    end.
Proof.
  intros Hwf Hc Hl Hrun. rewrite pure_Fire in Hrun.
  apply embedResult_Done in Hrun as (st' & Hrun & ->).
  destruct (State_after_Fire _ _ fuel triggerKey ctx st w l cur r st' w' Hwf Hc Hl Hrun)
    as (s & Hstate & Hin & Hr).
  exists s. rewrite pure_SM_State, Hstate. split; [done|]. split; [|done].
  intros fuel'. by rewrite pure_IsInState, Hin.
Qed.

(** X12.  Entering a direct substate leaves no state: after such a
    [Fire] on a well-formed store, with closures that are not nil and act
    on the caller's world only, the machine is in the substate and still
    in every state it was in before. *)
Theorem Fire_substate_keeps_states fuel triggerKey ctx st w l cur e tl tg gst' w' :
  wf st -> current (machine st) = Some l -> heap st !! l = Some cur ->
  permitted cur !! triggerKey = Some e ->
  stateToConfig (machine st) !! edge_state e = Some tl ->
  heap st !! tl = Some tg -> parent tg = Some l ->
  Reentrant.Fire pureEnv fuel triggerKey ctx (embed st) w = Reentrant.Done None gst' w' ->
  (∀ fuel', Reentrant.IsInState (S fuel') (edge_state e) gst' w'
              = Reentrant.Done true gst' w') ∧
  (∀ k cfg fuel', ancestor (heap st) (Some l) k cfg -> S k < fuel' ->
     Reentrant.IsInState fuel' (state cfg) gst' w' = Reentrant.Done true gst' w').
Proof.
  intros Hwf Hc Hl He Htl Htg Hpar Hrun. rewrite pure_Fire in Hrun.
  apply embedResult_Done in Hrun as (st' & Hrun & ->).
  destruct (IsInState_after_substate _ _ fuel triggerKey ctx st w l cur e tl tg st' w'
              Hwf Hc Hl He Htl Htg Hpar Hrun) as [Htarget Hanc].
  split.
  - intros fuel'. by rewrite pure_IsInState, Htarget.
  - intros k cfg fuel' Hk Hfuel. by rewrite pure_IsInState, (Hanc k cfg fuel' Hk Hfuel).
Qed.

(** X13.  Entering a state that has no parent leaves every other state:
    after such a [Fire] on a well-formed store, with closures that are
    not nil and act on the caller's world only, the machine is in the
    target state and in no other. *)
Theorem Fire_root_target_only fuel triggerKey ctx st w l cur e tl tg gst' w' :
  wf st -> current (machine st) = Some l -> heap st !! l = Some cur ->
  permitted cur !! triggerKey = Some e ->
  stateToConfig (machine st) !! edge_state e = Some tl ->
  heap st !! tl = Some tg -> parent tg = None ->
  Reentrant.Fire pureEnv fuel triggerKey ctx (embed st) w = Reentrant.Done None gst' w' ->
  ∀ fuel' s,
    Reentrant.IsInState (S fuel') s gst' w'
      = Reentrant.Done (bool_decide (s = edge_state e)) gst' w'.
Proof.
  intros Hwf Hc Hl He Htl Htg Hpar Hrun. rewrite pure_Fire in Hrun.
  apply embedResult_Done in Hrun as (st' & Hrun & ->).
  intros fuel' s. rewrite pure_IsInState.
  by rewrite (IsInState_after_root _ _ fuel triggerKey ctx st w l cur e tl tg st' w'
                Hwf Hc Hl He Htl Htg Hpar Hrun fuel' s).
Qed.

(** X14.  On every store a caller can produce with closures that are
    not nil and act on the caller's world only, no call of the engine
    dereferences a nil pointer: [Fire], [CanFire], [IsInState] and
    [State] never panic, because every edge's target and every parent is
    a registered record. *)
Theorem engine_never_panics initial st w :
  reachable initial st ->
  (∀ fuel triggerKey ctx,
     Reentrant.Fire pureEnv fuel triggerKey ctx (embed st) w ≠ Reentrant.Panic) ∧
  (∀ triggerKey, ∃ b w',
     Reentrant.CanFire pureEnv triggerKey (embed st) w = Reentrant.Done b (embed st) w') ∧
  (∀ fuel s, Reentrant.IsInState fuel s (embed st) w ≠ Reentrant.Panic) ∧
  (∃ s, Reentrant.SM_State (embed st) w = Reentrant.Done s (embed st) w).
Proof.
  intros Hreach.
  destruct (engine_safe _ _ initial st w Hreach) as (Hfire & Hcan & Hin & s & Hstate).
  split; [|split; [|split]].
  - intros fuel k ctx. rewrite pure_Fire. specialize (Hfire fuel k ctx).
    by destruct (Fire fuel k ctx st w).
  - intros k. destruct (Hcan k) as (b & w' & Hk). exists b, w'.
    by rewrite pure_CanFire, Hk.
  - intros fuel s0. rewrite pure_IsInState. specialize (Hin fuel s0).
    by destruct (IsInState fuel s0 st w).
  - exists s. by rewrite pure_SM_State, Hstate.
Qed.

End PureProofs.

(** * A hook that fires a transition, run *)

(** C6.  A successful [Fire] that does not call the target's enter
    hook.  On the store of [HookFires.setup], built through the package,
    [s1] permits [tr1] to [s2], and [s2] has an enter hook and, for
    [tr1], an enter-from hook that calls [sm.Fire("tr2", ctx)], which
    takes the machine on to [s3].  [Fire("tr1", ctx)] returns nil; the
    enter hook it calls after the enter-from hook has returned is the
    one of the record [sm.current] names then, that of [s3], a second
    time, and the enter hook of its target [s2] is not called. *)
Theorem Fire_skips_enter_hook_of_target :
  HookFires.setup Reentrant.emptyStore [] = Reentrant.Done tt HookFires.store [] ∧
  (∃ cur e target,
     current (Reentrant.machine HookFires.store) = Some 0 ∧
     Reentrant.heap HookFires.store !! 0 = Some cur ∧
     Reentrant.permitted cur !! "tr1" = Some e ∧
     Reentrant.edge_trigger e = HookFires.tr1 ∧
     Reentrant.edge_state e = HookFires.s2 ∧
     HookFires.configOf HookFires.store HookFires.s2 = Some target ∧
     Reentrant.onEnterFrom target !! HookFires.tr1
       = Some (Some (HookFires.FireAgain "tr2")) ∧
     Reentrant.onEnter target = Some (HookFires.Append "s2enter")) ∧
  Reentrant.CanFire (HookFires.envAt 5 1) "tr1" HookFires.store []
    = Reentrant.Done true HookFires.store [] ∧
  Reentrant.Fire (HookFires.envAt 5 1) 5 "tr1" 0 HookFires.store [] =
    Reentrant.Done None (Reentrant.withCurrent HookFires.store (Some 2))
      ["s1exit"; "s2exit"; "s3enter"; "s3enter"] ∧
  Reentrant.SM_State (Reentrant.withCurrent HookFires.store (Some 2))
      ["s1exit"; "s2exit"; "s3enter"; "s3enter"] =
    Reentrant.Done HookFires.s3 (Reentrant.withCurrent HookFires.store (Some 2))
      ["s1exit"; "s2exit"; "s3enter"; "s3enter"].
Proof.
  split; [vm_compute; reflexivity|]. split; [|split; [|split]].
  - exists (HookFires.cfgAt HookFires.store 0),
      (HookFires.edgeAt (HookFires.cfgAt HookFires.store 0) "tr1"),
      (HookFires.cfgAt HookFires.store 1).
    repeat split; vm_compute; reflexivity.
  - vm_compute. reflexivity.
  - vm_compute. reflexivity.
  - vm_compute. reflexivity.
Qed.

(** With no call of the machine allowed inside a hook, the run of the
    hook has not finished. *)
Example Fire_depth_exhausted :
  Reentrant.Fire (HookFires.envAt 5 0) 5 "tr1" 0 HookFires.store [] = Reentrant.Diverge.
Proof. vm_compute. reflexivity. Qed.

(** * The properties of this part on the scenarios *)

(** On [HookFires.store] the enter-from hook of [s2] leaves the machine
    in [s3], and the enter hook called next is the one of [s3]. *)
Lemma Fire_entry_steps_witness :
  Reentrant.Fire (HookFires.envAt 5 1) 5 "tr1" 0 HookFires.store [] =
    (Reentrant.callHook (HookFires.envAt 5 1) (HookFires.Append "s3enter");!
     Reentrant.ret None)
      (Reentrant.withCurrent HookFires.store (Some 2))
      ["s1exit"; "s2exit"; "s3enter"].
Proof.
  pose (st := HookFires.store).
  pose (cur := HookFires.cfgAt st 0). pose (target := HookFires.cfgAt st 1).
  exact (proj1 (proj2
    (Fire_entry_steps HookFires.World nat HookFires.hookId HookFires.hookFromId Empty_set
       (HookFires.envAt 5 1) 5 "tr1" 0 st [] st [] 0 cur
       (HookFires.edgeAt cur "tr1") 1 target true st ["s1exit"] 1 target
       eq_refl eq_refl eq_refl eq_refl eq_refl eq_refl eq_refl eq_refl eq_refl eq_refl))
    (Reentrant.withCurrent st (Some 2)) ["s1exit"; "s2exit"; "s3enter"]
    2 (HookFires.cfgAt st 2) eq_refl eq_refl eq_refl).
Defined.

(** A nil guard under [tr2] on the initial state of [HookFires.store]. *)
Lemma nil_guard_panics_witness :
  ∃ st', Reentrant.PermitIf (W:=HookFires.World) 0 HookFires.tr2 HookFires.s3 None
           HookFires.store [] = Reentrant.Done 0 st' [] ∧
    Reentrant.CanFire (HookFires.envAt 5 1) "tr2" st' [] = Reentrant.Panic.
Proof.
  destruct (nil_guard_panics HookFires.World nat HookFires.hookId HookFires.hookFromId
              Empty_set (HookFires.envAt 5 1) 0 HookFires.tr2 HookFires.s3
              HookFires.store [] (HookFires.cfgAt HookFires.store 0)
              eq_refl eq_refl eq_refl) as (st' & Hrun & Hcan & _).
  exists st'. split; [exact Hrun|exact Hcan].
Defined.

(** [TestIsInState] with world functions as closures: from [s1], the
    trigger [tr3] of [nested] enters [s3]. *)
Lemma Fire_changes_current_only_witness :
  Reentrant.heap (embed (withCurrent (storeOf nested) (Some 2))) =
    Reentrant.heap (embed (storeOf nested)).
Proof.
  assert (Hrun : Reentrant.Fire pureEnv 5 "tr3" 0 (embed (storeOf nested)) w0 =
                 Reentrant.Done None (embed (withCurrent (storeOf nested) (Some 2)))
                   (mkWorld false ["s1exit"; "s3enter"]))
    by (vm_compute; reflexivity).
  exact (proj1 (Fire_changes_current_only World nat (hook World) (hookFrom World nat)
                  (pred World) pureEnv 5 "tr3" 0 _ _ _ _ _
                  (pureEnv_quiet World nat) Hrun)).
Defined.

Lemma nested_wf : wf (storeOf nested).
Proof.
  apply (runOps_wf World nat s1
           [OpConfigure s1; OpPermit 0 tr1 s2; OpPermit 0 tr3 s3;
            OpOnExit 0 (record "s1exit"); OpConfigure s2; OpSubstateOf 1 s1;
            OpPermit 1 tr2 s3; OpOnExit 1 (record "s2exit"); OpConfigure s3;
            OpSubstateOf 2 s2; OpPermit 2 tr3 s4;
            OpOnEnter 2 (record "s3enter"); OpOnExit 2 (record "s3exit")]
           w0 _ w0).
  vm_compute. reflexivity.
Qed.

Lemma Fire_then_State_witness :
  ∃ s, Reentrant.SM_State (embed (withCurrent (storeOf nested) (Some 2)))
         (mkWorld false ["s1exit"; "s3enter"])
       = Reentrant.Done s (embed (withCurrent (storeOf nested) (Some 2)))
           (mkWorld false ["s1exit"; "s3enter"]) ∧
    s = s3.
Proof.
  assert (Hrun : Reentrant.Fire pureEnv 5 "tr3" 0 (embed (storeOf nested)) w0 =
                 Reentrant.Done None (embed (withCurrent (storeOf nested) (Some 2)))
                   (mkWorld false ["s1exit"; "s3enter"]))
    by (vm_compute; reflexivity).
  destruct (Fire_then_State World nat 5 "tr3" 0 (storeOf nested) w0 0
              (cfgAt (storeOf nested) 0) _ _ _ nested_wf eq_refl eq_refl Hrun)
    as (s & Hstate & _ & e & He & Hs).
  exists s. split; [exact Hstate|].
  rewrite Hs. vm_compute in He. injection He as <-. reflexivity.
Defined.

Lemma Fire_substate_keeps_states_witness :
  Reentrant.IsInState 2 s2 (embed (withCurrent inS2 (Some 2))) (mkWorld false ["s3enter"]) =
    Reentrant.Done true (embed (withCurrent inS2 (Some 2))) (mkWorld false ["s3enter"]).
Proof.
  pose (cur := cfgAt inS2 1).
  assert (Hrun : Reentrant.Fire pureEnv 5 "tr2" 0 (embed inS2) w0 =
                 Reentrant.Done None (embed (withCurrent inS2 (Some 2)))
                   (mkWorld false ["s3enter"]))
    by (vm_compute; reflexivity).
  assert (Hanc : ancestor (heap inS2) (Some 1) 0 cur).
  { apply (anc_here _ 1 cur). reflexivity. }
  exact (proj2 (Fire_substate_keeps_states World nat 5 "tr2" 0 inS2 w0 1 cur
                  (edgeAt cur "tr2") 2 (cfgAt inS2 2) _ _
                  inS2_wf eq_refl eq_refl eq_refl eq_refl eq_refl eq_refl Hrun)
           0 cur 2 Hanc ltac:(lia)).
Defined.

Lemma Fire_root_target_only_witness :
  Reentrant.IsInState 1 s2 (embed (storeOf reentry)) (mkWorld false ["exit"; "enter"]) =
    Reentrant.Done false (embed (storeOf reentry)) (mkWorld false ["exit"; "enter"]).
Proof.
  pose (cur := cfgAt (storeOf reentry) 0).
  assert (Hrun : Reentrant.Fire pureEnv 5 "tr" 0 (embed (storeOf reentry)) w0 =
                 Reentrant.Done None (embed (storeOf reentry))
                   (mkWorld false ["exit"; "enter"]))
    by (vm_compute; reflexivity).
  exact (Fire_root_target_only World nat 5 "tr" 0 (storeOf reentry) w0 0 cur
           (edgeAt cur "tr") 0 cur _ _
           reentry_wf eq_refl eq_refl eq_refl eq_refl eq_refl eq_refl Hrun 0 s2).
Defined.

Lemma engine_never_panics_witness :
  Reentrant.Fire pureEnv 3 "no such trigger" 0 (embed (storeOf reentry)) w0
    ≠ Reentrant.Panic.
Proof.
  exact (proj1 (engine_never_panics World nat s1 (storeOf reentry) w0
                  reentry_reachable) 3 "no such trigger"%string 0).
Defined.
